(** * ssanchors: anchor signals for MUSHRA-like listening tests

    A shallow embedding of [ssanchors/utilities.py],
    [ssanchors/anchors.py] and the command-line program of
    [ssanchors/cli.py].

    Conventions of the embedding.
    - Samples are Python floats; they are modelled as exact rationals [Q], so
      every "numeric tolerance" of the prose is read as exact equality or
      exact inequality, and a statement about sample values holds of the
      program up to the rounding of its arithmetic.
    - Where the program turns a float into a count, [int(n * factor)], the
      product is rounded as IEEE 754 binary64 arithmetic rounds it
      ([binary64]) before it is truncated; [distortion_factor] is the exact
      value of a finite float.
    - A numpy array of shape (rows, columns) is a list of rows; its shape is
      read off the lists.
    - [untwist.data.audio.Wave] objects are mutable and passed by reference:
      they live in a store, and Python variables hold locations.
    - The library services the program calls but does not define (numpy's
      random generator, untwist's transforms and loudness meter) are the
      fields of the class [Collaborators]; statements quantify over them.
      The program of cli.py also reads and splits paths through the class
      [Host]. *)

From Stdlib Require Import ZArith QArith Qabs Qround Qminmax Lia Lqa String.
From stdpp Require Import base list.

Local Open Scope Q_scope.

(** ** Python values and exceptions *)

Inductive exn : Type :=
| ValueError
| TypeError
| IndexError
| AttributeError
| OverflowError
| BadReference.  (* a location outside the store; no Python run reaches it *)

Inductive result (A : Type) : Type :=
| Ok (a : A)
| Raise (e : exn).
Arguments Ok {A} a.
Arguments Raise {A} e.

#[global] Instance result_ret : MRet result := λ A a, Ok a.
#[global] Instance result_bind : MBind result :=
  λ A B f m, match m with Ok a => f a | Raise e => Raise e end.

Definition is_ok {A} (r : result A) : bool :=
  match r with Ok _ => true | Raise _ => false end.

(** Python's [int(x)] on a float: truncation towards zero. *)
Definition py_int (x : Q) : Z := Z.quot (Qnum x) (Z.pos (Qden x)).

(** Python's [round(x)]: to the nearest integer, ties to the even one. *)
Definition py_round (x : Q) : Z :=
  let f := Qfloor x in
  match Qcompare (x - inject_Z f) (1 # 2) with
  | Lt => f
  | Gt => (f + 1)%Z
  | Eq => if Z.even f then f else (f + 1)%Z
  end.

(** ** Binary64 arithmetic

    A Python float is an IEEE 754 binary64 number, and the result of an
    operation on floats is the float nearest to the exact result, ties going
    to the even significand. [binary64 x] is that float for the exact result
    [x], on the grid of spacing [2^(e - 52)] for [2^e <= |x| < 2^(e + 1)],
    and of spacing [2^-1074] below [2^-1022]; a result of magnitude [2^1024]
    stands for an infinity. *)

Definition pow2 (k : Z) : Q :=
  if (0 <=? k)%Z then inject_Z (2 ^ k) else / inject_Z (2 ^ (- k)).

(** The exponent [e] of [x <> 0]: [2^e <= |x| < 2^(e + 1)]. *)
Definition ilog2 (x : Q) : Z :=
  let e := (Z.log2 (Z.abs (Qnum x)) - Z.log2 (Z.pos (Qden x)))%Z in
  if Qle_bool (pow2 e) (Qabs x) then e else (e - 1)%Z.

Definition binary64 (x : Q) : Q :=
  if Qeq_bool x 0 then 0
  else
    let q := Z.max (ilog2 x - 52) (-1074) in
    Qred (inject_Z (py_round (x / pow2 q)) * pow2 q).

(** The rounded result is an infinity. *)
Definition float_overflow (x : Q) : bool := Qle_bool (pow2 1024) (Qabs x).

(** [int(n * factor)] for an int [n] and a float [factor]: [n] is converted
    to a float, which fails with [OverflowError] when it is too large; the
    product of the two floats is rounded; and [int] truncates it, or fails
    with [OverflowError] on an infinity. *)
Definition dropout_count (n : nat) (factor : Q) : result Z :=
  let size := binary64 (inject_Z (Z.of_nat n)) in
  if float_overflow size then Raise OverflowError
  else
    let product := binary64 (size * factor) in
    if float_overflow product then Raise OverflowError
    else Ok (py_int product).

(** [a > b] and [a >= b] on floats. *)
Definition Qgtb (a b : Q) : bool := negb (Qle_bool a b).
Definition Qgeb (a b : Q) : bool := Qle_bool b a.

(** ** numpy arrays of shape (rows, columns) *)

Definition ndarray : Type := list (list Q).

Definition np_rows (a : ndarray) : nat := length a.
Definition np_cols (a : ndarray) : nat := length (hd [] a).
Definition np_get (a : ndarray) (i j : nat) : Q := nth j (nth i a []) 0.

Definition np_abs (a : ndarray) : ndarray := map (map Qabs) a.

(** [np.max(a)]: the reduction raises on an array without elements. *)
Definition np_max (a : ndarray) : result Q :=
  match concat a with
  | [] => Raise ValueError
  | x :: xs => Ok (fold_left Qmax xs x)
  end.

(** [a * gain] with a scalar gain: a new array. *)
Definition np_scale (a : ndarray) (gain : Q) : ndarray :=
  map (map (λ s, s * gain)) a.

(** [0 + a], the first step of Python's [sum]. *)
Definition np_radd0 (a : ndarray) : ndarray := map (map (Qplus 0)) a.

(** Broadcasting of one dimension: equal extents, or one of them is 1. *)
Definition broadcast_dim (n m : nat) : option nat :=
  if (n =? m)%nat then Some n
  else if (n =? 1)%nat then Some m
  else if (m =? 1)%nat then Some n
  else None.

Definition bcast_index (extent i : nat) : nat :=
  if (extent =? 1)%nat then 0%nat else i.

(** [a + b] elementwise with numpy's broadcasting: an axis of extent 1 is
    stretched to the extent of the other operand, and shapes that cannot be
    matched that way raise [ValueError]. *)
Definition np_add (a b : ndarray) : result ndarray :=
  match broadcast_dim (np_rows a) (np_rows b),
        broadcast_dim (np_cols a) (np_cols b) with
  | Some r, Some c =>
      Ok (map (λ i,
            map (λ j,
              np_get a (bcast_index (np_rows a) i) (bcast_index (np_cols a) j)
              + np_get b (bcast_index (np_rows b) i) (bcast_index (np_cols b) j))
              (seq 0 c))
            (seq 0 r))
  | _, _ => Raise ValueError
  end.

(** ** utilities.ensure_audio_doesnt_clip *)

(** The first loop: [max_peak] is updated by every buffer whose peak is
    strictly larger. *)
Fixpoint scan_peaks (list_of_arrays : list ndarray) (max_peak : Q) : result Q :=
  match list_of_arrays with
  | [] => Ok max_peak
  | audio :: rest =>
      audio_peak ← np_max (np_abs audio);
      scan_peaks rest (if Qgtb audio_peak max_peak then audio_peak else max_peak)
  end.

Definition clip_warning : string :=
  "Warning: Audio has been attenuated to prevent clipping".

(** The result pairs what was printed with the returned list. *)
Definition ensure_audio_doesnt_clip (list_of_arrays : list ndarray)
  : result (list string * list ndarray) :=
  max_peak ← scan_peaks list_of_arrays 1;
  if Qgeb max_peak 1 then
    let gain := 0.999 / max_peak in
    Ok ([clip_warning], map (λ audio, np_scale audio gain) list_of_arrays)
  else
    Ok ([], list_of_arrays).

(** The peak of a batch in the words of the prose: the largest [|sample|]
    over all buffers, each buffer contributing its own largest [|sample|].
    It is undefined when there is no buffer or a buffer has no sample. *)
Definition buffer_peak (audio : ndarray) : option Q :=
  match concat audio with
  | [] => None
  | x :: xs => Some (fold_left Qmax (map Qabs xs) (Qabs x))
  end.

Fixpoint batch_peak (buffers : list ndarray) : option Q :=
  match buffers with
  | [] => None
  | [audio] => buffer_peak audio
  | audio :: rest =>
      match buffer_peak audio, batch_peak rest with
      | Some p, Some q => Some (Qmax p q)
      | _, _ => None
      end
  end.

Definition all_samples (buffers : list ndarray) : list Q :=
  concat (concat buffers).

(** ** Waves, spectrograms and the store *)

(** [untwist.data.audio.Wave]: a 2-D array of shape
    (num_frames, num_channels) with a sample rate attribute. *)
Record Wave : Type := mkWave {
  samples : ndarray;
  sample_rate : option Z
}.

Definition num_frames (w : Wave) : nat := np_rows (samples w).

(** The first [n] samples of a Wave, [w[:n]]. *)
Definition wave_take (w : Wave) (n : nat) : Wave :=
  mkWave (take n (samples w)) (sample_rate w).

Definition complex : Type := Q * Q.
Definition czero : complex := (0, 0).

(** [untwist.data.audio.Spectrogram]: a 3-D complex array indexed by
    (frequency bin, time frame, channel), with the sample rate it was
    computed at. *)
Record Spectrogram : Type := mkSpectrogram {
  cells : list (list (list complex));
  spec_rate : option Z
}.

Definition spec_bins (x : Spectrogram) : nat := length (cells x).
Definition spec_frames (x : Spectrogram) : nat := length (hd [] (cells x)).
Definition spec_channels (x : Spectrogram) : nat :=
  length (hd [] (hd [] (cells x))).
Definition spec_size (x : Spectrogram) : nat :=
  (spec_bins x * spec_frames x * spec_channels x)%nat.

Definition cell (x : Spectrogram) (f t c : nat) : option complex :=
  match cells x !! f with
  | Some row =>
      match row !! t with
      | Some chans => chans !! c
      | None => None
      end
  | None => None
  end.

(** A transform processor as [transforms.STFT(window, fft_size, hop_size)]
    configures it. *)
Record Processor : Type := mkProcessor {
  window : string;
  fft_size : Z;
  hop_size : Z
}.

Definition loc : Type := nat.
Definition rng_state : Type := N.

(** What a run does that an observer could order in time. *)
Inductive event : Type :=
| EvSTFT                         (* a forward transform was computed *)
| EvISTFT                        (* an inverse transform was computed *)
| EvChoice (population : nat) (size : Z)  (* np.random.choice was called *)
| EvAdd.                         (* two buffers were added *)

Record world : Type := mkWorld {
  heap : list Wave;
  rng : rng_state;
  trace : list event
}.

(** The services of numpy and untwist that the program calls. *)
Class Collaborators : Type := {
  (* the draw of np.random.choice(population, size, replace=False) once its
     arguments have been accepted *)
  choice_draw : rng_state → nat → nat → list nat * rng_state;
  (* STFT.process and ISTFT.process *)
  stft_process : Processor → Wave → Spectrogram;
  istft_process : Processor → Spectrogram → Wave;
  (* the loudness meter behind the getter of Wave.loudness *)
  measure : Wave → Q;
  (* the linear gain that takes a measured loudness to a requested one *)
  loudness_gain : Q → Q → Q
}.

(** The contract of sampling without replacement. *)
Definition sampler_ok `{Collaborators} : Prop :=
  ∀ g population size, (size ≤ population)%nat →
    let idx := (choice_draw g population size).1 in
    NoDup idx ∧ length idx = size ∧ Forall (λ i, (i < population)%nat) idx.

(** ** A state and exception monad over the world *)

Definition M (A : Type) : Type := world → result A * world.

#[global] Instance M_ret : MRet M := λ A a σ, (Ok a, σ).
#[global] Instance M_bind : MBind M :=
  λ A B f m σ,
    match m σ with
    | (Ok a, σ') => f a σ'
    | (Raise e, σ') => (Raise e, σ')
    end.

Definition raise {A} (e : exn) : M A := λ σ, (Raise e, σ).

Definition log (e : event) : M unit :=
  λ σ, (Ok tt, mkWorld (heap σ) (rng σ) (trace σ ++ [e])).

Definition alloc (w : Wave) : M loc :=
  λ σ, (Ok (length (heap σ)), mkWorld (heap σ ++ [w]) (rng σ) (trace σ)).

Definition load (l : loc) : M Wave :=
  λ σ, match heap σ !! l with
       | Some w => (Ok w, σ)
       | None => (Raise BadReference, σ)
       end.

Definition store (l : loc) (w : Wave) : M unit :=
  λ σ, (Ok tt, mkWorld (<[l := w]> (heap σ)) (rng σ) (trace σ)).

Definition lift {A} (r : result A) : M A := λ σ, (r, σ).

(** An argument that may be a raw array or a Wave object. *)
Inductive pyarg : Type :=
| Ndarray (a : ndarray)
| WaveObj (l : loc).

(** The Wave an argument stands for: the object it refers to, or the Wave
    that [Wave(array, sample_rate)] makes of a raw array. *)
Definition arg_wave (σ : world) (x : pyarg) (rate : option Z) : option Wave :=
  match x with
  | Ndarray a => Some (mkWave a rate)
  | WaveObj l => heap σ !! l
  end.

(** [others]: a list of sources or a single accompaniment. *)
Inductive others_arg : Type :=
| OthersList (others : list pyarg)
| OthersSingle (others : pyarg).

(** Modelled from the spec: [untwist.utilities.conversion.nearest_bin] is not
    part of the sources. The prose gives the bin of a frequency as
    [round(freq / sample_rate * num_points)], the nearest bin index. *)
Definition nearest_bin (freq : Q) (num_points : Z) (sample_rate : Z) : Z :=
  py_round (freq / inject_Z sample_rate * inject_Z num_points).

(** The first index touched by the slice [cutoff:] on an axis of [n]
    entries: a negative start counts from the end, and both ends clamp. *)
Definition slice_start (cutoff : Z) (n : nat) : nat :=
  if (cutoff <? 0)%Z then Z.to_nat (Z.max 0 (cutoff + Z.of_nat n))
  else Z.to_nat (Z.min cutoff (Z.of_nat n)).

(** ** The spectral operators of anchors.py *)

Definition zero_frame (chans : list complex) : list complex :=
  map (λ _, czero) chans.

(** [x_fft[:, idx] = 0] *)
Definition zero_frames (idx : list nat) (x_fft : Spectrogram) : Spectrogram :=
  mkSpectrogram
    (map (λ row, foldr (λ t r, alter zero_frame t r) row idx) (cells x_fft))
    (spec_rate x_fft).

(** [x_fft[cutoff:] = 0] *)
Definition zero_bins_from (cutoff : Z) (x_fft : Spectrogram) : Spectrogram :=
  let start := slice_start cutoff (spec_bins x_fft) in
  mkSpectrogram
    (take start (cells x_fft) ++ map (map zero_frame) (drop start (cells x_fft)))
    (spec_rate x_fft).

(** [np.unravel_index(i, shape)] for a shape (bins, frames, channels). *)
Definition unravel_index (i frames channels : nat) : nat * nat * nat :=
  (i / (frames * channels), (i / channels) mod frames, i mod channels)%nat.

(** [x_fft[freq, time, channel] = 0] for the unravelled flat indices. *)
Definition zero_cells (idx : list nat) (x_fft : Spectrogram) : Spectrogram :=
  let frames := spec_frames x_fft in
  let channels := spec_channels x_fft in
  mkSpectrogram
    (foldr (λ i cs,
        let '(f, t, c) := unravel_index i frames channels in
        alter (alter (λ chans, <[c := czero]> chans) t) f cs)
      (cells x_fft) idx)
    (spec_rate x_fft).

(** ** Monadic loops *)

Fixpoint mapM {A B} (f : A → M B) (xs : list A) : M (list B) :=
  match xs with
  | [] => mret []
  | x :: rest => y ← f x; ys ← mapM f rest; mret (y :: ys)
  end.

Fixpoint forM_ {A} (xs : list A) (f : A → M unit) : M unit :=
  match xs with
  | [] => mret tt
  | x :: rest => f x;; forM_ rest f
  end.

Fixpoint foldlM {A B} (f : A → B → M A) (acc : A) (xs : list B) : M A :=
  match xs with
  | [] => mret acc
  | x :: rest => acc' ← f acc x; foldlM f acc' rest
  end.

Section Pipelines.
Context `{Collaborators}.

(** *** Wave objects *)

(** [Wave(data, sample_rate)]: a new Wave object. *)
Definition Wave_new (x : pyarg) (rate : option Z) : M loc :=
  match x with
  | Ndarray a => alloc (mkWave a rate)
  | WaveObj l => w ← load l; alloc (mkWave (samples w) rate)
  end.

(** [if not isinstance(x, Wave): x = Wave(x, sample_rate)] *)
Definition as_wave (x : pyarg) (rate : option Z) : M loc :=
  match x with
  | WaveObj l => mret l
  | Ndarray _ => Wave_new x rate
  end.

(** Modelled from the spec: the property [Wave.loudness] of untwist is not
    part of the sources. Reading it measures the buffer with the external
    meter. *)
Definition loudness_get (l : loc) : M Q :=
  w ← load l; mret (measure w).

(** Modelled from the spec: assigning [w.loudness = value] rescales the
    object [w] in place by the gain that takes its measured loudness to
    [value]. *)
Definition rescaled (w : Wave) (value : Q) : Wave :=
  mkWave (np_scale (samples w) (loudness_gain (measure w) value))
         (sample_rate w).

Definition loudness_set (l : loc) (value : Q) : M unit :=
  w ← load l; store l (rescaled w value).

(** [x.loudness] on an argument: a raw array has no such attribute. *)
Definition attr_loudness (x : pyarg) : M Q :=
  match x with
  | WaveObj l => loudness_get l
  | Ndarray _ => raise AttributeError
  end.

(** [w + y] for a Wave [w]: a new Wave with the sample rate of [w]. *)
Definition wave_plus (l : loc) (y : pyarg) : M loc :=
  w ← load l;
  b ← match y with
      | Ndarray b => mret b
      | WaveObj l' => w' ← load l'; mret (samples w')
      end;
  log EvAdd;;
  r ← lift (np_add (samples w) b);
  alloc (mkWave r (sample_rate w)).

(** [sum([first] + rest)] when [first] is a Wave: [0 + first], then the
    other items are added from the left. *)
Definition py_sum (first : loc) (rest : list pyarg) : M loc :=
  w ← load first;
  acc ← alloc (mkWave (np_radd0 (samples w)) (sample_rate w));
  foldlM wave_plus acc rest.

(** [w[:n]]: the slice is a view of [w]; every sliced object of the
    program is a temporary that is not used again, so the view is stored
    as an object of its own. *)
Definition py_slice_to (l : loc) (n : nat) : M loc :=
  w ← load l; alloc (wave_take w n).

(** *** utilities.py *)

(** With a list, the first item decides whether every item is converted
    with [Wave(_, sample_rate)], so the item the sum starts from is a Wave
    either way; a single [others] that is a Wave is returned as it is, the
    same object. *)
Definition target_accompaniment
    (target : pyarg) (others : others_arg) (rate : option Z)
  : M (loc * loc) :=
  accompaniment ←
    match others with
    | OthersList others =>
        match others with
        | [] => raise IndexError          (* others[0] *)
        | WaveObj first :: rest => py_sum first rest
        | Ndarray a :: rest =>
            first ← Wave_new (Ndarray a) rate;
            rest' ← mapM (λ x, Wave_new x rate) rest;
            py_sum first (map WaveObj rest')
        end
    | OthersSingle others => as_wave others rate
    end;
  target ← as_wave target rate;
  mret (target, accompaniment).

Definition stft_istft (num_points : Z) (window : string)
  : Processor * Processor :=
  (mkProcessor window num_points (num_points `div` 2),
   mkProcessor window num_points (num_points `div` 2)).

(** *** numpy.random.choice(population, size, replace=False) *)

(** numpy itself refuses a negative size and a size larger than the
    population with a [ValueError]; otherwise it draws without replacement
    and advances the global generator. The call is logged before numpy
    looks at its arguments. *)
Definition np_random_choice (population : nat) (size : Z) : M (list nat) :=
  log (EvChoice population size);;
  if ((size <? 0) || (Z.of_nat population <? size))%Z then raise ValueError
  else λ σ,
    let '(idx, g) := choice_draw (rng σ) population (Z.to_nat size) in
    (Ok idx, mkWorld (heap σ) g (trace σ)).

(** *** anchors.py *)

Definition stft_run (stft : Processor) (target : loc) : M Spectrogram :=
  w ← load target; log EvSTFT;; mret (stft_process stft w).

Definition istft_run (istft : Processor) (x_fft : Spectrogram) : M loc :=
  log EvISTFT;; alloc (istft_process istft x_fft).

(** The block guarded by [if distortion_factor is not None] in
    [distorted_target]. *)
Definition frame_dropout (x_fft : Spectrogram) (distortion_factor : option Q)
  : M Spectrogram :=
  match distortion_factor with
  | None => mret x_fft
  | Some factor =>
      num_frames_to_remove ← lift (dropout_count (spec_frames x_fft) factor);
      idx ← np_random_choice (spec_frames x_fft) num_frames_to_remove;
      mret (zero_frames idx x_fft)
  end.

(** The unguarded dropout of [musical_noise]; [x_fft.size * None] is a
    [TypeError]. *)
Definition bin_dropout (x_fft : Spectrogram) (distortion_factor : option Q)
  : M Spectrogram :=
  match distortion_factor with
  | None => raise TypeError
  | Some factor =>
      size ← lift (dropout_count (spec_size x_fft) factor);
      idx ← np_random_choice (spec_size x_fft) size;
      mret (zero_cells idx x_fft)
  end.

(** The block guarded by [if lowpass_cutoff is not None]. *)
Definition lowpass_mask (x_fft : Spectrogram) (lowpass_cutoff : option Q)
    (num_points : Z) (rate : option Z) : M Spectrogram :=
  match lowpass_cutoff with
  | None => mret x_fft
  | Some freq =>
      match rate with
      | None => raise TypeError
      | Some sr => mret (zero_bins_from (nearest_bin freq num_points sr) x_fft)
      end
  end.

Definition distorted_target
    (target : pyarg) (distortion_factor lowpass_cutoff : option Q)
    (num_points : Z) (window_type : string) (rate : option Z) : M loc :=
  target ← as_wave target rate;
  let '(stft, istft) := stft_istft num_points window_type in
  x_fft ← stft_run stft target;
  x_fft ← frame_dropout x_fft distortion_factor;
  tw ← load target;
  x_fft ← lowpass_mask x_fft lowpass_cutoff num_points (sample_rate tw);
  y ← istft_run istft x_fft;
  distorted_target_anchor ← py_slice_to y (num_frames tw);
  value ← loudness_get target;
  loudness_set distorted_target_anchor value;;
  mret distorted_target_anchor.

(** The steps of [distorted_target] after the masks. *)
Definition finish_distorted_target (istft : Processor) (target : loc)
    (tw : Wave) (x_fft : Spectrogram) : M loc :=
  y ← istft_run istft x_fft;
  distorted_target_anchor ← py_slice_to y (num_frames tw);
  value ← loudness_get target;
  loudness_set distorted_target_anchor value;;
  mret distorted_target_anchor.

Definition musical_noise
    (target : pyarg) (distortion_factor lowpass_cutoff : option Q)
    (num_points : Z) (window_type : string) (rate : option Z) : M loc :=
  target ← as_wave target rate;
  let '(stft, istft) := stft_istft num_points window_type in
  x_fft ← stft_run stft target;
  x_fft ← bin_dropout x_fft distortion_factor;
  tw ← load target;
  x_fft ← lowpass_mask x_fft lowpass_cutoff num_points (sample_rate tw);
  artefacts ← istft_run istft x_fft;
  py_slice_to artefacts (num_frames tw).

Definition artefacts
    (target : pyarg) (distortion_factor lowpass_cutoff : option Q)
    (num_points : Z) (window_type : string) (rate : option Z) : M loc :=
  artefacts ← musical_noise target distortion_factor lowpass_cutoff
                num_points window_type rate;
  value ← attr_loudness target;
  loudness_set artefacts value;;
  artefacts_anchor ← wave_plus artefacts target;
  value ← attr_loudness target;
  loudness_set artefacts_anchor value;;
  mret artefacts_anchor.

Definition interference
    (target : pyarg) (others : others_arg) (relative_loudness : option Q)
    (rate : option Z) : M loc :=
  '(target, accompaniment) ← target_accompaniment target others rate;
  match relative_loudness with
  | Some r =>
      value ← loudness_get target;
      loudness_set accompaniment (value + r)
  | None => mret tt
  end;;
  interference_anchor ← wave_plus target (WaveObj accompaniment);
  value ← loudness_get target;
  loudness_set interference_anchor value;;
  mret interference_anchor.

Definition overall_quality
    (target : pyarg) (others : others_arg)
    (distortion_factor_target distortion_factor_noise : option Q)
    (lowpass_cutoff_target lowpass_cutoff_noise : option Q)
    (relative_loudness : option Q)
    (num_points : Z) (window_type : string) (rate : option Z) : M loc :=
  '(target, accompaniment) ← target_accompaniment target others rate;
  dt ← distorted_target (WaveObj target) distortion_factor_target
         lowpass_cutoff_target num_points window_type rate;
  mn ← musical_noise (WaveObj target) distortion_factor_noise
         lowpass_cutoff_noise num_points window_type rate;
  let signals_to_sum := [dt; mn; accompaniment] in
  forM_ signals_to_sum (λ signal, loudness_set signal (-23));;
  match relative_loudness with
  | Some r => loudness_set accompaniment (-23 + r)
  | None => raise TypeError             (* -23 + None *)
  end;;
  total ← py_sum dt [WaveObj mn; WaveObj accompaniment];
  tw ← load target;
  overall_quality_anchor ← py_slice_to total (num_frames tw);
  value ← loudness_get target;
  loudness_set overall_quality_anchor value;;
  mret overall_quality_anchor.

Definition target_sound_quality
    (target : pyarg)
    (distortion_factor_target distortion_factor_noise : option Q)
    (lowpass_cutoff_target lowpass_cutoff_noise : option Q)
    (num_points : Z) (window_type : string) (rate : option Z) : M loc :=
  target ← as_wave target rate;
  dt ← distorted_target (WaveObj target) distortion_factor_target
         lowpass_cutoff_target num_points window_type rate;
  mn ← musical_noise (WaveObj target) distortion_factor_noise
         lowpass_cutoff_noise num_points window_type rate;
  let signals_to_sum := [dt; mn] in
  forM_ signals_to_sum (λ signal, loudness_set signal (-23));;
  total ← py_sum dt [WaveObj mn];
  tw ← load target;
  target_sound_quality_anchor ← py_slice_to total (num_frames tw);
  value ← loudness_get target;
  loudness_set target_sound_quality_anchor value;;
  mret target_sound_quality_anchor.

End Pipelines.

(** ** Executable stand-ins for the collaborators

    A test double of the external services, used to run the pipelines on
    concrete inputs. The forward transform makes one frame of every sample
    and repeats it in each of [fft_size / 2 + 1] bins; the inverse reads bin
    0 back and pads with [hop_size] silent samples. The meter adds up
    [|sample|], and the gain is the ratio of requested to measured value.
    The sampler returns the last [size] indices, highest first. *)
Module Double.

Definition stft (p : Processor) (w : Wave) : Spectrogram :=
  mkSpectrogram
    (replicate (S (Z.to_nat (fft_size p `div` 2)))
               (map (map (λ s, (s, 0))) (samples w)))
    (sample_rate w).

Definition istft (p : Processor) (x : Spectrogram) : Wave :=
  mkWave
    (map (map fst) (hd [] (cells x))
     ++ replicate (Z.to_nat (hop_size p)) (replicate (spec_channels x) 0))
    (spec_rate x).

Definition meter (w : Wave) : Q :=
  fold_left Qplus (map Qabs (concat (samples w))) 0.

Definition gain (measured value : Q) : Q :=
  if Qeq_bool measured 0 then 1 else Qred (value / measured).

Definition draw (g : rng_state) (population size : nat)
  : list nat * rng_state :=
  (reverse (seq (population - size) size), N.succ g).

#[global] Instance collaborators : Collaborators := {|
  choice_draw := draw;
  stft_process := stft;
  istft_process := istft;
  measure := meter;
  loudness_gain := gain
|}.

(** A store with two Wave objects: a stereo target at 44.1 kHz (location
    0) and a mono accompaniment at 48 kHz (location 1). *)
Definition stereo : Wave :=
  mkWave [[1 # 2; 1 # 4]; [-(1 # 4); 1 # 8]; [1 # 8; 0]; [1 # 2; 1 # 2]]
         (Some 44100%Z).
Definition mono : Wave :=
  mkWave [[1 # 8]; [1 # 4]; [-(1 # 8)]; [1 # 16]] (Some 48000%Z).
Definition studio : world := mkWorld [stereo; mono] 0%N [].

(** A store with a one-sample target (location 0) and a three-sample
    accompaniment (location 1). *)
Definition blip : Wave := mkWave [[1 # 2]] (Some 44100%Z).
Definition riff : Wave := mkWave [[1 # 8]; [1 # 4]; [1 # 8]] (Some 44100%Z).
Definition booth : world := mkWorld [blip; riff] 0%N [].

(** A spectrogram of 2 bins, 7 frames and 1 channel without a zero cell. *)
Definition seven_frames : Spectrogram :=
  mkSpectrogram (replicate 2 (replicate 7 [(1, 1)])) (Some 44100%Z).

(** One of 2 bins, 50 frames and 1 channel. *)
Definition fifty_frames : Spectrogram :=
  mkSpectrogram (replicate 2 (replicate 50 [(1, 1)])) (Some 44100%Z).

End Double.

(** ** Vocabulary of the statements *)

Definition is_czero (z : complex) : bool :=
  Qeq_bool z.1 0 && Qeq_bool z.2 0.

Definition frame_is_zero (x : Spectrogram) (t : nat) : bool :=
  forallb (λ row, forallb is_czero (nth t row [])) (cells x).

(** The frames of a spectrogram whose cells are all zero, in every bin and
    channel. *)
Definition zeroed_frames (x : Spectrogram) : list nat :=
  filter (λ t, frame_is_zero x t = true) (seq 0 (spec_frames x)).

(** The layout of a spectrogram: the number of channels of every frame of
    every bin. *)
Definition layout (x : Spectrogram) : list (list nat) :=
  map (map length) (cells x).

(** The world after some more events. *)
Definition logged (σ : world) (events : list event) : world :=
  mkWorld (heap σ) (rng σ) (trace σ ++ events).

(** The store [σ'] holds every object of [σ], unchanged. *)
Definition keeps (σ σ' : world) : Prop :=
  ∀ l w, heap σ !! l = Some w → heap σ' !! l = Some w.

(** Every object of the store [h0] is in [σ], unchanged. *)
Definition keeps_heap (h0 : list Wave) (σ : world) : Prop :=
  ∀ l w, h0 !! l = Some w → heap σ !! l = Some w.

(** A location that [h0] does not have: an object made after [h0]. *)
Definition fresh (h0 : list Wave) (l : loc) : Prop := (length h0 ≤ l)%nat.

(** The trivial condition on a result. *)
Definition any {A} (_ : A) : Prop := True.

(** A computation that, run from any store that keeps [h0], ends in a store
    that keeps [h0], whether it returns or raises, and whose result
    satisfies [Q]. *)
Definition safe (h0 : list Wave) {A} (m : M A) (Q : A → Prop) : Prop :=
  ∀ σ, keeps_heap h0 σ →
    keeps_heap h0 (m σ).2 ∧ ∀ a, (m σ).1 = Ok a → Q a.

(** The object at [l] has [n] samples. *)
Definition rows_at (σ : world) (l : loc) (n : nat) : Prop :=
  ∃ w, heap σ !! l = Some w ∧ num_frames w = n.

(** Every object of [σ] is still in [σ'] with the same number of samples. *)
Definition extends (σ σ' : world) : Prop :=
  ∀ l n, rows_at σ l n → rows_at σ' l n.

(** The number of samples of an argument. *)
Definition arg_rows (σ : world) (x : pyarg) : option nat :=
  match x with
  | Ndarray a => Some (np_rows a)
  | WaveObj l => num_frames <$> heap σ !! l
  end.

(** Every buffer of [others] has [n] samples. *)
Definition others_rows (σ : world) (others : others_arg) (n : nat) : Prop :=
  match others with
  | OthersList others => Forall (λ y, arg_rows σ y = Some n) others
  | OthersSingle y => arg_rows σ y = Some n
  end.

(** Partial correctness of a run from [σ]. *)
Definition post {A} (m : M A) (σ : world) (Q : A → world → Prop) : Prop :=
  ∀ a σ', m σ = (Ok a, σ') → Q a σ'.

(** The inverse transform returns at least as many samples as the Wave whose
    spectrogram, or one of the same layout, it is given: frames are padded,
    never dropped. *)
Definition istft_covers `{Collaborators} : Prop :=
  ∀ (num_points : Z) (window_type : string) (w : Wave) (x : Spectrogram),
    layout x = layout (stft_process (stft_istft num_points window_type).1 w) →
    (num_frames w ≤ num_frames (istft_process (stft_istft num_points window_type).2 x))%nat.

(** Every run of [m] that raises [ValueError] does so right after an event
    that satisfies [P]. *)
Definition raised_after (P : event → Prop) {A} (m : M A) : Prop :=
  ∀ σ σ', m σ = (Raise ValueError, σ') → ∃ tr ev, trace σ' = tr ++ [ev] ∧ P ev.

(** The events a [ValueError] can follow. *)
Definition is_add (ev : event) : Prop := ev = EvAdd.

Definition is_add_or_choice (ev : event) : Prop :=
  ev = EvAdd ∨ ∃ population size, ev = EvChoice population size.

(** Two arrays of the same shape. *)
Definition same_shape (a b : ndarray) : Prop :=
  np_rows a = np_rows b ∧ np_cols a = np_cols b.

(** ** Further vocabulary *)

(** A computation that returns from no world. *)
Definition never_returns {A} (m : M A) : Prop :=
  ∀ σ, is_ok (m σ).1 = false.

(** A computation that raises only exceptions that satisfy [P]. *)
Definition raises_only (P : exn → Prop) {A} (m : M A) : Prop :=
  ∀ σ e σ', m σ = (Raise e, σ') → P e.

(** The flat index of the cell (f, t, c) in a spectrogram of the given
    numbers of frames and channels, in row-major order. *)
Definition flat_index (frames channels f t c : nat) : nat :=
  ((f * frames + t) * channels + c)%nat.

(** Any exception but [IndexError]. *)
Definition not_index (e : exn) : Prop := e ≠ IndexError.

(** An array of the given numbers of rows and columns. *)
Definition has_shape (a : ndarray) (rows cols : nat) : Prop :=
  length a = rows ∧ Forall (λ row, length row = cols) a.

(** The samples an argument stands for. *)
Definition arg_samples (σ : world) (x : pyarg) : option ndarray :=
  match x with
  | Ndarray a => Some a
  | WaveObj l => samples <$> heap σ !! l
  end.

(** A computation that, run from any store that keeps [h0], returns only an
    object made after [h0] whose loudness was last set to that of [tw], in
    a store that still keeps [h0]. *)
Definition ends_matched `{Collaborators} (h0 : list Wave) (tw : Wave)
    (m : M loc) : Prop :=
  ∀ σ, keeps_heap h0 σ → ∀ anchor σ', m σ = (Ok anchor, σ') →
    keeps_heap h0 σ' ∧ fresh h0 anchor ∧
    ∃ x, heap σ' !! anchor = Some (rescaled x (measure tw)).

(** [sum] on the arrays themselves: [0 + first], then the other arrays
    are added from the left; the first failed addition is the outcome. *)
Definition py_sum_arrays (first : ndarray) (rest : list ndarray)
  : result ndarray :=
  fold_left (λ total b, a ← total; np_add a b) rest (Ok (np_radd0 first)).

(** The location [l] holds an object in [σ]. *)
Definition allocated (l : loc) (σ : world) : Prop := is_Some (heap σ !! l).

(** ** cli.py: the command-line program *)

(** What [parser.parse_args()] hands back: [--target] and [--others] are
    [None] when absent, the six switches are [False] when absent. *)
Record Namespace : Type := mkNamespace {
  args_target : option string;
  args_others : option (list string);
  args_distorted_target : bool;
  args_artefacts : bool;
  args_interference : bool;
  args_overall_quality : bool;
  args_target_sound_quality : bool;
  args_all : bool
}.

(** The services of the host that the program calls but does not define:
    [Wave.read] of untwist, which returns the Wave of a file or raises, and
    [os.path.splitext]. *)
Class Host : Type := {
  Wave_read : option string → result Wave;
  os_path_splitext : string → string * string
}.

(** The state of a run of the program: the world of the anchors, the lines
    printed so far and the files written so far. *)
Record session : Type := mkSession {
  machine : world;
  console : list string;
  disk : list (string * Wave)
}.

Definition S (A : Type) : Type := session → result A * session.

#[global] Instance S_ret : MRet S := λ A a s, (Ok a, s).
#[global] Instance S_bind : MBind S :=
  λ A B f m s,
    match m s with
    | (Ok a, s') => f a s'
    | (Raise e, s') => (Raise e, s')
    end.

Definition S_raise {A} (e : exn) : S A := λ s, (Raise e, s).

Definition print (line : string) : S unit :=
  λ s, (Ok tt, mkSession (machine s) (console s ++ [line]) (disk s)).

(** A call into anchors.py or utilities.py. *)
Definition in_world {A} (m : M A) : S A :=
  λ s, let '(r, σ) := m (machine s) in (r, mkSession σ (console s) (disk s)).

(** [anchor.write(name)]; writing is taken to succeed. *)
Definition write_file (name : string) (w : Wave) : S unit :=
  λ s, (Ok tt, mkSession (machine s) (console s) (disk s ++ [(name, w)])).

Fixpoint mapS {A B} (f : A → S B) (xs : list A) : S (list B) :=
  match xs with
  | [] => mret []
  | x :: rest => y ← f x; ys ← mapS f rest; mret (y :: ys)
  end.

Fixpoint forS_ {A} (xs : list A) (f : A → S unit) : S unit :=
  match xs with
  | [] => mret tt
  | x :: rest => f x;; forS_ rest f
  end.

Definition no_interference_message : string :=
  "Cannot create interference anchor as no other sources provided".

Definition no_overall_quality_message : string :=
  "Cannot create overall quality anchor as no other sources provided".

(** [if others:] is true for a non-empty list, and false for [False] and
    for the empty list. *)
Definition truthy (others : option (list loc)) : bool :=
  match others with
  | Some (_ :: _) => true
  | _ => false
  end.

Definition anchor_file (filename file_extension key : string) : string :=
  (filename ++ "_" ++ key ++ "_anchor" ++ file_extension)%string.

Section Program.
Context `{Collaborators} `{Host}.

(** [Wave.read(path)]: a new Wave object. *)
Definition read_wave (path : option string) : S loc :=
  match Wave_read path with
  | Ok w => in_world (alloc w)
  | Raise e => S_raise e
  end.

(** [ensure_audio_doesnt_clip(anchors)] on Wave objects: the peaks are taken
    over the samples, and [audio * gain] is a Wave of the sample rate of
    [audio]. The scaled Waves are temporaries that only the writing loop
    uses, so they are passed on as values. *)
Definition guard_anchors (anchors : list loc) : S (list Wave) :=
  waves ← in_world (mapM load anchors);
  match ensure_audio_doesnt_clip (map samples waves) with
  | Raise e => S_raise e
  | Ok (printed, arrays) =>
      forS_ printed print;;
      mret (zip_with (λ w a, mkWave a (sample_rate w)) waves arrays)
  end.

(** One [if args.<switch> or args.all:] block of an anchor that needs the
    target only. *)
Definition single_source_anchor (wanted : bool) (key : string) (call : M loc)
    (anchors : list (string * loc)) : S (list (string * loc)) :=
  if wanted then
    anchor ← in_world call;
    mret (anchors ++ [(key, anchor)])
  else mret anchors.

(** One [if args.<switch> or args.all:] block of an anchor that needs the
    other sources. *)
Definition multi_source_anchor (wanted : bool) (others : option (list loc))
    (key message : string) (call : others_arg → M loc)
    (anchors : list (string * loc)) : S (list (string * loc)) :=
  if wanted then
    if truthy others then
      anchor ← in_world (call (OthersList (map WaveObj (default [] others))));
      mret (anchors ++ [(key, anchor)])
    else
      print message;; mret anchors
  else mret anchors.

(** [ssanchors(argv)], from the parsed arguments on; the anchors are called
    with their default parameters. *)
Definition ssanchors (args : Namespace) : S unit :=
  target ← read_wave (args_target args);
  others ← match args_others args with
            | Some paths =>
                others ← mapS (λ path, read_wave (Some path)) paths;
                mret (Some others)
            | None => mret None
            end;
  let target := WaveObj target in
  anchors ← single_source_anchor
    (args_distorted_target args || args_all args) "distorted_target"
    (distorted_target target (Some 0.2) (Some 3500) 2048 "hann" None) [];
  anchors ← single_source_anchor
    (args_artefacts args || args_all args) "artefacts"
    (artefacts target (Some 0.99) None 2048 "hann" None) anchors;
  anchors ← single_source_anchor
    (args_target_sound_quality args || args_all args) "target_sound_quality"
    (target_sound_quality target (Some 0.2) (Some 0.99) (Some 3500)
       (Some 3500) 2048 "hann" None) anchors;
  anchors ← multi_source_anchor
    (args_interference args || args_all args) others "interference"
    no_interference_message
    (λ others, interference target others (Some 0) None) anchors;
  anchors ← multi_source_anchor
    (args_overall_quality args || args_all args) others "overall_quality"
    no_overall_quality_message
    (λ others, overall_quality target others None (Some 0.99) (Some 3500)
                 None (Some 0) 2048 "hann" None) anchors;
  scaled ← guard_anchors (map snd anchors);
  '(filename, file_extension) ←
    match args_target args with
    | Some path => mret (os_path_splitext path)
    | None => S_raise TypeError        (* os.path.splitext(None) *)
    end;
  forS_ (zip (map fst anchors) scaled)
    (λ '(key, anchor),
       write_file (anchor_file filename file_extension key) anchor).

End Program.

(** The keys of the anchors a run makes, in the order of the program. *)
Definition has_others (args : Namespace) : bool :=
  match args_others args with
  | Some (_ :: _) => true
  | _ => false
  end.

Definition selected (args : Namespace) : list string :=
  (if args_distorted_target args || args_all args
   then ["distorted_target"%string] else [])
  ++ (if args_artefacts args || args_all args
      then ["artefacts"%string] else [])
  ++ (if args_target_sound_quality args || args_all args
      then ["target_sound_quality"%string] else [])
  ++ (if (args_interference args || args_all args) && has_others args
      then ["interference"%string] else [])
  ++ (if (args_overall_quality args || args_all args) && has_others args
      then ["overall_quality"%string] else []).

(** The lines a run prints about anchors it cannot make. *)
Definition notices (args : Namespace) : list string :=
  (if (args_interference args || args_all args) && negb (has_others args)
   then [no_interference_message] else [])
  ++ (if (args_overall_quality args || args_all args)
         && negb (has_others args)
      then [no_overall_quality_message] else []).

(** A stand-in for the host: two files can be read, and the one path the
    runs below split has the extension [.wav]. *)
Module Desk.

Definition read (path : option string) : result Wave :=
  match path with
  | Some path =>
      if String.eqb path "vox.wav" then Ok Double.stereo
      else if String.eqb path "drums.wav" then Ok Double.mono
      else Raise ValueError
  | None => Raise TypeError
  end.

Definition split (path : string) : string * string :=
  if String.eqb path "vox.wav" then ("vox"%string, ".wav"%string)
  else (path, ""%string).

#[global] Instance host : Host := {|
  Wave_read := read;
  os_path_splitext := split
|}.

(** Before the program starts: no object, nothing printed, nothing
    written. *)
Definition idle : session := mkSession (mkWorld [] 0%N []) [] [].

End Desk.

(** A step of the program that writes no file. *)
Definition quiet {A} (m : S A) : Prop := ∀ s, disk (m s).2 = disk s.

(** A computation that has written no file whenever it raises. *)
Definition fails_before_writing {A} (m : S A) : Prop :=
  ∀ s e s', m s = (Raise e, s') → disk s' = disk s.

(** Partial correctness of a run of the program from [s]. *)
Definition spost {A} (m : S A) (s : session) (Q : A → session → Prop)
  : Prop :=
  ∀ a s', m s = (Ok a, s') → Q a s'.

(** Nothing printed and nothing written between [s] and [s']. *)
Definition same_io (s s' : session) : Prop :=
  console s' = console s ∧ disk s' = disk s.

(** * Properties *)

(** ** The clip guard *)

Lemma Qgtb_true (a b : Q) : Qgtb a b = true ↔ b < a.
Proof.
  unfold Qgtb. rewrite negb_true_iff, <- not_true_iff_false, Qle_bool_iff.
  split; [apply Qnot_le_lt | apply Qlt_not_le].
Qed.

Lemma Qgtb_false (a b : Q) : Qgtb a b = false ↔ a <= b.
Proof. unfold Qgtb. rewrite negb_false_iff. apply Qle_bool_iff. Qed.

Lemma update_peak_max (audio_peak max_peak : Q) :
  (if Qgtb audio_peak max_peak then audio_peak else max_peak)
  == Qmax max_peak audio_peak.
Proof.
  destruct (Qgtb audio_peak max_peak) eqn:E.
  - apply Qgtb_true in E. symmetry. apply Q.max_r. lra.
  - apply Qgtb_false in E. symmetry. now apply Q.max_l.
Qed.

Lemma concat_np_abs (audio : ndarray) :
  concat (np_abs audio) = map Qabs (concat audio).
Proof.
  unfold np_abs. induction audio as [|row rest IH]; simpl; [done|].
  now rewrite IH, map_app.
Qed.

Lemma np_max_abs_peak (audio : ndarray) :
  np_max (np_abs audio)
  = match buffer_peak audio with Some p => Ok p | None => Raise ValueError end.
Proof.
  unfold np_max, buffer_peak. rewrite concat_np_abs.
  now destruct (concat audio).
Qed.

Lemma fold_Qmax_ge (xs : list Q) (x : Q) : x <= fold_left Qmax xs x.
Proof.
  revert x. induction xs as [|y ys IH]; intros x; simpl; [lra|].
  eapply Qle_trans; [apply (Q.le_max_l x y) | apply IH].
Qed.

Lemma fold_Qmax_bound (xs : list Q) (x s : Q) :
  s ∈ xs → s <= fold_left Qmax xs x.
Proof.
  revert x. induction xs as [|y ys IH]; intros x Hin; [by inversion Hin|].
  simpl. apply elem_of_cons in Hin as [->|Hin].
  - eapply Qle_trans; [apply (Q.le_max_r x y) | apply fold_Qmax_ge].
  - now apply IH.
Qed.

Lemma buffer_peak_bound (audio : ndarray) (p s : Q) :
  buffer_peak audio = Some p → s ∈ concat audio → Qabs s <= p.
Proof.
  unfold buffer_peak. destruct (concat audio) as [|x xs]; [done|].
  intros [= <-] Hin. apply elem_of_cons in Hin as [->|Hin].
  - apply fold_Qmax_ge.
  - apply fold_Qmax_bound. now apply (list_elem_of_fmap_2 Qabs).
Qed.

Lemma batch_peak_cons (audio : ndarray) (rest : list ndarray) (p : Q) :
  batch_peak (audio :: rest) = Some p →
  ∃ p1, buffer_peak audio = Some p1 ∧
    (rest = [] ∧ p = p1 ∨ ∃ q, batch_peak rest = Some q ∧ p = Qmax p1 q).
Proof.
  simpl. destruct rest as [|b rest'].
  - intros Hp. exists p. split; [done|]. now left.
  - destruct (buffer_peak audio) as [p1|]; [|done].
    destruct (batch_peak (b :: rest')) as [q|]; [|done].
    intros [= <-]. exists p1. split; [done|]. right. now exists q.
Qed.

Lemma batch_peak_bound (buffers : list ndarray) (p s : Q) :
  batch_peak buffers = Some p → s ∈ all_samples buffers → Qabs s <= p.
Proof.
  unfold all_samples. revert p.
  induction buffers as [|audio rest IH]; intros p Hp Hin; [done|].
  apply batch_peak_cons in Hp as (p1 & Hp1 & Hrest).
  simpl in Hin. rewrite concat_app in Hin.
  apply elem_of_app in Hin as [Hin|Hin].
  - pose proof (buffer_peak_bound _ _ _ Hp1 Hin) as Hb.
    destruct Hrest as [[_ ->]|(q & _ & ->)]; [done|].
    eapply Qle_trans; [exact Hb | apply Q.le_max_l].
  - destruct Hrest as [[-> _]|(q & Hq & ->)]; [by inversion Hin|].
    eapply Qle_trans; [apply (IH q Hq Hin) | apply Q.le_max_r].
Qed.

(** The loop of the guard ends with the larger of its start value and the
    peak of the batch. *)
Lemma scan_peaks_max (buffers : list ndarray) (p : Q) :
  batch_peak buffers = Some p →
  ∀ start, ∃ max_peak,
    scan_peaks buffers start = Ok max_peak ∧ max_peak == Qmax start p.
Proof.
  revert p. induction buffers as [|audio rest IH]; intros p Hp start; [done|].
  apply batch_peak_cons in Hp as (p1 & Hp1 & Hrest).
  simpl. rewrite np_max_abs_peak, Hp1. simpl.
  destruct Hrest as [[-> ->]|(q & Hq & ->)].
  - simpl. eexists. split; [done|]. apply update_peak_max.
  - destruct (IH q Hq (if Qgtb p1 start then p1 else start))
      as (m & Hm & Hmq).
    exists m. split; [done|].
    rewrite Hmq, update_peak_max. symmetry. apply Q.max_assoc.
Qed.

Lemma all_samples_scaled (buffers : list ndarray) (gain : Q) :
  all_samples (map (λ audio, np_scale audio gain) buffers)
  = map (λ s, s * gain) (all_samples buffers).
Proof.
  unfold all_samples.
  change (map (λ audio, np_scale audio gain) buffers)
    with (map (map (map (λ s, s * gain))) buffers).
  now rewrite <- !concat_map.
Qed.

Lemma scaled_sample_bound (s p gain : Q) :
  Qabs s <= p → 1 <= p → gain == 0.999 / p → Qabs (s * gain) <= 0.999.
Proof.
  intros Hs Hp Hg.
  assert (0 < p) as Hp0 by lra.
  assert (0 <= 0.999 / p) as Hq by (apply Qle_shift_div_l; [done | lra]).
  rewrite Qabs_Qmult, Hg, (Qabs_pos _ Hq).
  apply Qle_trans with (p * (0.999 / p)); [now apply Qmult_le_compat_r|].
  apply Qle_lteq. right. field. lra.
Qed.

Lemma clip_guard_gain (buffers : list ndarray) (p : Q) :
  batch_peak buffers = Some p →
  ∃ gain, gain == 0.999 / Qmax 1 p ∧
    ensure_audio_doesnt_clip buffers
    = Ok ([clip_warning], map (λ audio, np_scale audio gain) buffers).
Proof.
  intros Hp. destruct (scan_peaks_max buffers p Hp 1) as (m & Hm & Hmp).
  unfold ensure_audio_doesnt_clip. rewrite Hm. simpl.
  assert (Qgeb m 1 = true) as ->.
  { apply Qle_bool_iff. rewrite Hmp. apply Q.le_max_l. }
  exists (0.999 / m). split; [now rewrite Hmp | done].
Qed.

(** A batch whose peak is below 1 is attenuated all the same: the loop
    starts from 1, so the branch that returns the list as it is cannot be
    taken. *)
Lemma clip_guard_quiet_batch (buffers : list ndarray) (p : Q) :
  batch_peak buffers = Some p → p < 1 →
  ∃ gain, gain == 0.999 ∧
    ensure_audio_doesnt_clip buffers
    = Ok ([clip_warning], map (λ audio, np_scale audio gain) buffers).
Proof.
  intros Hp Hlt. destruct (clip_guard_gain buffers p Hp) as (g & Hg & Hrun).
  exists g. split; [|done].
  rewrite Hg, (Q.max_l 1 p) by lra. field.
Qed.

(** C1 (evaluated on the code). The batch that holds the single sample 1/2
    has peak 1/2 < 1, yet the guard prints its warning and returns the
    sample scaled by 0.999 / 1, which differs from 1/2. *)
Theorem clip_guard_attenuates_quiet_batch :
  batch_peak [[[1 # 2]]] = Some (1 # 2) ∧ 1 # 2 < 1 ∧
  ensure_audio_doesnt_clip [[[1 # 2]]]
  = Ok ([clip_warning], [[[(1 # 2) * (0.999 / 1)]]]) ∧
  ¬ (1 # 2) * (0.999 / 1) == 1 # 2.
Proof.
  split; [reflexivity|]. split; [reflexivity|]. split; [reflexivity|].
  intros Heq. vm_compute in Heq. discriminate Heq.
Qed.

(** C2. When the peak [p] of the batch is at least 1, the guard prints its
    warning and returns the batch with every sample of every buffer
    multiplied by one and the same positive gain, equal to 0.999 / p:
    buffers, rows and columns keep their places, the ratio of any two
    samples is the ratio they had in the input, and no sample of the result
    exceeds 0.999 in magnitude (the program's floats add their rounding to
    that bound). *)
Theorem clip_guard_scales_loud_batch (buffers : list ndarray) (p : Q) :
  batch_peak buffers = Some p → 1 <= p →
  ∃ gain scaled,
    gain == 0.999 / p ∧ 0 < gain ∧
    ensure_audio_doesnt_clip buffers = Ok ([clip_warning], scaled) ∧
    scaled = map (map (map (λ s, s * gain))) buffers ∧
    (∀ audio row s,
       audio ∈ scaled → row ∈ audio → s ∈ row → Qabs s <= 0.999) ∧
    (∀ s1 s2, ¬ s2 == 0 → (s1 * gain) / (s2 * gain) == s1 / s2).
Proof.
  intros Hp Hge. destruct (clip_guard_gain buffers p Hp) as (g & Hg & Hrun).
  assert (g == 0.999 / p) as Hgp by (now rewrite Hg, (Q.max_r 1 p)).
  assert (0 < g) as Hpos.
  { rewrite Hgp. apply Qlt_shift_div_l; lra. }
  exists g, (map (map (map (λ s, s * g))) buffers).
  split; [done|]. split; [done|]. split; [exact Hrun|]. split; [done|]. split.
  - intros audio row s Haudio Hrow Hs.
    assert (s ∈ all_samples (map (λ audio, np_scale audio g) buffers))
      as Hin.
    { unfold all_samples. apply list_elem_of_In, in_concat.
      exists row. split; [|now apply list_elem_of_In].
      apply in_concat. exists audio.
      split; now apply list_elem_of_In. }
    rewrite all_samples_scaled in Hin.
    apply list_elem_of_fmap_1 in Hin as (s0 & -> & Hs0).
    apply scaled_sample_bound with p; [|done..].
    now apply batch_peak_bound with buffers.
  - intros s1 s2 Hs2. field. split; [done | lra].
Qed.

Lemma clip_guard_scales_loud_batch_witness :
  ∃ gain scaled,
    gain == 0.999 / 2 ∧ 0 < gain ∧
    ensure_audio_doesnt_clip [[[2; -1]; [1 # 2; 1]]; [[1 # 4]]]
    = Ok ([clip_warning], scaled) ∧
    scaled
    = [[[2 * gain; -1 * gain]; [(1 # 2) * gain; 1 * gain]];
       [[(1 # 4) * gain]]] ∧
    (∀ audio row s,
       audio ∈ scaled → row ∈ audio → s ∈ row → Qabs s <= 0.999) ∧
    (∀ s1 s2, ¬ s2 == 0 → (s1 * gain) / (s2 * gain) == s1 / s2).
Proof.
  apply (clip_guard_scales_loud_batch [[[2; -1]; [1 # 2; 1]]; [[1 # 4]]] 2).
  - reflexivity.
  - vm_compute. discriminate.
Defined.

(** ** Running monadic code *)

Lemma bind_run {A B} (m : M A) (k : A → M B) (σ : world) :
  (m ≫= k) σ
  = match m σ with
    | (Ok a, σ') => k a σ'
    | (Raise e, σ') => (Raise e, σ')
    end.
Proof. reflexivity. Qed.

Lemma bind_ok {A B} (m : M A) (k : A → M B) (σ σ' : world) (a : A) :
  m σ = (Ok a, σ') → (m ≫= k) σ = k a σ'.
Proof. intros Hm. now rewrite bind_run, Hm. Qed.

Lemma bind_raise {A B} (m : M A) (k : A → M B) (σ σ' : world) (e : exn) :
  m σ = (Raise e, σ') → (m ≫= k) σ = (Raise e, σ').
Proof. intros Hm. now rewrite bind_run, Hm. Qed.

Lemma bind_inv_ok {A B} (m : M A) (k : A → M B) (σ σ'' : world) (b : B) :
  (m ≫= k) σ = (Ok b, σ'') →
  ∃ a σ', m σ = (Ok a, σ') ∧ k a σ' = (Ok b, σ'').
Proof.
  rewrite bind_run. destruct (m σ) as [[a|e] σ']; [|done].
  intros Hk. now exists a, σ'.
Qed.

Lemma load_run (l : loc) (w : Wave) (σ : world) :
  heap σ !! l = Some w → load l σ = (Ok w, σ).
Proof. intros Hl. unfold load. now rewrite Hl. Qed.

Lemma lookup_map {A B} (f : A → B) (l : list A) (i : nat) :
  map f l !! i = f <$> l !! i.
Proof. exact (list_lookup_fmap f l i). Qed.

(** ** The spectral operators *)

Lemma zero_frame_idemp (chans : list complex) :
  zero_frame (zero_frame chans) = zero_frame chans.
Proof. unfold zero_frame. now rewrite map_map. Qed.

Lemma zero_frame_lookup (chans : list complex) (c : nat) :
  zero_frame chans !! c = (λ _, czero) <$> chans !! c.
Proof. apply lookup_map. Qed.

(** A row after [row[idx] = 0]. *)
Lemma zeroed_row_lookup (idx : list nat) (row : list (list complex)) (t : nat) :
  foldr (λ t r, alter zero_frame t r) row idx !! t
  = if decide (t ∈ idx) then zero_frame <$> row !! t else row !! t.
Proof.
  induction idx as [|i idx IH].
  - rewrite decide_False by apply not_elem_of_nil. done.
  - cbn [foldr]. rewrite list_lookup_alter.
    destruct (decide (i = t)) as [->|Hne]; rewrite IH.
    + rewrite (decide_True (P := t ∈ t :: idx)) by apply list_elem_of_here.
      destruct (decide (t ∈ idx)); [|done].
      destruct (row !! t); simpl; [|done]. now rewrite zero_frame_idemp.
    + destruct (decide (t ∈ idx)) as [Hin|Hin],
               (decide (t ∈ i :: idx)) as [Hin'|Hin']; try done.
      * exfalso. apply Hin'. now apply list_elem_of_further.
      * exfalso. apply elem_of_cons in Hin' as [->|Hin']; [done | auto].
Qed.

(** What [x_fft[:, idx] = 0] does to every cell. *)
Lemma cell_zero_frames (idx : list nat) (x : Spectrogram) (f t c : nat) :
  cell (zero_frames idx x) f t c
  = if decide (t ∈ idx) then (λ _, czero) <$> cell x f t c else cell x f t c.
Proof.
  unfold cell, zero_frames. simpl. rewrite lookup_map.
  destruct (cells x !! f) as [row|]; simpl; [|by case_decide].
  rewrite zeroed_row_lookup.
  case_decide; [|done].
  destruct (row !! t) as [chans|]; simpl; [|done].
  apply zero_frame_lookup.
Qed.

Lemma slice_start_le (cutoff : Z) (n : nat) : (slice_start cutoff n ≤ n)%nat.
Proof. unfold slice_start. destruct (cutoff <? 0)%Z eqn:E; lia. Qed.

(** What [x_fft[cutoff:] = 0] does to every cell. *)
Lemma cell_zero_bins_from (cutoff : Z) (x : Spectrogram) (f t c : nat) :
  cell (zero_bins_from cutoff x) f t c
  = if decide (slice_start cutoff (spec_bins x) ≤ f)%nat
    then (λ _, czero) <$> cell x f t c else cell x f t c.
Proof.
  unfold cell, zero_bins_from. simpl.
  pose proof (slice_start_le cutoff (spec_bins x)) as Hle.
  set (start := slice_start cutoff (spec_bins x)) in *.
  unfold spec_bins in Hle.
  case_decide as Hf.
  - rewrite lookup_app_r by (rewrite length_take; lia).
    rewrite length_take, Nat.min_l by done.
    rewrite lookup_map, lookup_drop.
    replace (start + (f - start))%nat with f by lia.
    destruct (cells x !! f) as [row|]; simpl; [|done].
    rewrite lookup_map.
    destruct (row !! t) as [chans|]; simpl; [|done].
    apply zero_frame_lookup.
  - rewrite lookup_app_l by (rewrite length_take; lia).
    rewrite lookup_take_lt by lia. done.
Qed.

Lemma map_alter_invariant {A B} (g : A → B) (h : A → A) (i : nat) (l : list A) :
  (∀ x, g (h x) = g x) → map g (alter h i l) = map g l.
Proof.
  intros Hgh. revert i. induction l as [|x l IH]; intros [|i]; simpl; try done.
  - now rewrite Hgh.
  - f_equal. apply IH.
Qed.

Lemma lengths_alter_zero_frame (i : nat) (row : list (list complex)) :
  map length (alter zero_frame i row) = map length row.
Proof.
  apply map_alter_invariant. intros chans.
  unfold zero_frame. apply length_map.
Qed.

Lemma layout_zero_frames (idx : list nat) (x : Spectrogram) :
  layout (zero_frames idx x) = layout x.
Proof.
  unfold layout, zero_frames. simpl. rewrite map_map.
  apply map_ext. intros row.
  induction idx as [|i idx IH]; [done|].
  cbn [foldr]. now rewrite lengths_alter_zero_frame.
Qed.

Lemma layout_zero_cells (idx : list nat) (x : Spectrogram) :
  layout (zero_cells idx x) = layout x.
Proof.
  unfold layout, zero_cells. cbn [cells].
  induction idx as [|i idx IH]; [done|].
  cbn [foldr]. destruct (unravel_index _ _ _) as [[f t] c].
  rewrite map_alter_invariant; [exact IH|].
  intros row. apply map_alter_invariant. intros chans. apply length_insert.
Qed.

Lemma layout_zero_bins_from (cutoff : Z) (x : Spectrogram) :
  layout (zero_bins_from cutoff x) = layout x.
Proof.
  unfold layout, zero_bins_from. simpl.
  rewrite map_app, map_map.
  rewrite <- (take_drop (slice_start cutoff (spec_bins x)) (cells x)) at 3.
  rewrite map_app. f_equal. apply map_ext. intros row.
  rewrite map_map. apply map_ext. intros chans.
  unfold zero_frame. now rewrite length_map.
Qed.

(** ** Python's [int] and [round] *)

Lemma py_int_floor (x : Q) : 0 <= x → py_int x = Qfloor x.
Proof.
  destruct x as [n d]. unfold py_int, Qfloor, Qle. simpl. intros Hn.
  apply Z.quot_div_nonneg; lia.
Qed.

Lemma py_round_nearest (x : Q) :
  Qabs (x - inject_Z (py_round x)) <= 1 # 2.
Proof.
  unfold py_round.
  pose proof (Qfloor_le x) as Hlo. pose proof (Qlt_floor x) as Hhi.
  rewrite inject_Z_plus in Hhi. change (inject_Z 1) with 1 in Hhi.
  destruct (Qcompare_spec (x - inject_Z (Qfloor x)) (1 # 2)) as [He|Hl|Hg].
  - destruct (Z.even (Qfloor x)).
    + apply Qabs_Qle_condition. split; lra.
    + rewrite inject_Z_plus. change (inject_Z 1) with 1.
      apply Qabs_Qle_condition. split; lra.
  - apply Qabs_Qle_condition. split; lra.
  - rewrite inject_Z_plus. change (inject_Z 1) with 1.
    apply Qabs_Qle_condition. split; lra.
Qed.

Lemma py_round_nonneg (x : Q) : 0 <= x → (0 ≤ py_round x)%Z.
Proof.
  intros Hx. assert (0 ≤ Qfloor x)%Z as Hf.
  { rewrite <- (Qfloor_Z 0). now apply Qfloor_resp_le. }
  unfold py_round.
  destruct (Qcompare _ _); [destruct (Z.even _)| |]; lia.
Qed.

(** ** Binary64 rounding *)

Lemma pow2_pos (k : Z) : 0 < pow2 k.
Proof.
  unfold pow2. destruct (0 <=? k)%Z eqn:Hk.
  - apply Z.leb_le in Hk. rewrite <- (Zlt_Qlt 0). now apply Z.pow_pos_nonneg.
  - apply Z.leb_gt in Hk. apply Qinv_lt_0_compat. rewrite <- (Zlt_Qlt 0).
    apply Z.pow_pos_nonneg; lia.
Qed.

(** Below 1 the grid of the rounding is finer than the integers: dividing
    by the spacing multiplies by a power of two. *)
Lemma div_pow2 (x : Q) (q : Z) :
  (q ≤ 0)%Z → x / pow2 q == x * inject_Z (2 ^ (- q)).
Proof.
  intros Hq. unfold pow2. destruct (0 <=? q)%Z eqn:Hk.
  - apply Z.leb_le in Hk. assert (q = 0%Z) as -> by lia.
    change (inject_Z (2 ^ 0)) with 1. change (inject_Z (2 ^ (- 0))) with 1.
    field.
  - assert (0 < inject_Z (2 ^ (- q))) as Hpos.
    { rewrite <- (Zlt_Qlt 0). apply Z.pow_pos_nonneg; lia. }
    field. lra.
Qed.

Lemma mul_pow2 (x : Q) (q : Z) :
  (q ≤ 0)%Z → x * inject_Z (2 ^ (- q)) * pow2 q == x.
Proof.
  intros Hq. pose proof (div_pow2 x q Hq) as Hdiv.
  pose proof (pow2_pos q) as Hpos. rewrite <- Hdiv. field. lra.
Qed.

(** A rational below 2^53 has an exponent of at most 52. *)
Lemma ilog2_small (x : Q) :
  Qabs x < inject_Z (2 ^ 53) → (ilog2 x ≤ 52)%Z.
Proof.
  intros Hx. unfold ilog2.
  set (a := Z.abs (Qnum x)). set (b := Z.pos (Qden x)).
  assert (a < 2 ^ 53 * b)%Z as Hab.
  { destruct x as [n d]. unfold Qlt in Hx. simpl in Hx. subst a b. simpl.
    lia. }
  assert (Z.log2 a - Z.log2 b ≤ 53)%Z as He.
  { destruct (decide (a = 0%Z)) as [->|Ha].
    - pose proof (Z.log2_nonneg b). change (Z.log2 0) with 0%Z. lia.
    - assert (0 < a)%Z as Hapos by (subst a; lia).
      assert (0 < b)%Z as Hbpos by (subst b; lia).
      pose proof (Z.log2_spec a Hapos) as [Hla _].
      pose proof (Z.log2_spec b Hbpos) as [_ Hlb].
      pose proof (Z.log2_nonneg a). pose proof (Z.log2_nonneg b).
      assert (2 ^ Z.log2 a < 2 ^ (53 + Z.succ (Z.log2 b)))%Z as Hpow.
      { rewrite Z.pow_add_r by lia.
        apply Z.le_lt_trans with a; [done|].
        apply Z.lt_trans with (2 ^ 53 * b)%Z; [done|].
        apply Z.mul_lt_mono_pos_l; [reflexivity | done]. }
      apply Z.pow_lt_mono_r_iff in Hpow; lia. }
  destruct (Qle_bool (pow2 (Z.log2 a - Z.log2 b)) (Qabs x)) eqn:Hle; [|lia].
  apply Qle_bool_iff in Hle.
  destruct (decide (Z.log2 a - Z.log2 b = 53)%Z) as [Heq|Hne]; [|lia].
  rewrite Heq in Hle. change (pow2 53) with (inject_Z (2 ^ 53)) in Hle. lra.
Qed.

Lemma py_round_Z (x : Q) (m : Z) : x == inject_Z m → py_round x = m.
Proof.
  intros Hx. unfold py_round.
  assert (Qfloor x = m) as -> by (rewrite Hx; apply Qfloor_Z).
  destruct (Qcompare_spec (x - inject_Z m) (1 # 2)) as [He|Hl|Hg];
    [lra | done | lra].
Qed.

Lemma py_round_le (x : Q) (k : Z) : x <= inject_Z k → (py_round x ≤ k)%Z.
Proof.
  intros Hx. pose proof (py_round_nearest x) as Hn.
  apply Qabs_Qle_condition in Hn as [Hn _].
  assert (inject_Z (py_round x) < inject_Z (k + 1)) as Hlt.
  { rewrite inject_Z_plus. change (inject_Z 1) with 1. lra. }
  rewrite <- Zlt_Qlt in Hlt. lia.
Qed.

Lemma Qred_inject_Z (k : Z) : Qred (inject_Z k) = inject_Z k.
Proof.
  unfold Qred, inject_Z.
  pose proof (Z.ggcd_gcd k 1) as Hg.
  pose proof (Z.ggcd_correct_divisors k 1) as Hd.
  destruct (Z.ggcd k 1) as [g [aa bb]]. simpl in *.
  rewrite Z.gcd_1_r in Hg. subst g. destruct Hd as [Ha Hb].
  assert (aa = k) as -> by lia. assert (bb = 1%Z) as -> by lia. reflexivity.
Qed.

Lemma binary64_nonneg (x : Q) : 0 <= x → 0 <= binary64 x.
Proof.
  intros Hx. unfold binary64. destruct (Qeq_bool x 0); [lra|]. cbv zeta.
  rewrite Qred_correct.
  set (q := Z.max (ilog2 x - 52) (-1074)).
  pose proof (pow2_pos q) as Hpos.
  apply Qmult_le_0_compat; [|lra].
  rewrite <- (Zle_Qle 0). apply py_round_nonneg.
  apply Qle_shift_div_l; [done | lra].
Qed.

(** Rounding never crosses an integer below 2^53. *)
Lemma binary64_le_Z (x : Q) (n : Z) :
  0 <= x → x <= inject_Z n → (n < 2 ^ 53)%Z → binary64 x <= inject_Z n.
Proof.
  intros H0 Hn Hsmall. unfold binary64.
  destruct (Qeq_bool x 0) eqn:Hz; [lra|]. cbv zeta.
  rewrite Qred_correct.
  assert (ilog2 x ≤ 52)%Z as He.
  { apply ilog2_small. rewrite Qabs_pos by done.
    apply Qle_lt_trans with (inject_Z n); [done|]. now rewrite <- Zlt_Qlt. }
  set (q := Z.max (ilog2 x - 52) (-1074)) in *.
  assert (q ≤ 0)%Z as Hq by lia.
  pose proof (pow2_pos q) as Hpos.
  assert (0 <= inject_Z (2 ^ (- q))) as Hscale.
  { rewrite <- (Zle_Qle 0). apply Z.pow_nonneg. lia. }
  assert (py_round (x / pow2 q) ≤ n * 2 ^ (- q))%Z as Hround.
  { apply py_round_le. rewrite (div_pow2 x q Hq), inject_Z_mult.
    now apply Qmult_le_compat_r. }
  rewrite Zle_Qle, inject_Z_mult in Hround.
  rewrite <- (mul_pow2 (inject_Z n) q Hq).
  apply Qmult_le_compat_r; [done | lra].
Qed.

(** An integer below 2^53 in magnitude is a float. *)
Lemma binary64_Z (k : Z) :
  (Z.abs k < 2 ^ 53)%Z → binary64 (inject_Z k) = inject_Z k.
Proof.
  intros Hk. unfold binary64.
  destruct (Qeq_bool (inject_Z k) 0) eqn:Hz.
  - apply Qeq_bool_eq in Hz. unfold Qeq in Hz. simpl in Hz.
    assert (k = 0%Z) as -> by lia. reflexivity.
  - cbv zeta. rewrite <- (Qred_inject_Z k) at 4. apply Qred_complete.
    assert (ilog2 (inject_Z k) ≤ 52)%Z as He.
    { apply ilog2_small.
      change (Qabs (inject_Z k)) with (inject_Z (Z.abs k)).
      now rewrite <- Zlt_Qlt. }
    set (q := Z.max (ilog2 (inject_Z k) - 52) (-1074)) in *.
    assert (q ≤ 0)%Z as Hq by lia.
    rewrite (py_round_Z _ (k * 2 ^ (- q))).
    + rewrite inject_Z_mult. apply mul_pow2, Hq.
    + rewrite (div_pow2 _ q Hq). now rewrite inject_Z_mult.
Qed.

Lemma py_round_ge (x : Q) (k : Z) : inject_Z k <= x → (k ≤ py_round x)%Z.
Proof.
  intros Hx. pose proof (py_round_nearest x) as Hn.
  apply Qabs_Qle_condition in Hn as [_ Hn].
  assert (inject_Z k < inject_Z (py_round x + 1)) as Hlt.
  { rewrite inject_Z_plus. change (inject_Z 1) with 1. lra. }
  rewrite <- Zlt_Qlt in Hlt. lia.
Qed.

Lemma binary64_ge_Z (x : Q) (k n : Z) :
  0 <= inject_Z k → inject_Z k <= x → x <= inject_Z n → (n < 2 ^ 53)%Z →
  inject_Z k <= binary64 x.
Proof.
  intros H0 Hk Hn Hsmall. unfold binary64.
  destruct (Qeq_bool x 0) eqn:Hz.
  { apply Qeq_bool_eq in Hz. lra. }
  cbv zeta. rewrite Qred_correct.
  assert (ilog2 x ≤ 52)%Z as He.
  { apply ilog2_small. rewrite Qabs_pos by lra.
    apply Qle_lt_trans with (inject_Z n); [done|]. now rewrite <- Zlt_Qlt. }
  set (q := Z.max (ilog2 x - 52) (-1074)) in *.
  assert (q ≤ 0)%Z as Hq by lia.
  pose proof (pow2_pos q) as Hpos.
  assert (0 <= inject_Z (2 ^ (- q))) as Hscale.
  { rewrite <- (Zle_Qle 0). apply Z.pow_nonneg. lia. }
  assert (k * 2 ^ (- q) ≤ py_round (x / pow2 q))%Z as Hround.
  { apply py_round_ge. rewrite (div_pow2 x q Hq), inject_Z_mult.
    now apply Qmult_le_compat_r. }
  rewrite Zle_Qle, inject_Z_mult in Hround.
  rewrite <- (mul_pow2 (inject_Z k) q Hq).
  apply Qmult_le_compat_r; [done | lra].
Qed.

(** Rounding a product below 2^53 moves it across no integer: cut down to
    an integer, the rounded value lies between the floor and the ceiling of
    the exact one. *)
Lemma binary64_between (x : Q) (n : Z) :
  0 <= x → x <= inject_Z n → (n < 2 ^ 53)%Z →
  (Qfloor x ≤ Qfloor (binary64 x) ≤ Qceiling x)%Z.
Proof.
  intros H0 Hn Hsmall. split.
  - assert (inject_Z (Qfloor x) <= binary64 x) as Hlo.
    { apply binary64_ge_Z with n; [|apply Qfloor_le|done..].
      rewrite <- (Zle_Qle 0). rewrite <- (Qfloor_Z 0).
      now apply Qfloor_resp_le. }
    rewrite <- (Qfloor_Z (Qfloor x)). now apply Qfloor_resp_le.
  - assert (binary64 x <= inject_Z (Qceiling x)) as Hhi.
    { apply binary64_le_Z; [done | apply Qle_ceiling|].
      assert (Qceiling x ≤ n)%Z; [|lia].
      rewrite <- (Qceiling_Z n). now apply Qceiling_resp_le. }
    rewrite <- (Qfloor_Z (Qceiling x)). now apply Qfloor_resp_le.
Qed.

Lemma float_overflow_small (x : Q) (n : Z) :
  0 <= x → x <= inject_Z n → (n < 2 ^ 53)%Z → float_overflow x = false.
Proof.
  intros H0 Hn Hsmall. unfold float_overflow.
  destruct (Qle_bool (pow2 1024) (Qabs x)) eqn:Hle; [|done].
  apply Qle_bool_iff in Hle. rewrite Qabs_pos in Hle by done.
  assert (inject_Z n < inject_Z (2 ^ 53)) as Hlt by now rewrite <- Zlt_Qlt.
  assert (inject_Z (2 ^ 53) < pow2 1024) as Hbig by reflexivity.
  lra.
Qed.

(** The count for a number of frames or cells below 2^53: the int is a
    float as it is, and only the product is rounded. *)
Lemma dropout_count_small (n : nat) (factor : Q) :
  (Z.of_nat n < 2 ^ 53)%Z →
  dropout_count n factor
  = let product := binary64 (inject_Z (Z.of_nat n) * factor) in
    if float_overflow product then Raise OverflowError
    else Ok (py_int product).
Proof.
  intros Hn. unfold dropout_count. cbv zeta.
  rewrite binary64_Z by lia.
  rewrite (float_overflow_small (inject_Z (Z.of_nat n)) (Z.of_nat n));
    [done| |lra|done].
  rewrite <- (Zle_Qle 0). lia.
Qed.

Lemma product_bounds (n : nat) (factor : Q) :
  0 <= factor → factor <= 1 →
  0 <= inject_Z (Z.of_nat n) * factor ∧
  inject_Z (Z.of_nat n) * factor <= inject_Z (Z.of_nat n).
Proof.
  intros H0 H1.
  assert (0 <= inject_Z (Z.of_nat n)) as Hn0.
  { rewrite <- (Zle_Qle 0). lia. }
  split; [now apply Qmult_le_0_compat|].
  rewrite <- (Qmult_1_l (inject_Z (Z.of_nat n))) at 2.
  rewrite (Qmult_comm _ factor).
  now apply Qmult_le_compat_r.
Qed.

(** For a factor between 0 and 1 the count is the rounded product cut down
    to an integer, and lies between 0 and [n]. *)
Lemma dropout_count_fraction (n : nat) (factor : Q) :
  0 <= factor → factor <= 1 → (Z.of_nat n < 2 ^ 53)%Z →
  let count := Qfloor (binary64 (inject_Z (Z.of_nat n) * factor)) in
  dropout_count n factor = Ok count ∧ (0 ≤ count ≤ Z.of_nat n)%Z.
Proof.
  intros H0 H1 Hn count.
  destruct (product_bounds n factor H0 H1) as [Hx Hy].
  pose proof (binary64_nonneg _ Hx) as Hlo.
  pose proof (binary64_le_Z _ _ Hx Hy Hn) as Hhi.
  split.
  - rewrite (dropout_count_small n factor Hn). cbv zeta.
    rewrite (float_overflow_small _ _ Hlo Hhi Hn).
    now rewrite py_int_floor.
  - subst count. split.
    + rewrite <- (Qfloor_Z 0). now apply Qfloor_resp_le.
    + rewrite <- (Qfloor_Z (Z.of_nat n)) at 2. now apply Qfloor_resp_le.
Qed.

(** The count at floats whose product with the length is not exact:
    [3 * 0.3333333333333333] is rounded up to 1.0 and [10 * 0.7] to 7.0,
    where the exact product of the float would be cut to 6;
    [100 * 0.29] is rounded to 28.999999999999996 and
    [3 * 1.3333333333333333] to 4.0. *)
Lemma dropout_count_examples :
  dropout_count 3 (binary64 0.3333333333333333) = Ok 1%Z ∧
  dropout_count 10 (binary64 0.7) = Ok 7%Z ∧
  py_int (inject_Z 10 * binary64 0.7) = 6%Z ∧
  dropout_count 100 (binary64 0.29) = Ok 28%Z ∧
  dropout_count 3 (binary64 1.3333333333333333) = Ok 4%Z.
Proof. repeat split; vm_compute; reflexivity. Qed.

(** ** Sampling and the dropout operators *)

Section Dropout.
Context `{Collaborators}.

Lemma np_random_choice_accepts (population : nat) (size : Z) (σ : world) :
  (0 ≤ size ≤ Z.of_nat population)%Z →
  np_random_choice population size σ
  = (Ok (choice_draw (rng σ) population (Z.to_nat size)).1,
     mkWorld (heap σ) (choice_draw (rng σ) population (Z.to_nat size)).2
             (trace σ ++ [EvChoice population size])).
Proof.
  intros Hr. unfold np_random_choice. rewrite bind_run. simpl.
  assert ((size <? 0)%Z || (Z.of_nat population <? size)%Z = false) as ->.
  { apply orb_false_iff. split; apply Z.ltb_ge; lia. }
  simpl. now destruct (choice_draw _ _ _).
Qed.

Lemma np_random_choice_rejects (population : nat) (size : Z) (σ : world) :
  (size < 0 ∨ Z.of_nat population < size)%Z →
  np_random_choice population size σ
  = (Raise ValueError, logged σ [EvChoice population size]).
Proof.
  intros Hr. unfold np_random_choice. rewrite bind_run. simpl.
  assert ((size <? 0)%Z || (Z.of_nat population <? size)%Z = true) as ->.
  { apply orb_true_iff. destruct Hr; [left|right]; apply Z.ltb_lt; lia. }
  done.
Qed.

Lemma stft_run_ok (p : Processor) (l : loc) (w : Wave) (σ : world) :
  heap σ !! l = Some w →
  stft_run p l σ = (Ok (stft_process p w), logged σ [EvSTFT]).
Proof.
  intros Hl. unfold stft_run. now rewrite (bind_ok _ _ _ _ _ (load_run _ _ _ Hl)).
Qed.

Lemma lift_bind_run {A B} (r : result A) (k : A → M B) (σ : world) :
  (lift r ≫= k) σ
  = match r with Ok a => k a σ | Raise e => (Raise e, σ) end.
Proof. now destruct r. Qed.

Lemma frame_dropout_rejects (x_fft : Spectrogram) (factor : Q) (count : Z)
    (σ : world) :
  dropout_count (spec_frames x_fft) factor = Ok count →
  (count < 0 ∨ Z.of_nat (spec_frames x_fft) < count)%Z →
  frame_dropout x_fft (Some factor) σ
  = (Raise ValueError, logged σ [EvChoice (spec_frames x_fft) count]).
Proof.
  intros Hcount Hr. unfold frame_dropout.
  rewrite lift_bind_run, Hcount.
  now rewrite (bind_raise _ _ _ _ _ (np_random_choice_rejects _ _ _ Hr)).
Qed.

Lemma frame_dropout_accepts (x_fft : Spectrogram) (factor : Q) (count : Z)
    (σ : world) :
  let draw := choice_draw (rng σ) (spec_frames x_fft) (Z.to_nat count) in
  dropout_count (spec_frames x_fft) factor = Ok count →
  (0 ≤ count ≤ Z.of_nat (spec_frames x_fft))%Z →
  frame_dropout x_fft (Some factor) σ
  = (Ok (zero_frames draw.1 x_fft),
     mkWorld (heap σ) draw.2
             (trace σ ++ [EvChoice (spec_frames x_fft) count])).
Proof.
  intros draw Hcount Hr. unfold frame_dropout.
  rewrite lift_bind_run, Hcount.
  now rewrite (bind_ok _ _ _ _ _ (np_random_choice_accepts _ _ _ Hr)).
Qed.

(** The count cannot be taken: nothing is sampled. *)
Lemma frame_dropout_overflows (x_fft : Spectrogram) (factor : Q) (e : exn)
    (σ : world) :
  dropout_count (spec_frames x_fft) factor = Raise e →
  frame_dropout x_fft (Some factor) σ = (Raise e, σ).
Proof.
  intros Hcount. unfold frame_dropout. now rewrite lift_bind_run, Hcount.
Qed.

Lemma bin_dropout_rejects (x_fft : Spectrogram) (factor : Q) (count : Z)
    (σ : world) :
  dropout_count (spec_size x_fft) factor = Ok count →
  (count < 0 ∨ Z.of_nat (spec_size x_fft) < count)%Z →
  bin_dropout x_fft (Some factor) σ
  = (Raise ValueError, logged σ [EvChoice (spec_size x_fft) count]).
Proof.
  intros Hcount Hr. unfold bin_dropout.
  rewrite lift_bind_run, Hcount.
  now rewrite (bind_raise _ _ _ _ _ (np_random_choice_rejects _ _ _ Hr)).
Qed.

Lemma bin_dropout_accepts (x_fft : Spectrogram) (factor : Q) (count : Z)
    (σ : world) :
  let draw := choice_draw (rng σ) (spec_size x_fft) (Z.to_nat count) in
  dropout_count (spec_size x_fft) factor = Ok count →
  (0 ≤ count ≤ Z.of_nat (spec_size x_fft))%Z →
  bin_dropout x_fft (Some factor) σ
  = (Ok (zero_cells draw.1 x_fft),
     mkWorld (heap σ) draw.2
             (trace σ ++ [EvChoice (spec_size x_fft) count])).
Proof.
  intros draw Hcount Hr. unfold bin_dropout.
  rewrite lift_bind_run, Hcount.
  now rewrite (bind_ok _ _ _ _ _ (np_random_choice_accepts _ _ _ Hr)).
Qed.

Lemma bin_dropout_overflows (x_fft : Spectrogram) (factor : Q) (e : exn)
    (σ : world) :
  dropout_count (spec_size x_fft) factor = Raise e →
  bin_dropout x_fft (Some factor) σ = (Raise e, σ).
Proof.
  intros Hcount. unfold bin_dropout. now rewrite lift_bind_run, Hcount.
Qed.

End Dropout.

Lemma double_sampler_ok : @sampler_ok Double.collaborators.
Proof.
  intros g population size Hle. simpl. repeat split.
  - rewrite reverse_Permutation. apply NoDup_seq.
  - now rewrite length_reverse, length_seq.
  - apply Forall_forall. intros i Hi.
    apply elem_of_reverse, elem_of_seq in Hi. lia.
Qed.

(** ** Frame dropout *)

(** C3 (amended). For a factor in [0,1), frame dropout zeroes the frames of
    a set of distinct indices whose number is [int(num_frames *
    distortion_factor)]: the product of the two floats, rounded as binary64
    arithmetic rounds it, cut down to an integer. That number lies between
    the exact product rounded down and the exact product rounded up; it is
    not the product rounded to the nearest integer. Every cell of those
    frames becomes zero and every other cell is kept; for 50 frames and the
    float 0.2 that is 10 frames; and with [distortion_factor = None] the
    spectrogram and the world are left as they are. *)
Theorem frame_dropout_truncated_count `{Collaborators}
    (x_fft : Spectrogram) (factor : Q) (σ : world) :
  sampler_ok → 0 <= factor → factor < 1 →
  (Z.of_nat (spec_frames x_fft) < 2 ^ 53)%Z →
  let exact := inject_Z (Z.of_nat (spec_frames x_fft)) * factor in
  ∃ idx σ',
    frame_dropout x_fft (Some factor) σ = (Ok (zero_frames idx x_fft), σ') ∧
    NoDup idx ∧
    Forall (λ t, (t < spec_frames x_fft)%nat) idx ∧
    Z.of_nat (length idx) = py_int (binary64 exact) ∧
    (Qfloor exact ≤ Z.of_nat (length idx) ≤ Qceiling exact)%Z ∧
    (∀ f t c,
       cell (zero_frames idx x_fft) f t c
       = if decide (t ∈ idx) then (λ _, czero) <$> cell x_fft f t c
         else cell x_fft f t c) ∧
    (spec_frames x_fft = 50%nat → factor = binary64 0.2 →
     length idx = 10%nat) ∧
    frame_dropout x_fft None σ = (Ok x_fft, σ).
Proof.
  intros Hs H0 H1 Hn exact.
  destruct (dropout_count_fraction (spec_frames x_fft) factor H0
              (Qlt_le_weak _ _ H1) Hn) as [Hcount Hr].
  fold exact in Hcount, Hr.
  pose proof (frame_dropout_accepts x_fft factor _ σ Hcount Hr) as Hrun.
  simpl in Hrun.
  set (count := Qfloor (binary64 exact)) in *.
  destruct (Hs (rng σ) (spec_frames x_fft) (Z.to_nat count)) as (Hnd & Hlen & Hlt);
    [lia|].
  assert (0 <= exact) as Hexact.
  { apply Qmult_le_0_compat; [|done]. rewrite <- (Zle_Qle 0). lia. }
  assert (Z.of_nat (length (choice_draw (rng σ) (spec_frames x_fft)
                              (Z.to_nat count)).1) = count) as Hcount'.
  { rewrite Hlen, Z2Nat.id by lia. done. }
  eexists _, _. split; [exact Hrun|].
  split; [done|]. split; [done|]. split.
  { rewrite Hcount'. unfold count. symmetry. apply py_int_floor.
    now apply binary64_nonneg. }
  split.
  { rewrite Hcount'. unfold count.
    apply (binary64_between exact (Z.of_nat (spec_frames x_fft)));
      [done| |done].
    apply product_bounds; [done | now apply Qlt_le_weak]. }
  split; [intros f t c; apply cell_zero_frames|].
  split; [|done].
  intros H50 H02. apply Nat2Z.inj. rewrite Hcount'. unfold count, exact.
  rewrite H50, H02. reflexivity.
Qed.

Lemma frame_dropout_truncated_count_witness :
  ∃ idx σ',
    frame_dropout Double.fifty_frames (Some (binary64 0.2)) Double.studio
    = (Ok (zero_frames idx Double.fifty_frames), σ') ∧
    NoDup idx ∧
    Forall (λ t, (t < 50)%nat) idx ∧
    length idx = 10%nat ∧
    ∀ f t c,
      cell (zero_frames idx Double.fifty_frames) f t c
      = if decide (t ∈ idx)
        then (λ _, czero) <$> cell Double.fifty_frames f t c
        else cell Double.fifty_frames f t c.
Proof.
  destruct (@frame_dropout_truncated_count Double.collaborators
              Double.fifty_frames (binary64 0.2) Double.studio)
    as (idx & σ' & Hrun & Hnd & Hlt & _ & _ & Hcell & H50 & _).
  - exact double_sampler_ok.
  - vm_compute. discriminate.
  - reflexivity.
  - reflexivity.
  - exists idx, σ'. split; [exact Hrun|]. split; [exact Hnd|].
    split; [exact Hlt|]. split; [|exact Hcell].
    apply H50; reflexivity.
Defined.

(** C3 as stated fails: on a spectrogram of 7 non-zero frames and a factor
    of 1/4 the product is 1.75, which rounds to 2, but exactly one frame
    (frame 6 with the stand-in sampler) is zeroed. *)
Lemma frame_dropout_not_rounded :
  zeroed_frames Double.seven_frames = [] ∧
  py_round (inject_Z 7 * (1 # 4)) = 2%Z ∧
  ∃ x_fft σ',
    frame_dropout Double.seven_frames (Some (1 # 4)) Double.studio
    = (Ok x_fft, σ') ∧
    zeroed_frames x_fft = [6%nat] ∧
    length (zeroed_frames x_fft) ≠ Z.to_nat (py_round (inject_Z 7 * (1 # 4))).
Proof.
  split; [reflexivity|]. split; [reflexivity|].
  eexists _, _. split; [vm_compute; reflexivity|]. split; [reflexivity|].
  vm_compute. discriminate.
Qed.

(** ** Stepping through a run *)

Lemma ret_run {A} (a : A) (σ : world) : (mret a : M A) σ = (Ok a, σ).
Proof. reflexivity. Qed.

Lemma raise_run {A} (e : exn) (σ : world) : (raise e : M A) σ = (Raise e, σ).
Proof. reflexivity. Qed.

Lemma lift_run {A} (r : result A) (σ : world) : lift r σ = (r, σ).
Proof. reflexivity. Qed.

Lemma alloc_run (w : Wave) (σ : world) :
  alloc w σ
  = (Ok (length (heap σ)), mkWorld (heap σ ++ [w]) (rng σ) (trace σ)).
Proof. reflexivity. Qed.

Lemma store_run (l : loc) (w : Wave) (σ : world) :
  store l w σ = (Ok tt, mkWorld (<[l := w]> (heap σ)) (rng σ) (trace σ)).
Proof. reflexivity. Qed.

Lemma log_run (e : event) (σ : world) :
  log e σ = (Ok tt, mkWorld (heap σ) (rng σ) (trace σ ++ [e])).
Proof. reflexivity. Qed.

Lemma lookup_snoc_new {A} (h : list A) (x : A) :
  (h ++ [x]) !! length h = Some x.
Proof. rewrite lookup_app_r by lia. now rewrite Nat.sub_diag. Qed.

Lemma lookup_snoc_old {A} (h : list A) (x y : A) (l : nat) :
  h !! l = Some y → (h ++ [x]) !! l = Some y.
Proof. intros Hl. now apply lookup_app_l_Some. Qed.

Lemma insert_snoc_new {A} (h : list A) (x x' : A) :
  <[length h := x']> (h ++ [x]) = h ++ [x'].
Proof.
  rewrite insert_app_r_alt by lia. now rewrite Nat.sub_diag.
Qed.

Ltac heap_lookup :=
  solve [ eassumption
        | apply lookup_snoc_new
        | apply lookup_snoc_old; heap_lookup ].

(** One step of a run: expose a bind or replace a primitive by its
    outcome. *)
Ltac mrun_step :=
  first
    [ rewrite bind_run
    | rewrite ret_run
    | rewrite raise_run
    | rewrite lift_run
    | rewrite alloc_run
    | rewrite store_run
    | rewrite log_run
    | erewrite load_run by (cbn [heap]; heap_lookup) ];
  cbn [heap rng trace].

Ltac mrun := repeat mrun_step.

(** ** Exact runs of the single-source pipelines *)

Section Runs.
Context `{Collaborators}.

Lemma frame_dropout_heap (x_fft : Spectrogram) (factor : option Q) (σ : world) :
  heap (frame_dropout x_fft factor σ).2 = heap σ.
Proof.
  destruct factor as [factor|]; [|done].
  destruct (dropout_count (spec_frames x_fft) factor) as [count|e] eqn:Hcount.
  - destruct (decide (0 ≤ count ≤ Z.of_nat (spec_frames x_fft))%Z) as [Hr|Hr].
    + now rewrite (frame_dropout_accepts _ _ _ _ Hcount Hr).
    + rewrite (frame_dropout_rejects _ _ _ _ Hcount); [done | lia].
  - now rewrite (frame_dropout_overflows _ _ _ _ Hcount).
Qed.

Lemma bin_dropout_heap (x_fft : Spectrogram) (factor : option Q) (σ : world) :
  heap (bin_dropout x_fft factor σ).2 = heap σ.
Proof.
  destruct factor as [factor|]; [|done].
  destruct (dropout_count (spec_size x_fft) factor) as [count|e] eqn:Hcount.
  - destruct (decide (0 ≤ count ≤ Z.of_nat (spec_size x_fft))%Z) as [Hr|Hr].
    + now rewrite (bin_dropout_accepts _ _ _ _ Hcount Hr).
    + rewrite (bin_dropout_rejects _ _ _ _ Hcount); [done | lia].
  - now rewrite (bin_dropout_overflows _ _ _ _ Hcount).
Qed.

Lemma finish_distorted_target_run (istft : Processor) (target : loc)
    (tw : Wave) (x_fft : Spectrogram) (σ : world) :
  heap σ !! target = Some tw →
  let y := istft_process istft x_fft in
  finish_distorted_target istft target tw x_fft σ
  = (Ok (length (heap σ ++ [y])),
     mkWorld ((heap σ ++ [y])
              ++ [rescaled (wave_take y (num_frames tw)) (measure tw)])
             (rng σ) (trace σ ++ [EvISTFT])).
Proof.
  intros Ht y.
  unfold finish_distorted_target, istft_run, py_slice_to, loudness_get,
    loudness_set.
  mrun. now rewrite insert_snoc_new.
Qed.

Lemma distorted_target_run (σ σ2 : world) (target : loc) (tw : Wave)
    (distortion_factor lowpass_cutoff : option Q) (num_points : Z)
    (window_type : string) (rate : option Z) (x1 x2 : Spectrogram) :
  let stft := (stft_istft num_points window_type).1 in
  let istft := (stft_istft num_points window_type).2 in
  heap σ !! target = Some tw →
  frame_dropout (stft_process stft tw) distortion_factor (logged σ [EvSTFT])
  = (Ok x1, σ2) →
  lowpass_mask x1 lowpass_cutoff num_points (sample_rate tw) σ2 = (Ok x2, σ2) →
  distorted_target (WaveObj target) distortion_factor lowpass_cutoff
    num_points window_type rate σ
  = finish_distorted_target istft target tw x2 σ2.
Proof.
  intros stft istft Ht Hfd Hlp. subst stft istft.
  cbn [stft_istft fst snd] in *.
  assert (heap σ2 = heap σ) as Hheap.
  { pose proof (f_equal (λ r, heap r.2) Hfd) as Hh. cbv beta in Hh.
    now rewrite frame_dropout_heap in Hh. }
  unfold distorted_target, as_wave. rewrite bind_run, ret_run.
  cbn [stft_istft]. rewrite bind_run, (stft_run_ok _ _ _ _ Ht).
  rewrite bind_run, Hfd.
  rewrite bind_run, (load_run target tw σ2) by (now rewrite Hheap).
  rewrite bind_run, Hlp. reflexivity.
Qed.

Lemma distorted_target_rejects (σ : world) (target : loc) (tw : Wave)
    (factor : Q) (lowpass_cutoff : option Q) (num_points : Z)
    (window_type : string) (rate : option Z) (count : Z) :
  let x_fft := stft_process (stft_istft num_points window_type).1 tw in
  heap σ !! target = Some tw →
  dropout_count (spec_frames x_fft) factor = Ok count →
  (count < 0 ∨ Z.of_nat (spec_frames x_fft) < count)%Z →
  distorted_target (WaveObj target) (Some factor) lowpass_cutoff
    num_points window_type rate σ
  = (Raise ValueError, logged σ [EvSTFT; EvChoice (spec_frames x_fft) count]).
Proof.
  intros x_fft Ht Hcount Hr. subst x_fft.
  cbn [stft_istft fst snd] in *.
  unfold distorted_target, as_wave. rewrite bind_run, ret_run.
  cbn [stft_istft]. rewrite bind_run, (stft_run_ok _ _ _ _ Ht).
  rewrite bind_run, (frame_dropout_rejects _ _ _ _ Hcount Hr).
  unfold logged. simpl. now rewrite <- (assoc_L (++)).
Qed.

Lemma distorted_target_overflows (σ : world) (target : loc) (tw : Wave)
    (factor : Q) (lowpass_cutoff : option Q) (num_points : Z)
    (window_type : string) (rate : option Z) (e : exn) :
  let x_fft := stft_process (stft_istft num_points window_type).1 tw in
  heap σ !! target = Some tw →
  dropout_count (spec_frames x_fft) factor = Raise e →
  distorted_target (WaveObj target) (Some factor) lowpass_cutoff
    num_points window_type rate σ
  = (Raise e, logged σ [EvSTFT]).
Proof.
  intros x_fft Ht Hcount. subst x_fft.
  cbn [stft_istft fst snd] in *.
  unfold distorted_target, as_wave. rewrite bind_run, ret_run.
  cbn [stft_istft]. rewrite bind_run, (stft_run_ok _ _ _ _ Ht).
  now rewrite bind_run, (frame_dropout_overflows _ _ _ _ Hcount).
Qed.

Lemma musical_noise_rejects (σ : world) (target : loc) (tw : Wave)
    (factor : Q) (lowpass_cutoff : option Q) (num_points : Z)
    (window_type : string) (rate : option Z) (count : Z) :
  let x_fft := stft_process (stft_istft num_points window_type).1 tw in
  heap σ !! target = Some tw →
  dropout_count (spec_size x_fft) factor = Ok count →
  (count < 0 ∨ Z.of_nat (spec_size x_fft) < count)%Z →
  musical_noise (WaveObj target) (Some factor) lowpass_cutoff
    num_points window_type rate σ
  = (Raise ValueError, logged σ [EvSTFT; EvChoice (spec_size x_fft) count]).
Proof.
  intros x_fft Ht Hcount Hr. subst x_fft.
  cbn [stft_istft fst snd] in *.
  unfold musical_noise, as_wave. rewrite bind_run, ret_run.
  cbn [stft_istft]. rewrite bind_run, (stft_run_ok _ _ _ _ Ht).
  rewrite bind_run, (bin_dropout_rejects _ _ _ _ Hcount Hr).
  unfold logged. simpl. now rewrite <- (assoc_L (++)).
Qed.

Lemma musical_noise_overflows (σ : world) (target : loc) (tw : Wave)
    (factor : Q) (lowpass_cutoff : option Q) (num_points : Z)
    (window_type : string) (rate : option Z) (e : exn) :
  let x_fft := stft_process (stft_istft num_points window_type).1 tw in
  heap σ !! target = Some tw →
  dropout_count (spec_size x_fft) factor = Raise e →
  musical_noise (WaveObj target) (Some factor) lowpass_cutoff
    num_points window_type rate σ
  = (Raise e, logged σ [EvSTFT]).
Proof.
  intros x_fft Ht Hcount. subst x_fft.
  cbn [stft_istft fst snd] in *.
  unfold musical_noise, as_wave. rewrite bind_run, ret_run.
  cbn [stft_istft]. rewrite bind_run, (stft_run_ok _ _ _ _ Ht).
  now rewrite bind_run, (bin_dropout_overflows _ _ _ _ Hcount).
Qed.

End Runs.

(** ** Validation of the dropout request *)

(** C5 (amended). The dropout operators do not validate
    [distortion_factor]. The forward transform is computed first, and the
    count [int(n * distortion_factor)], taken on the binary64 product of
    the two floats, is handed to the sampler as it is, never clamped. The
    call fails with [ValueError], inside [np.random.choice], exactly when
    that count is negative or exceeds the number of frames (frame dropout)
    or cells (bin dropout); a product that overflows makes [int] itself
    fail with [OverflowError], after the transform and before the sampler;
    any other factor is accepted, and then as many indices are zeroed as
    were requested. *)
Theorem dropout_count_unchecked `{Collaborators}
    (σ : world) (target : loc) (tw : Wave) (factor : Q)
    (lowpass_cutoff : option Q) (num_points : Z) (window_type : string)
    (rate : option Z) :
  heap σ !! target = Some tw →
  let x_fft := stft_process (stft_istft num_points window_type).1 tw in
  (Z.of_nat (spec_frames x_fft) < 2 ^ 53)%Z →
  (Z.of_nat (spec_size x_fft) < 2 ^ 53)%Z →
  let frames_product :=
    binary64 (inject_Z (Z.of_nat (spec_frames x_fft)) * factor) in
  let size_product :=
    binary64 (inject_Z (Z.of_nat (spec_size x_fft)) * factor) in
  let frames := py_int frames_product in
  let size := py_int size_product in
  (float_overflow frames_product = true →
   distorted_target (WaveObj target) (Some factor) lowpass_cutoff
     num_points window_type rate σ
   = (Raise OverflowError, logged σ [EvSTFT])) ∧
  (float_overflow frames_product = false →
   (frames < 0 ∨ Z.of_nat (spec_frames x_fft) < frames)%Z →
   distorted_target (WaveObj target) (Some factor) lowpass_cutoff
     num_points window_type rate σ
   = (Raise ValueError,
      logged σ [EvSTFT; EvChoice (spec_frames x_fft) frames])) ∧
  (float_overflow frames_product = false →
   (0 ≤ frames ≤ Z.of_nat (spec_frames x_fft))%Z →
   ∃ idx g,
     frame_dropout x_fft (Some factor) (logged σ [EvSTFT])
     = (Ok (zero_frames idx x_fft),
        mkWorld (heap σ) g
          (trace σ ++ [EvSTFT; EvChoice (spec_frames x_fft) frames])) ∧
     (sampler_ok → length idx = Z.to_nat frames)) ∧
  (float_overflow size_product = true →
   musical_noise (WaveObj target) (Some factor) lowpass_cutoff
     num_points window_type rate σ
   = (Raise OverflowError, logged σ [EvSTFT])) ∧
  (float_overflow size_product = false →
   (size < 0 ∨ Z.of_nat (spec_size x_fft) < size)%Z →
   musical_noise (WaveObj target) (Some factor) lowpass_cutoff
     num_points window_type rate σ
   = (Raise ValueError,
      logged σ [EvSTFT; EvChoice (spec_size x_fft) size])) ∧
  (float_overflow size_product = false →
   (0 ≤ size ≤ Z.of_nat (spec_size x_fft))%Z →
   ∃ idx g,
     bin_dropout x_fft (Some factor) (logged σ [EvSTFT])
     = (Ok (zero_cells idx x_fft),
        mkWorld (heap σ) g
          (trace σ ++ [EvSTFT; EvChoice (spec_size x_fft) size])) ∧
     (sampler_ok → length idx = Z.to_nat size)).
Proof.
  intros Ht x_fft Hframes Hsize frames_product size_product frames size.
  pose proof (dropout_count_small (spec_frames x_fft) factor Hframes) as Hf.
  pose proof (dropout_count_small (spec_size x_fft) factor Hsize) as Hs.
  cbv zeta in Hf, Hs. fold frames_product in Hf. fold size_product in Hs.
  split; [|split; [|split; [|split; [|split]]]].
  - intros Hov. rewrite Hov in Hf.
    exact (distorted_target_overflows σ target tw factor lowpass_cutoff
             num_points window_type rate _ Ht Hf).
  - intros Hov Hr. rewrite Hov in Hf.
    exact (distorted_target_rejects σ target tw factor lowpass_cutoff
             num_points window_type rate _ Ht Hf Hr).
  - intros Hov Hr. rewrite Hov in Hf. eexists _, _. split.
    + rewrite (frame_dropout_accepts _ _ _ _ Hf Hr). simpl.
      now rewrite <- (assoc_L (++)).
    + intros Hsam. apply Hsam. fold frames. lia.
  - intros Hov. rewrite Hov in Hs.
    exact (musical_noise_overflows σ target tw factor lowpass_cutoff
             num_points window_type rate _ Ht Hs).
  - intros Hov Hr. rewrite Hov in Hs.
    exact (musical_noise_rejects σ target tw factor lowpass_cutoff
             num_points window_type rate _ Ht Hs Hr).
  - intros Hov Hr. rewrite Hov in Hs. eexists _, _. split.
    + rewrite (bin_dropout_accepts _ _ _ _ Hs Hr). simpl.
      now rewrite <- (assoc_L (++)).
    + intros Hsam. apply Hsam. fold size. lia.
Qed.

Lemma dropout_count_unchecked_witness :
  distorted_target (WaveObj 0%nat) (Some 2) None 8 "hann" None Double.studio
  = (Raise ValueError, logged Double.studio [EvSTFT; EvChoice 4 8]).
Proof.
  refine (proj1 (proj2
    (@dropout_count_unchecked Double.collaborators Double.studio
       0%nat Double.stereo 2 None 8 "hann" None _ _ _)) _ _).
  - reflexivity.
  - reflexivity.
  - reflexivity.
  - vm_compute. reflexivity.
  - right. vm_compute. reflexivity.
Defined.

(** C5 as stated fails on both counts. A factor of exactly 1, outside
    [0,1), is accepted by both operators; and a factor of 2 is rejected only
    by the sampler, after the forward transform has been computed. *)
Lemma dropout_factor_not_validated :
  is_ok (distorted_target (WaveObj 0%nat) (Some 1) None 8 "hann" None
           Double.studio).1 = true ∧
  is_ok (musical_noise (WaveObj 0%nat) (Some 1) None 8 "hann" None
           Double.studio).1 = true ∧
  distorted_target (WaveObj 0%nat) (Some 2) None 8 "hann" None Double.studio
  = (Raise ValueError,
     mkWorld [Double.stereo; Double.mono] 0%N [EvSTFT; EvChoice 4 8]).
Proof. repeat split; vm_compute; reflexivity. Qed.

(** ** The lowpass mask *)

(** C8. A cutoff frequency is converted to the nearest bin index, which is
    not negative; every cell of a bin from that index upwards becomes zero,
    in every frame and channel, every cell of a lower bin is kept, and the
    layout of the spectrogram is kept; with [lowpass_cutoff = None] the
    spectrogram is returned as it is. *)
Theorem lowpass_mask_zeroes_from_nearest_bin
    (x_fft : Spectrogram) (freq : Q) (num_points sr : Z) (rate : option Z)
    (σ : world) :
  0 <= freq → (0 < sr)%Z → (0 ≤ num_points)%Z →
  let bin := nearest_bin freq num_points sr in
  (0 ≤ bin)%Z ∧
  Qabs (freq / inject_Z sr * inject_Z num_points - inject_Z bin) <= 1 # 2 ∧
  (∃ masked,
     lowpass_mask x_fft (Some freq) num_points (Some sr) σ = (Ok masked, σ) ∧
     layout masked = layout x_fft ∧
     ∀ f t c,
       cell masked f t c
       = if decide (bin ≤ Z.of_nat f)%Z
         then (λ _, czero) <$> cell x_fft f t c
         else cell x_fft f t c) ∧
  lowpass_mask x_fft None num_points rate σ = (Ok x_fft, σ).
Proof.
  intros Hf Hsr Hnp bin.
  assert (0 ≤ bin)%Z as Hbin.
  { apply py_round_nonneg. apply Qmult_le_0_compat.
    - apply Qle_shift_div_l; [|lra]. rewrite <- (Zlt_Qlt 0). lia.
    - rewrite <- (Zle_Qle 0). lia. }
  split; [done|]. split; [apply py_round_nearest|]. split; [|done].
  exists (zero_bins_from bin x_fft).
  split; [done|]. split; [apply layout_zero_bins_from|].
  intros f t c. rewrite cell_zero_bins_from.
  unfold slice_start. rewrite (proj2 (Z.ltb_ge bin 0)) by done.
  destruct (decide (bin ≤ Z.of_nat f)%Z) as [Hle|Hgt].
  - rewrite decide_True by lia. done.
  - destruct (decide (Z.to_nat (bin `min` Z.of_nat (spec_bins x_fft)) ≤ f)%nat)
      as [Hle'|Hgt']; [|done].
    assert (spec_bins x_fft ≤ f)%nat as Hout by lia.
    unfold cell. unfold spec_bins in Hout.
    now rewrite (lookup_ge_None_2 (cells x_fft) f Hout).
Qed.

Lemma lowpass_mask_zeroes_from_nearest_bin_witness :
  nearest_bin 3500 2048 44100 = 163%Z ∧
  ∃ masked,
    lowpass_mask Double.seven_frames (Some 3500) 4 (Some 44100%Z) Double.studio
    = (Ok masked, Double.studio) ∧
    layout masked = layout Double.seven_frames ∧
    ∀ f t c,
      cell masked f t c
      = if decide (nearest_bin 3500 4 44100 ≤ Z.of_nat f)%Z
        then (λ _, czero) <$> cell Double.seven_frames f t c
        else cell Double.seven_frames f t c.
Proof.
  split; [reflexivity|].
  refine (proj1 (proj2 (proj2
    (lowpass_mask_zeroes_from_nearest_bin Double.seven_frames 3500 4 44100
       None Double.studio _ _ _)))).
  - vm_compute. discriminate.
  - reflexivity.
  - vm_compute. discriminate.
Defined.

(** ** Arguments given as raw arrays *)

Lemma keeps_refl (σ : world) : keeps σ σ.
Proof. now intros l w. Qed.

Lemma keeps_snoc (σ : world) (w : Wave) (g : rng_state) (tr : list event) :
  keeps σ (mkWorld (heap σ ++ [w]) g tr).
Proof. intros l w' Hl. now apply lookup_snoc_old. Qed.

Lemma keeps_same_heap (σ σ' : world) : heap σ' = heap σ → keeps σ σ'.
Proof. intros Hh l w. now rewrite Hh. Qed.

Section Arguments.
Context `{Collaborators}.

(** Converting the target leaves a Wave object as it is and stores a raw
    array as a new object. *)
Lemma as_wave_run (σ : world) (x : pyarg) (rate : option Z) (w : Wave) :
  arg_wave σ x rate = Some w →
  ∃ l σ1,
    as_wave x rate σ = (Ok l, σ1) ∧ heap σ1 !! l = Some w ∧
    keeps σ σ1 ∧ rng σ1 = rng σ ∧ trace σ1 = trace σ ∧
    as_wave (WaveObj l) rate σ1 = (Ok l, σ1).
Proof.
  destruct x as [a|l]; simpl; intros Hw.
  - injection Hw as <-. eexists _, _. split; [reflexivity|].
    split; [apply lookup_snoc_new|]. split; [apply keeps_snoc|]. done.
  - exists l, σ. split; [done|]. split; [done|].
    split; [apply keeps_refl|]. done.
Qed.

Lemma distorted_target_arg (σ : world) (x : pyarg) (rate : option Z)
    (w : Wave) :
  arg_wave σ x rate = Some w →
  ∃ l σ1,
    heap σ1 !! l = Some w ∧ keeps σ σ1 ∧ rng σ1 = rng σ ∧
    trace σ1 = trace σ ∧
    ∀ df lc np wt,
      distorted_target x df lc np wt rate σ
      = distorted_target (WaveObj l) df lc np wt rate σ1.
Proof.
  intros Hw.
  destruct (as_wave_run σ x rate w Hw) as (l & σ1 & Hrun & Hl & Hk & Hg & Htr & Hl').
  exists l, σ1. repeat (split; [done|]).
  intros df lc np wt. unfold distorted_target.
  now rewrite !bind_run, Hrun, Hl'.
Qed.

End Arguments.

(** ** No-op distortion *)

(** C7. With [distortion_factor = None] and [lowpass_cutoff = None] no
    index is sampled and no cell is zeroed: the spectrogram goes from the
    forward to the inverse transform as it is. When transforming forward,
    inverse and truncating to the original length reproduces the target,
    the returned anchor is the target with its loudness set to the target's
    own loudness, and no object of the caller is changed. *)
Theorem distorted_target_without_masks `{Collaborators}
    (σ : world) (target : pyarg) (tw : Wave) (num_points : Z)
    (window_type : string) (rate : option Z) :
  let stft := (stft_istft num_points window_type).1 in
  let istft := (stft_istft num_points window_type).2 in
  arg_wave σ target rate = Some tw →
  wave_take (istft_process istft (stft_process stft tw)) (num_frames tw) = tw →
  ∃ anchor σ',
    distorted_target target None None num_points window_type rate σ
    = (Ok anchor, σ') ∧
    heap σ' !! anchor = Some (rescaled tw (measure tw)) ∧
    keeps σ σ' ∧ rng σ' = rng σ ∧
    trace σ' = trace σ ++ [EvSTFT; EvISTFT].
Proof.
  intros stft istft Hw Hround.
  destruct (distorted_target_arg σ target rate tw Hw)
    as (l & σ1 & Hl & Hk & Hg & Htr & Hrun).
  rewrite Hrun.
  rewrite (distorted_target_run σ1 (logged σ1 [EvSTFT]) l tw None None
             num_points window_type rate (stft_process stft tw)
             (stft_process stft tw) Hl eq_refl eq_refl).
  rewrite finish_distorted_target_run by done.
  fold istft stft. rewrite Hround.
  eexists _, _. split; [reflexivity|]. unfold logged. cbn [heap rng trace].
  split; [apply lookup_snoc_new|]. split; [|split].
  - intros l' w' Hl'. apply lookup_snoc_old, lookup_snoc_old. now apply Hk.
  - done.
  - now rewrite Htr, <- (assoc_L (++)).
Qed.

Lemma distorted_target_without_masks_witness :
  ∃ anchor σ',
    distorted_target (WaveObj 0%nat) None None 8 "hann" None Double.studio
    = (Ok anchor, σ') ∧
    heap σ' !! anchor
    = Some (rescaled Double.stereo (measure Double.stereo)) ∧
    keeps Double.studio σ' ∧ rng σ' = rng Double.studio ∧
    trace σ' = trace Double.studio ++ [EvSTFT; EvISTFT].
Proof.
  apply (@distorted_target_without_masks Double.collaborators Double.studio
           (WaveObj 0%nat) Double.stereo 8 "hann" None).
  - reflexivity.
  - reflexivity.
Defined.

(** ** Sample counts in the store *)

Lemma post_bind {A B} (m : M A) (k : A → M B) (σ : world)
    (Q : B → world → Prop) :
  post m σ (λ a σ1, post (k a) σ1 Q) → post (m ≫= k) σ Q.
Proof.
  intros Hm b σ' Hrun.
  apply bind_inv_ok in Hrun as (a & σ1 & Hma & Hk). exact (Hm a σ1 Hma b σ' Hk).
Qed.

Lemma post_ret {A} (a : A) (σ : world) (Q : A → world → Prop) :
  Q a σ → post (mret a) σ Q.
Proof. intros HQ a' σ' [= <- <-]. exact HQ. Qed.

Lemma post_raise {A} (e : exn) (σ : world) (Q : A → world → Prop) :
  post (raise e) σ Q.
Proof. intros a σ' Hrun. discriminate Hrun. Qed.

Lemma post_mono {A} (m : M A) (σ : world) (Q Q' : A → world → Prop) :
  post m σ Q → (∀ a σ', Q a σ' → Q' a σ') → post m σ Q'.
Proof. intros Hm HQ a σ' Hrun. apply HQ, Hm, Hrun. Qed.

Lemma extends_refl (σ : world) : extends σ σ.
Proof. now intros l n. Qed.

Lemma extends_trans (σ1 σ2 σ3 : world) :
  extends σ1 σ2 → extends σ2 σ3 → extends σ1 σ3.
Proof. intros H12 H23 l n Hl. auto. Qed.

Lemma keeps_extends (σ σ' : world) : keeps σ σ' → extends σ σ'.
Proof. intros Hk l n (w & Hl & Hn). exists w. auto. Qed.

Lemma arg_rows_extends (σ σ' : world) (x : pyarg) (n : nat) :
  extends σ σ' → arg_rows σ x = Some n → arg_rows σ' x = Some n.
Proof.
  intros Hext. destruct x as [a|l]; simpl; [done|].
  destruct (heap σ !! l) as [w|] eqn:Hl; simpl; [|done].
  intros [= Hn]. destruct (Hext l n) as (w' & -> & <-); [|done].
  now exists w.
Qed.

Lemma arg_rows_wave (σ : world) (l : loc) (n : nat) :
  arg_rows σ (WaveObj l) = Some n ↔ rows_at σ l n.
Proof.
  simpl. split.
  - destruct (heap σ !! l) as [w|] eqn:Hl; simpl; [|done].
    intros [= Hn]. now exists w.
  - intros (w & -> & <-). done.
Qed.

Lemma num_frames_rescaled `{Collaborators} (w : Wave) (value : Q) :
  num_frames (rescaled w value) = num_frames w.
Proof. unfold num_frames, rescaled, np_rows, np_scale. simpl. apply length_map. Qed.

Lemma np_add_rows (a b r : ndarray) :
  np_add a b = Ok r →
  broadcast_dim (np_rows a) (np_rows b) = Some (np_rows r).
Proof.
  unfold np_add.
  destruct (broadcast_dim (np_rows a) (np_rows b)) as [k|]; [|done].
  destruct (broadcast_dim (np_cols a) (np_cols b)) as [c|]; [|done].
  intros [= <-]. unfold np_rows. now rewrite length_map, length_seq.
Qed.

Lemma broadcast_dim_same (n : nat) : broadcast_dim n n = Some n.
Proof. unfold broadcast_dim. now rewrite Nat.eqb_refl. Qed.

(** The store after a write that keeps the number of samples. *)
Lemma extends_insert (σ : world) (l : loc) (w w' : Wave) (g : rng_state)
    (tr : list event) :
  heap σ !! l = Some w → num_frames w' = num_frames w →
  extends σ (mkWorld (<[l := w']> (heap σ)) g tr).
Proof.
  intros Hl Hn l' n (w0 & Hl0 & Hn0). unfold rows_at. simpl.
  destruct (decide (l = l')) as [<-|Hne].
  - exists w'. rewrite list_lookup_insert_eq by (now apply lookup_lt_Some in Hl).
    split; [done|]. congruence.
  - exists w0. now rewrite list_lookup_insert_ne.
Qed.

Lemma extends_snoc (σ : world) (w : Wave) (g : rng_state) (tr : list event) :
  extends σ (mkWorld (heap σ ++ [w]) g tr).
Proof. apply keeps_extends, keeps_snoc. Qed.

Lemma extends_same_heap (σ σ' : world) : heap σ' = heap σ → extends σ σ'.
Proof. intros Hh. now apply keeps_extends, keeps_same_heap. Qed.

Section Posts.
Context `{Collaborators}.

Lemma post_load (l : loc) (σ : world) :
  post (load l) σ (λ w σ', σ' = σ ∧ heap σ !! l = Some w).
Proof.
  intros w σ'. unfold load. destruct (heap σ !! l); [|done].
  now intros [= <- <-].
Qed.

Lemma post_alloc (w : Wave) (σ : world) :
  post (alloc w) σ (λ l σ', extends σ σ' ∧ rows_at σ' l (num_frames w)).
Proof.
  intros l σ' [= <- <-]. split; [apply extends_snoc|].
  exists w. split; [apply lookup_snoc_new | done].
Qed.

Lemma post_log (e : event) (σ : world) :
  post (log e) σ (λ _ σ', heap σ' = heap σ).
Proof. now intros [] σ' [= <-]. Qed.

Lemma post_loudness_get (l : loc) (σ : world) :
  post (loudness_get l) σ (λ _ σ', σ' = σ).
Proof.
  unfold loudness_get. apply post_bind.
  eapply post_mono; [apply post_load|]. intros w σ' [-> _].
  now apply post_ret.
Qed.

Lemma post_attr_loudness (x : pyarg) (σ : world) :
  post (attr_loudness x) σ (λ _ σ', σ' = σ).
Proof.
  destruct x as [a|l]; [apply post_raise | apply post_loudness_get].
Qed.

Lemma post_loudness_set (l : loc) (value : Q) (σ : world) :
  post (loudness_set l value) σ (λ _ σ', extends σ σ').
Proof.
  unfold loudness_set. apply post_bind.
  eapply post_mono; [apply post_load|]. intros w σ' [-> Hl].
  intros [] σ'' [= <-].
  eapply extends_insert; [exact Hl | apply num_frames_rescaled].
Qed.

Lemma post_py_slice_to (l : loc) (n m : nat) (σ : world) :
  rows_at σ l m →
  post (py_slice_to l n) σ
    (λ r σ', extends σ σ' ∧ rows_at σ' r (n `min` m)).
Proof.
  intros (w & Hl & Hm). unfold py_slice_to. apply post_bind.
  eapply post_mono; [apply post_load|]. intros w' σ' [-> Hl'].
  assert (w' = w) as -> by congruence.
  eapply post_mono; [apply post_alloc|]. intros r σ' [Hext Hr].
  split; [done|].
  replace (n `min` m)%nat with (num_frames (wave_take w n)); [done|].
  unfold num_frames, wave_take, np_rows in *. simpl.
  rewrite length_take. lia.
Qed.

Lemma post_wave_plus (l : loc) (y : pyarg) (n m : nat) (σ : world) :
  rows_at σ l n → arg_rows σ y = Some m →
  post (wave_plus l y) σ
    (λ r σ', extends σ σ' ∧
             ∃ k, broadcast_dim n m = Some k ∧ rows_at σ' r k).
Proof.
  intros (w & Hl & Hn) Hy. unfold wave_plus. apply post_bind.
  eapply post_mono; [apply post_load|]. intros w' σ' [-> Hl'].
  assert (w' = w) as -> by congruence.
  apply post_bind.
  assert (post (match y with
                | Ndarray b => mret b
                | WaveObj l' => w' ← load l'; mret (samples w')
                end) σ (λ b σ', σ' = σ ∧ np_rows b = m)) as Hb.
  { destruct y as [b|l']; simpl in Hy.
    - apply post_ret. split; [done | congruence].
    - apply post_bind. eapply post_mono; [apply post_load|].
      intros w' σ' [-> Hl'']. apply post_ret. split; [done|].
      rewrite Hl'' in Hy. simpl in Hy. now injection Hy. }
  eapply post_mono; [exact Hb|]. intros b σ' [-> Hbm].
  apply post_bind. eapply post_mono; [apply post_log|].
  intros [] σ1 Hh1. apply post_bind.
  intros r σ2. rewrite lift_run. intros [= Hadd <-].
  eapply post_mono; [apply post_alloc|]. intros r' σ3 [Hext Hr'].
  split.
  - eapply extends_trans; [apply (extends_same_heap σ σ1 Hh1) | exact Hext].
  - exists (np_rows r). split; [|exact Hr'].
    apply np_add_rows in Hadd. unfold num_frames in Hn.
    now rewrite Hn, Hbm in Hadd.
Qed.

End Posts.

(** ** The length of the anchors *)

Lemma double_istft_covers : @istft_covers Double.collaborators.
Proof.
  intros num_points window_type w x Hlay.
  unfold layout in Hlay. simpl in Hlay.
  destruct (cells x) as [|row rest] eqn:Hx; [done|].
  simpl in Hlay. injection Hlay as Hrow _.
  apply (f_equal length) in Hrow. rewrite !length_map in Hrow.
  unfold num_frames, np_rows. simpl. rewrite Hx. simpl.
  rewrite length_app, length_map. unfold complex in *. lia.
Qed.

Section Lengths.
Context `{Collaborators}.
Hypothesis Hcovers : istft_covers.

Lemma post_as_wave (x : pyarg) (rate : option Z) (σ : world) :
  post (as_wave x rate) σ
    (λ l σ', extends σ σ' ∧ ∀ n, arg_rows σ x = Some n → rows_at σ' l n).
Proof.
  destruct x as [a|l]; simpl.
  - eapply post_mono; [apply post_alloc|]. intros l σ' [Hext Hl].
    split; [done|]. now intros n [= <-].
  - apply post_ret. split; [apply extends_refl|].
    intros n. apply arg_rows_wave.
Qed.

Lemma post_stft_run (p : Processor) (l : loc) (σ : world) :
  post (stft_run p l) σ
    (λ x σ', heap σ' = heap σ ∧
             ∃ w, heap σ !! l = Some w ∧ x = stft_process p w).
Proof.
  unfold stft_run. apply post_bind.
  eapply post_mono; [apply post_load|]. intros w σ' [-> Hl].
  apply post_bind. eapply post_mono; [apply post_log|]. intros [] σ1 Hh.
  apply post_ret. split; [done|]. now exists w.
Qed.

Lemma post_frame_dropout (x : Spectrogram) (factor : option Q) (σ : world) :
  post (frame_dropout x factor) σ
    (λ x' σ', heap σ' = heap σ ∧ layout x' = layout x).
Proof.
  intros x' σ' Hrun.
  pose proof (frame_dropout_heap x factor σ) as Hh. rewrite Hrun in Hh.
  split; [exact Hh|].
  destruct factor as [factor|]; [|now injection Hrun as <- _].
  unfold frame_dropout in Hrun.
  apply bind_inv_ok in Hrun as (count & σ0 & _ & Hrun).
  apply bind_inv_ok in Hrun as (idx & σ1 & _ & [= <- _]).
  apply layout_zero_frames.
Qed.

Lemma post_bin_dropout (x : Spectrogram) (factor : option Q) (σ : world) :
  post (bin_dropout x factor) σ
    (λ x' σ', heap σ' = heap σ ∧ layout x' = layout x).
Proof.
  intros x' σ' Hrun.
  pose proof (bin_dropout_heap x factor σ) as Hh. rewrite Hrun in Hh.
  split; [exact Hh|].
  destruct factor as [factor|]; [|discriminate Hrun].
  unfold bin_dropout in Hrun.
  apply bind_inv_ok in Hrun as (count & σ0 & _ & Hrun).
  apply bind_inv_ok in Hrun as (idx & σ1 & _ & [= <- _]).
  apply layout_zero_cells.
Qed.

Lemma post_lowpass_mask (x : Spectrogram) (lowpass_cutoff : option Q)
    (num_points : Z) (rate : option Z) (σ : world) :
  post (lowpass_mask x lowpass_cutoff num_points rate) σ
    (λ x' σ', σ' = σ ∧ layout x' = layout x).
Proof.
  intros x' σ'. unfold lowpass_mask.
  destruct lowpass_cutoff as [freq|]; [destruct rate as [sr|]|].
  - intros [= <- <-]. split; [done | apply layout_zero_bins_from].
  - discriminate.
  - now intros [= <- <-].
Qed.

Lemma post_istft_run (p : Processor) (x : Spectrogram) (σ : world) :
  post (istft_run p x) σ
    (λ l σ', extends σ σ' ∧ rows_at σ' l (num_frames (istft_process p x))).
Proof.
  unfold istft_run. apply post_bind.
  eapply post_mono; [apply post_log|]. intros [] σ1 Hh.
  eapply post_mono; [apply post_alloc|]. intros l σ' [Hext Hl].
  split; [|done].
  eapply extends_trans; [apply (extends_same_heap σ σ1 Hh) | exact Hext].
Qed.

(** The transform, one of the dropouts, the mask, the inverse transform
    and the truncation, as [distorted_target] and [musical_noise] chain
    them. *)
Lemma post_degrade (dropout : Spectrogram → option Q → M Spectrogram)
    (target : loc) (factor lowpass_cutoff : option Q) (num_points : Z)
    (window_type : string) (n : nat) (σ : world) :
  (∀ x f σ0, post (dropout x f) σ0
               (λ x' σ', heap σ' = heap σ0 ∧ layout x' = layout x)) →
  rows_at σ target n →
  post (x_fft ← stft_run (stft_istft num_points window_type).1 target;
        x_fft ← dropout x_fft factor;
        tw ← load target;
        x_fft ← lowpass_mask x_fft lowpass_cutoff num_points (sample_rate tw);
        y ← istft_run (stft_istft num_points window_type).2 x_fft;
        py_slice_to y (num_frames tw)) σ
    (λ l σ', extends σ σ' ∧ rows_at σ' l n).
Proof.
  intros Hdrop (w & Hw & Hn).
  apply post_bind. eapply post_mono; [apply post_stft_run|].
  intros x0 σ1 (Hh1 & w0 & Hw0 & ->).
  assert (w0 = w) as -> by congruence.
  apply post_bind. eapply post_mono; [apply Hdrop|].
  intros x1 σ2 (Hh2 & Hlay1).
  apply post_bind. eapply post_mono; [apply post_load|].
  intros tw σ3 [-> Htw].
  assert (tw = w) as -> by (rewrite Hh2, Hh1 in Htw; congruence).
  apply post_bind. eapply post_mono; [apply post_lowpass_mask|].
  intros x2 σ3 [-> Hlay2].
  apply post_bind. eapply post_mono; [apply post_istft_run|].
  intros y σ3 [Hext3 Hy].
  eapply post_mono; [apply (post_py_slice_to _ _ _ _ Hy)|].
  intros l σ4 [Hext4 Hl]. split.
  - eapply extends_trans; [|exact Hext4].
    eapply extends_trans; [|exact Hext3].
    apply extends_same_heap. now rewrite Hh2, Hh1.
  - rewrite Nat.min_l in Hl; [now rewrite <- Hn|].
    apply Hcovers. now rewrite Hlay2, Hlay1.
Qed.

Lemma post_distorted_target (target : pyarg)
    (distortion_factor lowpass_cutoff : option Q) (num_points : Z)
    (window_type : string) (rate : option Z) (n : nat) (σ : world) :
  arg_rows σ target = Some n →
  post (distorted_target target distortion_factor lowpass_cutoff
          num_points window_type rate) σ
    (λ l σ', extends σ σ' ∧ rows_at σ' l n).
Proof.
  intros Hn. unfold distorted_target.
  apply post_bind. eapply post_mono; [apply post_as_wave|].
  intros t σ1 [Hext1 Ht]. specialize (Ht n Hn).
  destruct Ht as (w & Hw & Hwn).
  intros l σ' Hrun. cbn [stft_istft] in Hrun.
  apply bind_inv_ok in Hrun as (x0 & σ2 & Hstft & Hrun).
  apply bind_inv_ok in Hrun as (x1 & σ3 & Hfd & Hrun).
  apply bind_inv_ok in Hrun as (tw & σ4 & Hload & Hrun).
  apply bind_inv_ok in Hrun as (x2 & σ5 & Hlp & Hrun).
  apply bind_inv_ok in Hrun as (y & σ6 & Histft & Hrun).
  apply bind_inv_ok in Hrun as (a & σ7 & Hslice & Hrun).
  apply bind_inv_ok in Hrun as (v & σ8 & Hget & Hrun).
  apply bind_inv_ok in Hrun as ([] & σ9 & Hset & [= <- <-]).
  assert (post (x_fft ← stft_run (stft_istft num_points window_type).1 t;
                x_fft ← frame_dropout x_fft distortion_factor;
                tw ← load t;
                x_fft ← lowpass_mask x_fft lowpass_cutoff num_points
                          (sample_rate tw);
                y ← istft_run (stft_istft num_points window_type).2 x_fft;
                py_slice_to y (num_frames tw)) σ1
            (λ l σ', extends σ1 σ' ∧ rows_at σ' l n)) as Hdeg.
  { apply post_degrade; [apply post_frame_dropout | now exists w]. }
  destruct (Hdeg a σ7) as [Hext7 Ha].
  { cbn [stft_istft fst snd].
    rewrite (bind_ok _ _ _ _ _ Hstft), (bind_ok _ _ _ _ _ Hfd).
    rewrite (bind_ok _ _ _ _ _ Hload), (bind_ok _ _ _ _ _ Hlp).
    now rewrite (bind_ok _ _ _ _ _ Histft). }
  apply post_loudness_get in Hget as ->.
  apply post_loudness_set in Hset.
  split; [|now apply Hset].
  eauto using extends_trans.
Qed.

Lemma post_musical_noise (target : pyarg)
    (distortion_factor lowpass_cutoff : option Q) (num_points : Z)
    (window_type : string) (rate : option Z) (n : nat) (σ : world) :
  arg_rows σ target = Some n →
  post (musical_noise target distortion_factor lowpass_cutoff
          num_points window_type rate) σ
    (λ l σ', extends σ σ' ∧ rows_at σ' l n).
Proof.
  intros Hn. unfold musical_noise.
  apply post_bind. eapply post_mono; [apply post_as_wave|].
  intros t σ1 [Hext1 Ht]. specialize (Ht n Hn).
  eapply post_mono.
  - apply (post_degrade bin_dropout); [apply post_bin_dropout | exact Ht].
  - intros l σ' [Hext Hl]. split; [|done]. eauto using extends_trans.
Qed.

End Lengths.

(** ** Interference *)

Section Interference.
Context `{Collaborators}.

Lemma loudness_get_run (σ : world) (l : loc) (w : Wave) :
  heap σ !! l = Some w → loudness_get l σ = (Ok (measure w), σ).
Proof. intros Hl. unfold loudness_get. now mrun. Qed.

Lemma loudness_set_run (σ : world) (l : loc) (w : Wave) (value : Q) :
  heap σ !! l = Some w →
  loudness_set l value σ
  = (Ok tt, mkWorld (<[l := rescaled w value]> (heap σ)) (rng σ) (trace σ)).
Proof. intros Hl. unfold loudness_set. now mrun. Qed.

Lemma wave_plus_run (σ : world) (l l' : loc) (w w' : Wave) :
  heap σ !! l = Some w → heap σ !! l' = Some w' →
  wave_plus l (WaveObj l') σ
  = match np_add (samples w) (samples w') with
    | Ok r =>
        (Ok (length (heap σ)),
         mkWorld (heap σ ++ [mkWave r (sample_rate w)]) (rng σ)
                 (trace σ ++ [EvAdd]))
    | Raise e => (Raise e, logged σ [EvAdd])
    end.
Proof.
  intros Hl Hl'. unfold wave_plus. mrun.
  now destruct (np_add (samples w) (samples w')).
Qed.

(** The outcome of [interference] with [relative_loudness = None], from
    the target and the accompaniment that [target_accompaniment]
    returns. *)
Lemma interference_none_run (σ σ1 : world) (target : pyarg)
    (others : others_arg) (rate : option Z) (t acc : loc) (tw aw : Wave) :
  target_accompaniment target others rate σ = (Ok (t, acc), σ1) →
  heap σ1 !! t = Some tw → heap σ1 !! acc = Some aw →
  interference target others None rate σ
  = match np_add (samples tw) (samples aw) with
    | Ok sum =>
        (Ok (length (heap σ1)),
         mkWorld (heap σ1 ++ [rescaled (mkWave sum (sample_rate tw))
                                       (measure tw)])
                 (rng σ1) (trace σ1 ++ [EvAdd]))
    | Raise e => (Raise e, logged σ1 [EvAdd])
    end.
Proof.
  intros Hta Ht Hacc. unfold interference.
  rewrite bind_run, Hta. cbv beta iota.
  rewrite bind_run, ret_run, bind_run.
  rewrite (wave_plus_run σ1 t acc tw aw Ht Hacc).
  destruct (np_add (samples tw) (samples aw)) as [sum|e]; [|done].
  unfold loudness_get, loudness_set. mrun.
  now rewrite insert_snoc_new.
Qed.

(** With a relative loudness the accompaniment object itself is rescaled,
    whether or not the later addition succeeds. *)
Lemma interference_rescales_accompaniment (σ σ1 : world) (target : pyarg)
    (others : others_arg) (rate : option Z) (t acc : loc) (tw aw : Wave)
    (r : Q) :
  target_accompaniment target others rate σ = (Ok (t, acc), σ1) →
  heap σ1 !! t = Some tw → heap σ1 !! acc = Some aw →
  heap (interference target others (Some r) rate σ).2 !! acc
  = Some (rescaled aw (measure tw + r)).
Proof.
  intros Hta Ht Hacc. unfold interference.
  rewrite bind_run, Hta. cbv beta iota.
  rewrite !bind_run, (loudness_get_run σ1 t tw Ht).
  rewrite (loudness_set_run σ1 acc aw _ Hacc).
  set (aw' := rescaled aw (measure tw + r)).
  set (σ2 := mkWorld (<[acc := aw']> (heap σ1)) (rng σ1) (trace σ1)).
  assert (heap σ2 !! acc = Some aw') as Hacc2.
  { simpl. apply list_lookup_insert_eq. now apply lookup_lt_Some in Hacc. }
  assert (∃ tw2, heap σ2 !! t = Some tw2) as [tw2 Ht2].
  { destruct (decide (acc = t)) as [<-|Hne]; [now exists aw'|].
    exists tw. simpl. now rewrite list_lookup_insert_ne. }
  rewrite bind_run, (wave_plus_run σ2 t acc tw2 aw' Ht2 Hacc2).
  destruct (np_add (samples tw2) (samples aw')) as [sum|e]; [|exact Hacc2].
  unfold loudness_get, loudness_set. mrun.
  rewrite insert_snoc_new. now apply lookup_snoc_old.
Qed.

End Interference.

(** C10. With [relative_loudness = None] the accompaniment, as
    [target_accompaniment] returns it, is read but not rescaled: when numpy
    can add the two buffers, the anchor is a new object that holds their sum
    with its loudness set to the target's, and the target, the
    accompaniment and every other object are left as they were. *)
Theorem interference_without_relative_loudness `{Collaborators}
    (σ σ1 : world) (target : pyarg) (others : others_arg) (rate : option Z)
    (t acc : loc) (tw aw : Wave) (sum : ndarray) :
  target_accompaniment target others rate σ = (Ok (t, acc), σ1) →
  heap σ1 !! t = Some tw → heap σ1 !! acc = Some aw →
  np_add (samples tw) (samples aw) = Ok sum →
  ∃ anchor σ',
    interference target others None rate σ = (Ok anchor, σ') ∧
    heap σ' !! anchor
    = Some (rescaled (mkWave sum (sample_rate tw)) (measure tw)) ∧
    heap σ' !! acc = Some aw ∧ heap σ' !! t = Some tw ∧ keeps σ1 σ'.
Proof.
  intros Hta Ht Hacc Hadd.
  rewrite (interference_none_run σ σ1 target others rate t acc tw aw Hta Ht Hacc).
  rewrite Hadd. eexists _, _. split; [reflexivity|]. cbn [heap].
  split; [apply lookup_snoc_new|].
  split; [now apply lookup_snoc_old|].
  split; [now apply lookup_snoc_old|].
  apply keeps_snoc.
Qed.

Lemma interference_without_relative_loudness_witness :
  ∃ anchor σ',
    interference (WaveObj 0%nat) (OthersSingle (WaveObj 1%nat)) None None
      Double.studio = (Ok anchor, σ') ∧
    heap σ' !! anchor
    = Some (rescaled
              (mkWave [[(1 # 2) + (1 # 8); (1 # 4) + (1 # 8)];
                       [-(1 # 4) + (1 # 4); (1 # 8) + (1 # 4)];
                       [(1 # 8) + -(1 # 8); 0 + -(1 # 8)];
                       [(1 # 2) + (1 # 16); (1 # 2) + (1 # 16)]]
                      (Some 44100%Z))
              (measure Double.stereo)) ∧
    heap σ' !! 1%nat = Some Double.mono ∧
    heap σ' !! 0%nat = Some Double.stereo ∧
    keeps Double.studio σ'.
Proof.
  apply (@interference_without_relative_loudness Double.collaborators
           Double.studio Double.studio (WaveObj 0%nat)
           (OthersSingle (WaveObj 1%nat)) None 0%nat 1%nat
           Double.stereo Double.mono).
  - reflexivity.
  - reflexivity.
  - reflexivity.
  - reflexivity.
Defined.


(** ** Where a [ValueError] can come from *)

Create HintDb raised.

Section Provenance.
Context `{Collaborators}.
Variable P : event → Prop.

Lemma raised_bind {A B} (m : M A) (k : A → M B) :
  raised_after P m → (∀ a, raised_after P (k a)) →
  raised_after P (m ≫= k).
Proof.
  intros Hm Hk σ σ'. rewrite bind_run.
  destruct (m σ) as [[a|e] σ1] eqn:Hrun.
  - apply Hk.
  - intros [= -> <-]. now apply (Hm σ σ1).
Qed.

Lemma raised_ret {A} (a : A) : raised_after P (mret a : M A).
Proof. intros σ σ' Hrun. discriminate Hrun. Qed.

Lemma raised_raise {A} (e : exn) :
  e ≠ ValueError → raised_after P (raise e : M A).
Proof. intros He σ σ' [= -> _]. done. Qed.

Lemma raised_load (l : loc) : raised_after P (load l).
Proof. intros σ σ'. unfold load. now destruct (heap σ !! l). Qed.

Lemma raised_alloc (w : Wave) : raised_after P (alloc w).
Proof. intros σ σ' Hrun. discriminate Hrun. Qed.

Lemma raised_store (l : loc) (w : Wave) : raised_after P (store l w).
Proof. intros σ σ' Hrun. discriminate Hrun. Qed.

Lemma raised_log (e : event) : raised_after P (log e).
Proof. intros σ σ' Hrun. discriminate Hrun. Qed.

#[local] Hint Resolve raised_ret raised_load raised_alloc raised_store raised_log
  : raised.

Ltac raised :=
  repeat first
    [ solve [auto with raised]
    | apply raised_raise; discriminate
    | apply raised_bind; [|intros] ].

Lemma raised_loudness_get (l : loc) : raised_after P (loudness_get l).
Proof. unfold loudness_get. raised. Qed.

Lemma raised_loudness_set (l : loc) (value : Q) :
  raised_after P (loudness_set l value).
Proof. unfold loudness_set. raised. Qed.

Lemma raised_attr_loudness (x : pyarg) : raised_after P (attr_loudness x).
Proof.
  destruct x; simpl; [raised | apply raised_loudness_get].
Qed.

Lemma raised_Wave_new (x : pyarg) (rate : option Z) :
  raised_after P (Wave_new x rate).
Proof. destruct x; simpl; raised. Qed.

Lemma raised_as_wave (x : pyarg) (rate : option Z) :
  raised_after P (as_wave x rate).
Proof. destruct x; simpl; raised. Qed.

Lemma raised_py_slice_to (l : loc) (n : nat) :
  raised_after P (py_slice_to l n).
Proof. unfold py_slice_to. raised. Qed.

Lemma raised_stft_run (p : Processor) (l : loc) :
  raised_after P (stft_run p l).
Proof. unfold stft_run. raised. Qed.

Lemma raised_istft_run (p : Processor) (x : Spectrogram) :
  raised_after P (istft_run p x).
Proof. unfold istft_run. raised. Qed.

Lemma raised_lowpass_mask (x : Spectrogram) (lowpass_cutoff : option Q)
    (num_points : Z) (rate : option Z) :
  raised_after P (lowpass_mask x lowpass_cutoff num_points rate).
Proof.
  unfold lowpass_mask. destruct lowpass_cutoff; [destruct rate|]; raised.
Qed.

#[local] Hint Resolve raised_loudness_get raised_loudness_set raised_attr_loudness
  raised_Wave_new raised_as_wave raised_py_slice_to raised_stft_run
  raised_istft_run raised_lowpass_mask : raised.

Lemma raised_mapM {A B} (f : A → M B) (xs : list A) :
  (∀ x, raised_after P (f x)) → raised_after P (mapM f xs).
Proof. intros Hf. induction xs as [|x xs IH]; simpl; raised. Qed.

Lemma raised_forM_ {A} (xs : list A) (f : A → M unit) :
  (∀ x, raised_after P (f x)) → raised_after P (forM_ xs f).
Proof. intros Hf. induction xs as [|x xs IH]; simpl; raised. Qed.

Lemma raised_foldlM {A B} (f : A → B → M A) (acc : A) (xs : list B) :
  (∀ a x, raised_after P (f a x)) → raised_after P (foldlM f acc xs).
Proof.
  intros Hf. revert acc. induction xs as [|x xs IH]; intros acc; simpl; raised.
Qed.

Section WithAdd.
Hypothesis Hadd : P EvAdd.

(** An addition that numpy refuses fails after its [EvAdd]. *)
Lemma raised_wave_plus (l : loc) (y : pyarg) :
  raised_after P (wave_plus l y).
Proof.
  unfold wave_plus. apply raised_bind; [raised|]. intros w.
  apply raised_bind; [destruct y; raised|]. intros b.
  intros σ σ'. rewrite bind_run, log_run, bind_run, lift_run.
  destruct (np_add (samples w) b) as [r|e]; [discriminate|].
  intros [= -> <-]. now exists (trace σ), EvAdd.
Qed.

Lemma raised_py_sum (first : loc) (rest : list pyarg) :
  raised_after P (py_sum first rest).
Proof.
  unfold py_sum. raised. apply raised_foldlM. apply raised_wave_plus.
Qed.

#[local] Hint Resolve raised_wave_plus raised_py_sum : raised.

Lemma raised_target_accompaniment (target : pyarg) (others : others_arg)
    (rate : option Z) :
  raised_after P (target_accompaniment target others rate).
Proof.
  unfold target_accompaniment. apply raised_bind; [|intros; raised].
  destruct others as [[|[a|first] rest]|x]; raised.
  apply raised_mapM. auto with raised.
Qed.

Lemma raised_interference (target : pyarg) (others : others_arg)
    (relative_loudness : option Q) (rate : option Z) :
  raised_after P (interference target others relative_loudness rate).
Proof.
  unfold interference.
  apply raised_bind; [apply raised_target_accompaniment|].
  intros [t acc]. apply raised_bind; [destruct relative_loudness; raised|].
  intros _. apply raised_bind; [apply raised_wave_plus|]. intros. raised.
Qed.

Section WithChoice.
Hypothesis Hchoice : ∀ population size, P (EvChoice population size).

(** A request that the sampler refuses fails after its [EvChoice]. *)
Lemma raised_np_random_choice (population : nat) (size : Z) :
  raised_after P (np_random_choice population size).
Proof.
  intros σ σ'. unfold np_random_choice. rewrite bind_run, log_run.
  destruct ((size <? 0)%Z || (Z.of_nat population <? size)%Z).
  - intros [= <-]. now exists (trace σ), (EvChoice population size).
  - now destruct (choice_draw _ _ _).
Qed.

#[local] Hint Resolve raised_np_random_choice : raised.

(** Taking the count fails with [OverflowError] only. *)
Lemma raised_dropout_count (n : nat) (factor : Q) :
  raised_after P (lift (dropout_count n factor)).
Proof.
  intros σ σ'. rewrite lift_run. unfold dropout_count.
  destruct (float_overflow _); [discriminate|]. cbv zeta.
  destruct (float_overflow _); discriminate.
Qed.

#[local] Hint Resolve raised_dropout_count : raised.

Lemma raised_frame_dropout (x : Spectrogram) (factor : option Q) :
  raised_after P (frame_dropout x factor).
Proof. destruct factor; unfold frame_dropout; raised. Qed.

Lemma raised_bin_dropout (x : Spectrogram) (factor : option Q) :
  raised_after P (bin_dropout x factor).
Proof. destruct factor; unfold bin_dropout; raised. Qed.

#[local] Hint Resolve raised_frame_dropout raised_bin_dropout : raised.

Lemma raised_distorted_target (target : pyarg)
    (distortion_factor lowpass_cutoff : option Q) (num_points : Z)
    (window_type : string) (rate : option Z) :
  raised_after P (distorted_target target distortion_factor
                    lowpass_cutoff num_points window_type rate).
Proof. unfold distorted_target. raised. Qed.

Lemma raised_musical_noise (target : pyarg)
    (distortion_factor lowpass_cutoff : option Q) (num_points : Z)
    (window_type : string) (rate : option Z) :
  raised_after P (musical_noise target distortion_factor
                    lowpass_cutoff num_points window_type rate).
Proof. unfold musical_noise. raised. Qed.

Lemma raised_overall_quality (target : pyarg) (others : others_arg)
    (dft dfn lct lcn relative_loudness : option Q) (num_points : Z)
    (window_type : string) (rate : option Z) :
  raised_after P (overall_quality target others dft dfn lct lcn
                    relative_loudness num_points window_type rate).
Proof.
  unfold overall_quality.
  apply raised_bind; [apply raised_target_accompaniment|].
  intros [t acc].
  apply raised_bind; [apply raised_distorted_target|]. intros dt.
  apply raised_bind; [apply raised_musical_noise|]. intros mn.
  apply raised_bind; [apply raised_forM_; auto with raised|]. intros _.
  apply raised_bind; [destruct relative_loudness; raised|]. intros _.
  apply raised_bind; [apply raised_py_sum|]. intros total. raised.
Qed.

End WithChoice.
End WithAdd.
End Provenance.

(** ** Mismatched sources *)

Lemma same_shape_scale (a : ndarray) (gain : Q) : same_shape (np_scale a gain) a.
Proof.
  unfold same_shape, np_scale, np_rows, np_cols. split; [apply length_map|].
  destruct a as [|row rest]; simpl; [done | apply length_map].
Qed.

(** Whether numpy can add two arrays depends on their shapes only. *)
Lemma np_add_ok_shape (a a' b b' : ndarray) :
  same_shape a a' → same_shape b b' →
  is_ok (np_add a b) = is_ok (np_add a' b').
Proof.
  intros [Har Hac] [Hbr Hbc]. unfold np_add. rewrite Har, Hac, Hbr, Hbc.
  destruct (broadcast_dim (np_rows a') (np_rows b')); [|done].
  now destruct (broadcast_dim (np_cols a') (np_cols b')).
Qed.

Section Mismatch.
Context `{Collaborators}.

Lemma interference_ok_iff_broadcast (σ : world) (t a : loc) (tw aw : Wave)
    (relative_loudness : option Q) (rate : option Z) :
  heap σ !! t = Some tw → heap σ !! a = Some aw →
  is_ok (interference (WaveObj t) (OthersSingle (WaveObj a))
           relative_loudness rate σ).1
  = is_ok (np_add (samples tw) (samples aw)).
Proof.
  intros Ht Ha.
  assert (target_accompaniment (WaveObj t) (OthersSingle (WaveObj a)) rate σ
          = (Ok (t, a), σ)) as Hta by reflexivity.
  destruct relative_loudness as [r|].
  - unfold interference. rewrite bind_run, Hta. cbv beta iota.
    rewrite !bind_run, (loudness_get_run σ t tw Ht).
    rewrite (loudness_set_run σ a aw _ Ha).
    set (aw' := rescaled aw (measure tw + r)).
    set (σ2 := mkWorld (<[a := aw']> (heap σ)) (rng σ) (trace σ)).
    assert (heap σ2 !! a = Some aw') as Ha2.
    { simpl. apply list_lookup_insert_eq. now apply lookup_lt_Some in Ha. }
    assert (∃ tw2, heap σ2 !! t = Some tw2
                   ∧ same_shape (samples tw2) (samples tw)) as (tw2 & Ht2 & Hs).
    { destruct (decide (a = t)) as [<-|Hne].
      - exists aw'. split; [done|].
        assert (tw = aw) as -> by congruence. apply same_shape_scale.
      - exists tw. split; [|done]. simpl. now rewrite list_lookup_insert_ne. }
    rewrite bind_run, (wave_plus_run σ2 t a tw2 aw' Ht2 Ha2).
    rewrite <- (np_add_ok_shape (samples tw2) (samples tw) (samples aw')
                  (samples aw) Hs (same_shape_scale _ _)).
    destruct (np_add (samples tw2) (samples aw')) as [sum|e]; [|done].
    unfold loudness_get, loudness_set. now mrun.
  - rewrite (interference_none_run σ σ (WaveObj t) (OthersSingle (WaveObj a))
               rate t a tw aw Hta Ht Ha).
    now destruct (np_add (samples tw) (samples aw)).
Qed.

End Mismatch.




(** ** The length of the composed anchors *)

Ltac pstep lem := apply post_bind; eapply post_mono; [eapply lem; eauto|].

Section ComposedLengths.
Context `{Collaborators}.
Hypothesis Hcovers : istft_covers.

Lemma post_Wave_new (x : pyarg) (rate : option Z) (n : nat) (σ : world) :
  arg_rows σ x = Some n →
  post (Wave_new x rate) σ (λ l σ', extends σ σ' ∧ rows_at σ' l n).
Proof.
  destruct x as [a|l]; simpl.
  - intros [= <-]. apply post_alloc.
  - intros Hl. pstep post_load. intros w σ' [-> Hw].
    rewrite Hw in Hl. injection Hl as <-.
    exact (post_alloc (mkWave (samples w) rate) σ).
Qed.

Lemma post_mapM_Wave_new (xs : list pyarg) (rate : option Z) (n : nat)
    (σ : world) :
  Forall (λ y, arg_rows σ y = Some n) xs →
  post (mapM (λ x, Wave_new x rate) xs) σ
    (λ ls σ', extends σ σ' ∧ Forall (λ l, rows_at σ' l n) ls).
Proof.
  revert σ. induction xs as [|x xs IH]; intros σ Hall; simpl.
  - apply post_ret. split; [apply extends_refl | done].
  - inversion Hall as [|? ? Hx Hxs]; subst.
    pstep post_Wave_new. intros l σ1 [Hext1 Hl].
    apply post_bind. eapply post_mono.
    { apply IH. eapply Forall_impl; [exact Hxs|].
      intros y Hy. now apply (arg_rows_extends σ σ1). }
    intros ls σ2 [Hext2 Hls]. apply post_ret.
    split; [eauto using extends_trans|].
    constructor; [now apply Hext2 | done].
Qed.

Lemma post_foldlM_wave_plus (rest : list pyarg) (acc : loc) (n : nat)
    (σ : world) :
  rows_at σ acc n → Forall (λ y, arg_rows σ y = Some n) rest →
  post (foldlM wave_plus acc rest) σ
    (λ r σ', extends σ σ' ∧ rows_at σ' r n).
Proof.
  revert acc σ. induction rest as [|y rest IH]; intros acc σ Hacc Hall; simpl.
  - apply post_ret. split; [apply extends_refl | done].
  - inversion Hall as [|? ? Hy Hrest]; subst.
    pstep post_wave_plus. intros acc' σ1 (Hext1 & k & Hk & Hacc').
    rewrite broadcast_dim_same in Hk. injection Hk as <-.
    eapply post_mono.
    { apply IH; [exact Hacc'|]. eapply Forall_impl; [exact Hrest|].
      intros z Hz. now apply (arg_rows_extends σ σ1). }
    intros r σ2 [Hext2 Hr]. split; [eauto using extends_trans | done].
Qed.

Lemma post_py_sum (first : loc) (rest : list pyarg) (n : nat) (σ : world) :
  rows_at σ first n → Forall (λ y, arg_rows σ y = Some n) rest →
  post (py_sum first rest) σ (λ r σ', extends σ σ' ∧ rows_at σ' r n).
Proof.
  intros (w & Hw & Hn) Hall. unfold py_sum.
  pstep post_load. intros w' σ' [-> Hw'].
  assert (w' = w) as -> by congruence.
  pstep post_alloc. intros acc σ1 [Hext1 Hacc].
  eapply post_mono.
  { apply (post_foldlM_wave_plus rest acc n).
    - unfold num_frames, np_radd0, np_rows in *. simpl in Hacc.
      now rewrite length_map, Hn in Hacc.
    - eapply Forall_impl; [exact Hall|].
      intros z Hz. now apply (arg_rows_extends σ σ1). }
  intros r σ2 [Hext2 Hr]. split; [eauto using extends_trans | done].
Qed.

Lemma post_target_accompaniment (target : pyarg) (others : others_arg)
    (rate : option Z) (n : nat) (σ : world) :
  arg_rows σ target = Some n → others_rows σ others n →
  post (target_accompaniment target others rate) σ
    (λ '(t, acc) σ', extends σ σ' ∧ rows_at σ' t n ∧ rows_at σ' acc n).
Proof.
  intros Ht Ho. unfold target_accompaniment. apply post_bind.
  assert (post (match others with
                | OthersList others =>
                    match others with
                    | [] => raise IndexError
                    | WaveObj first :: rest => py_sum first rest
                    | Ndarray a :: rest =>
                        first ← Wave_new (Ndarray a) rate;
                        rest' ← mapM (λ x, Wave_new x rate) rest;
                        py_sum first (map WaveObj rest')
                    end
                | OthersSingle others => as_wave others rate
                end) σ (λ acc σ', extends σ σ' ∧ rows_at σ' acc n)) as Hacc.
  { destruct others as [[|[a|first] rest]|x]; simpl in Ho.
    - apply post_raise.
    - inversion Ho as [|? ? Ha Hrest]; subst.
      pstep post_Wave_new. intros first σ1 [Hext1 Hfirst].
      apply post_bind. eapply post_mono.
      { apply (post_mapM_Wave_new rest rate n).
        eapply Forall_impl; [exact Hrest|].
        intros z Hz. now apply (arg_rows_extends σ σ1). }
      intros ls σ2 [Hext2 Hls].
      eapply post_mono.
      { apply (post_py_sum first (map WaveObj ls) n); [now apply Hext2|].
        apply Forall_forall. intros y Hy.
        apply list_elem_of_fmap_1 in Hy as (l & -> & Hl).
        apply arg_rows_wave. now apply (proj1 (Forall_forall _ _) Hls). }
      intros r σ3 [Hext3 Hr]. split; [eauto using extends_trans | done].
    - inversion Ho as [|? ? Hfirst Hrest]; subst.
      apply post_py_sum; [now apply arg_rows_wave | done].
    - eapply post_mono; [apply post_as_wave|].
      intros l σ1 [Hext1 Hl]. split; [done | now apply Hl]. }
  eapply post_mono; [exact Hacc|]. intros acc σ1 [Hext1 Hacc1].
  pstep post_as_wave. intros t σ2 [Hext2 Ht2].
  apply post_ret. split; [eauto using extends_trans|]. split.
  - apply Ht2. now apply (arg_rows_extends σ σ1).
  - now apply Hext2.
Qed.

Lemma post_forM_loudness_set (ls : list loc) (value : Q) (σ : world) :
  post (forM_ ls (λ signal, loudness_set signal value)) σ
    (λ _ σ', extends σ σ').
Proof.
  revert σ. induction ls as [|l ls IH]; intros σ; simpl.
  - apply post_ret, extends_refl.
  - pstep post_loudness_set. intros [] σ1 Hext1.
    eapply post_mono; [apply IH|]. intros [] σ2 Hext2.
    eauto using extends_trans.
Qed.

Lemma post_artefacts (target : pyarg)
    (distortion_factor lowpass_cutoff : option Q) (num_points : Z)
    (window_type : string) (rate : option Z) (n : nat) (σ : world) :
  arg_rows σ target = Some n →
  post (artefacts target distortion_factor lowpass_cutoff num_points
          window_type rate) σ
    (λ l σ', extends σ σ' ∧ rows_at σ' l n).
Proof.
  intros Hn. unfold artefacts.
  pstep (post_musical_noise Hcovers). intros a σ1 [Hext1 Ha].
  pstep post_attr_loudness. intros v σ' ->.
  pstep post_loudness_set. intros [] σ2 Hext2.
  apply post_bind. eapply post_mono.
  { apply (post_wave_plus a target n n); [now apply Hext2|].
    apply (arg_rows_extends σ σ2); [eauto using extends_trans | done]. }
  intros anchor σ3 (Hext3 & k & Hk & Hanchor).
  rewrite broadcast_dim_same in Hk. injection Hk as <-.
  pstep post_attr_loudness. intros v' σ' ->.
  pstep post_loudness_set. intros [] σ4 Hext4.
  apply post_ret. split; [eauto 6 using extends_trans | now apply Hext4].
Qed.

Lemma post_interference (target : pyarg) (others : others_arg)
    (relative_loudness : option Q) (rate : option Z) (n : nat) (σ : world) :
  arg_rows σ target = Some n → others_rows σ others n →
  post (interference target others relative_loudness rate) σ
    (λ l σ', extends σ σ' ∧ rows_at σ' l n).
Proof.
  intros Hn Ho. unfold interference.
  pstep post_target_accompaniment. intros [t acc] σ1 (Hext1 & Ht & Hacc).
  apply post_bind.
  assert (post (match relative_loudness with
                | Some r =>
                    value ← loudness_get t; loudness_set acc (value + r)
                | None => mret tt
                end) σ1 (λ _ σ', extends σ1 σ')) as Hrel.
  { destruct relative_loudness as [r|].
    - pstep post_loudness_get. intros v σ' ->. apply post_loudness_set.
    - apply post_ret, extends_refl. }
  eapply post_mono; [exact Hrel|]. intros [] σ2 Hext2.
  apply post_bind. eapply post_mono.
  { apply (post_wave_plus t (WaveObj acc) n n); [now apply Hext2|].
    apply arg_rows_wave. now apply Hext2. }
  intros anchor σ3 (Hext3 & k & Hk & Hanchor).
  rewrite broadcast_dim_same in Hk. injection Hk as <-.
  pstep post_loudness_get. intros v σ' ->.
  pstep post_loudness_set. intros [] σ4 Hext4.
  apply post_ret. split; [eauto 6 using extends_trans | now apply Hext4].
Qed.

(** The sum of the listed signals, its truncation and the final
    loudness, as [overall_quality] and [target_sound_quality] end. *)
Lemma post_sum_and_truncate (t first : loc) (rest : list loc) (n : nat)
    (σ : world) :
  rows_at σ t n → rows_at σ first n → Forall (λ l, rows_at σ l n) rest →
  post (total ← py_sum first (map WaveObj rest);
        tw ← load t;
        anchor ← py_slice_to total (num_frames tw);
        value ← loudness_get t;
        loudness_set anchor value;;
        mret anchor) σ
    (λ l σ', extends σ σ' ∧ rows_at σ' l n).
Proof.
  intros Ht Hfirst Hrest.
  apply post_bind. eapply post_mono.
  { apply (post_py_sum first (map WaveObj rest) n); [done|].
    apply Forall_forall. intros y Hy.
    apply list_elem_of_fmap_1 in Hy as (l & -> & Hl).
    apply arg_rows_wave. now apply (proj1 (Forall_forall _ _) Hrest). }
  intros total σ1 [Hext1 Htotal].
  pstep post_load. intros tw σ' [-> Htw].
  assert (num_frames tw = n) as Htwn.
  { destruct (Hext1 t n Ht) as (w & Hw & <-). congruence. }
  apply post_bind. eapply post_mono.
  { apply (post_py_slice_to total (num_frames tw) n). exact Htotal. }
  intros anchor σ2 [Hext2 Hanchor].
  rewrite Htwn, Nat.min_id in Hanchor.
  pstep post_loudness_get. intros v σ' ->.
  pstep post_loudness_set. intros [] σ3 Hext3.
  apply post_ret. split; [eauto using extends_trans | now apply Hext3].
Qed.

Lemma post_overall_quality (target : pyarg) (others : others_arg)
    (dft dfn lct lcn relative_loudness : option Q) (num_points : Z)
    (window_type : string) (rate : option Z) (n : nat) (σ : world) :
  arg_rows σ target = Some n → others_rows σ others n →
  post (overall_quality target others dft dfn lct lcn relative_loudness
          num_points window_type rate) σ
    (λ l σ', extends σ σ' ∧ rows_at σ' l n).
Proof.
  intros Hn Ho. unfold overall_quality.
  pstep post_target_accompaniment. intros [t acc] σ1 (Hext1 & Ht & Hacc).
  apply post_bind. eapply post_mono.
  { apply (post_distorted_target Hcovers (WaveObj t)).
    apply arg_rows_wave. exact Ht. }
  intros dt σ2 [Hext2 Hdt].
  apply post_bind. eapply post_mono.
  { apply (post_musical_noise Hcovers (WaveObj t)).
    apply arg_rows_wave. apply Hext2. exact Ht. }
  intros mn σ3 [Hext3 Hmn].
  pstep post_forM_loudness_set. intros [] σ4 Hext4.
  apply post_bind.
  assert (post (match relative_loudness with
                | Some r => loudness_set acc (-23 + r)
                | None => raise TypeError
                end) σ4 (λ _ σ', extends σ4 σ')) as Hrel.
  { destruct relative_loudness; [apply post_loudness_set | apply post_raise]. }
  eapply post_mono; [exact Hrel|]. intros [] σ5 Hext5.
  eapply post_mono.
  { apply (post_sum_and_truncate t dt [mn; acc] n).
    - apply Hext5, Hext4, Hext3, Hext2, Ht.
    - apply Hext5, Hext4, Hext3, Hdt.
    - repeat constructor.
      + apply Hext5, Hext4, Hmn.
      + apply Hext5, Hext4, Hext3, Hext2, Hacc. }
  intros l σ6 [Hext6 Hl]. split; [eauto 8 using extends_trans | done].
Qed.

Lemma post_target_sound_quality (target : pyarg)
    (dft dfn lct lcn : option Q) (num_points : Z) (window_type : string)
    (rate : option Z) (n : nat) (σ : world) :
  arg_rows σ target = Some n →
  post (target_sound_quality target dft dfn lct lcn num_points window_type
          rate) σ
    (λ l σ', extends σ σ' ∧ rows_at σ' l n).
Proof.
  intros Hn. unfold target_sound_quality.
  pstep post_as_wave. intros t σ1 [Hext1 Ht]. specialize (Ht n Hn).
  apply post_bind. eapply post_mono.
  { apply (post_distorted_target Hcovers (WaveObj t)).
    apply arg_rows_wave. exact Ht. }
  intros dt σ2 [Hext2 Hdt].
  apply post_bind. eapply post_mono.
  { apply (post_musical_noise Hcovers (WaveObj t)).
    apply arg_rows_wave. apply Hext2. exact Ht. }
  intros mn σ3 [Hext3 Hmn].
  pstep post_forM_loudness_set. intros [] σ4 Hext4.
  eapply post_mono.
  { apply (post_sum_and_truncate t dt [mn] n).
    - apply Hext4, Hext3, Hext2, Ht.
    - apply Hext4, Hext3, Hdt.
    - repeat constructor. apply Hext4, Hmn. }
  intros l σ5 [Hext5 Hl]. split; [eauto 8 using extends_trans | done].
Qed.

(** *** Sources of any length *)

Lemma rows_at_fun (σ : world) (l : loc) (n m : nat) :
  rows_at σ l n → rows_at σ l m → n = m.
Proof. intros (w & Hw & <-) (w' & Hw' & <-). congruence. Qed.

(** What broadcasting makes of the target's axis of [n] samples: it is
    stretched only when [n] is 1. *)
Lemma broadcast_dim_target (n m k : nat) :
  broadcast_dim n m = Some k →
  (n ≠ 1%nat → k = n) ∧ (n = 1%nat → k = m).
Proof.
  unfold broadcast_dim. destruct (n =? m)%nat eqn:Hnm.
  - apply Nat.eqb_eq in Hnm. intros [= <-]. split; intros; congruence.
  - destruct (n =? 1)%nat eqn:Hn1.
    + intros [= <-]. split; [|done].
      apply Nat.eqb_eq in Hn1. intros Hne. contradiction.
    + apply Nat.eqb_neq in Hn1. destruct (m =? 1)%nat; [|done].
      intros [= <-]. split; [done|]. intros Heq. contradiction.
Qed.

Lemma post_bind_run {A B} (m : M A) (k : A → M B) (σ : world)
    (Q : B → world → Prop) :
  (∀ a σ1, m σ = (Ok a, σ1) → post (k a) σ1 Q) → post (m ≫= k) σ Q.
Proof.
  intros Hk b σ' Hrun.
  apply bind_inv_ok in Hrun as (a & σ1 & Hma & Hrun).
  exact (Hk a σ1 Hma b σ' Hrun).
Qed.

(** An addition that returns has found both operands, whatever their
    lengths. *)
Lemma post_wave_plus_any (l : loc) (y : pyarg) (σ : world) :
  post (wave_plus l y) σ
    (λ r σ', extends σ σ' ∧
       ∃ n m k, rows_at σ l n ∧ arg_rows σ y = Some m ∧
                broadcast_dim n m = Some k ∧ rows_at σ' r k).
Proof.
  intros r σ' Hrun. pose proof Hrun as Hrun0.
  unfold wave_plus in Hrun.
  apply bind_inv_ok in Hrun as (w & σ0 & Hw & Hrun).
  apply post_load in Hw as [-> Hl].
  assert (∃ m, arg_rows σ y = Some m) as [m Hy].
  { destruct y as [b|l']; simpl; [eauto|].
    apply bind_inv_ok in Hrun as (b & σ0 & Hb & _).
    apply bind_inv_ok in Hb as (w' & σ1 & Hw' & _).
    apply post_load in Hw' as [_ ->]. simpl. eauto. }
  assert (rows_at σ l (num_frames w)) as Hrows by (now exists w).
  destruct (post_wave_plus l y (num_frames w) m σ Hrows Hy r σ' Hrun0)
    as (Hext & k & Hk & Hr).
  split; [done|]. now exists (num_frames w), m, k.
Qed.

Lemma post_wave_plus_extends (l : loc) (y : pyarg) (σ : world) :
  post (wave_plus l y) σ (λ _ σ', extends σ σ').
Proof.
  eapply post_mono; [apply post_wave_plus_any|]. now intros r σ' [Hext _].
Qed.

Lemma post_foldlM_extends (rest : list pyarg) :
  ∀ (acc : loc) (σ : world),
    post (foldlM wave_plus acc rest) σ (λ _ σ', extends σ σ').
Proof.
  induction rest as [|y rest IH]; intros acc σ; simpl.
  - apply post_ret, extends_refl.
  - pstep post_wave_plus_extends. intros acc' σ1 Hext1.
    eapply post_mono; [apply IH|]. intros r σ2 Hext2.
    exact (extends_trans _ _ _ Hext1 Hext2).
Qed.

Lemma post_py_sum_extends (first : loc) (rest : list pyarg) (σ : world) :
  post (py_sum first rest) σ (λ _ σ', extends σ σ').
Proof.
  unfold py_sum. pstep post_load. intros w σ' [-> _].
  pstep post_alloc. intros acc σ1 [Hext1 _].
  eapply post_mono; [apply post_foldlM_extends|]. intros r σ2 Hext2.
  exact (extends_trans _ _ _ Hext1 Hext2).
Qed.

Lemma post_Wave_new_extends (x : pyarg) (rate : option Z) (σ : world) :
  post (Wave_new x rate) σ (λ _ σ', extends σ σ').
Proof.
  destruct x as [a|l]; simpl.
  - eapply post_mono; [apply post_alloc|]. now intros r σ' [Hext _].
  - pstep post_load. intros w σ' [-> _].
    eapply post_mono; [apply post_alloc|]. now intros r σ' [Hext _].
Qed.

Lemma post_mapM_Wave_new_extends (xs : list pyarg) (rate : option Z) :
  ∀ σ, post (mapM (λ x, Wave_new x rate) xs) σ (λ _ σ', extends σ σ').
Proof.
  induction xs as [|x xs IH]; intros σ; simpl.
  - apply post_ret, extends_refl.
  - pstep post_Wave_new_extends. intros l σ1 Hext1.
    apply post_bind. eapply post_mono; [apply IH|]. intros ls σ2 Hext2.
    apply post_ret. exact (extends_trans _ _ _ Hext1 Hext2).
Qed.

(** Whatever [others] holds, the target that [target_accompaniment]
    returns has the samples of the target it was given. *)
Lemma post_target_accompaniment_target (target : pyarg) (others : others_arg)
    (rate : option Z) (n : nat) (σ : world) :
  arg_rows σ target = Some n →
  post (target_accompaniment target others rate) σ
    (λ '(t, _) σ', extends σ σ' ∧ rows_at σ' t n).
Proof.
  intros Ht. unfold target_accompaniment. apply post_bind.
  assert (post (match others with
                | OthersList others =>
                    match others with
                    | [] => raise IndexError
                    | WaveObj first :: rest => py_sum first rest
                    | Ndarray a :: rest =>
                        first ← Wave_new (Ndarray a) rate;
                        rest' ← mapM (λ x, Wave_new x rate) rest;
                        py_sum first (map WaveObj rest')
                    end
                | OthersSingle others => as_wave others rate
                end) σ (λ _ σ', extends σ σ')) as Hacc.
  { destruct others as [[|[a|first] rest]|x].
    - apply post_raise.
    - pstep post_Wave_new_extends. intros first σ1 Hext1.
      pstep post_mapM_Wave_new_extends. intros ls σ2 Hext2.
      eapply post_mono; [apply post_py_sum_extends|]. intros r σ3 Hext3.
      exact (extends_trans _ _ _ (extends_trans _ _ _ Hext1 Hext2) Hext3).
    - apply post_py_sum_extends.
    - eapply post_mono; [apply post_as_wave|]. now intros l σ1 [Hext1 _]. }
  eapply post_mono; [exact Hacc|]. intros acc σ1 Hext1. cbv beta in Hext1.
  pstep post_as_wave. intros t σ2 [Hext2 Ht2].
  apply post_ret. split; [exact (extends_trans _ _ _ Hext1 Hext2)|].
  apply Ht2. now apply (arg_rows_extends σ σ1).
Qed.

(** [interference]: the anchor is the target broadcast against the
    accompaniment, and nothing is cut. *)
Lemma post_interference_any (target : pyarg) (others : others_arg)
    (relative_loudness : option Q) (rate : option Z) (n : nat) (σ : world) :
  arg_rows σ target = Some n →
  post (interference target others relative_loudness rate) σ
    (λ anchor σ', ∃ t acc σ1 m k,
       target_accompaniment target others rate σ = (Ok (t, acc), σ1) ∧
       rows_at σ' acc m ∧ broadcast_dim n m = Some k ∧
       rows_at σ' anchor k).
Proof.
  intros Hn. unfold interference. apply post_bind_run.
  intros [t acc] σ1 Hta.
  pose proof (post_target_accompaniment_target target others rate n σ Hn
                _ _ Hta) as [Hext1 Ht].
  apply post_bind.
  assert (post (match relative_loudness with
                | Some r =>
                    value ← loudness_get t; loudness_set acc (value + r)
                | None => mret tt
                end) σ1 (λ _ σ', extends σ1 σ')) as Hrel.
  { destruct relative_loudness as [r|].
    - pstep post_loudness_get. intros v σ' ->. apply post_loudness_set.
    - apply post_ret, extends_refl. }
  eapply post_mono; [exact Hrel|]. intros [] σ2 Hext2.
  pstep post_wave_plus_any.
  intros anchor σ3 (Hext3 & n' & m & k & Hn' & Hm & Hk & Hanchor).
  assert (n' = n) as ->.
  { eapply rows_at_fun; [exact Hn' | apply Hext2, Ht]. }
  apply arg_rows_wave in Hm.
  pstep post_loudness_get. intros v σ' ->.
  pstep post_loudness_set. intros [] σ4 Hext4.
  apply post_ret. exists t, acc, σ1, m, k. split; [done|].
  split; [apply Hext4, Hext3, Hm|]. split; [done | apply Hext4, Hanchor].
Qed.

(** The sum [0 + first + y + last] when [first] and [y] have [n] samples
    and [last] is any object. *)
Lemma post_py_sum_last (first : loc) (y : pyarg) (last : loc) (n : nat)
    (σ : world) :
  rows_at σ first n → arg_rows σ y = Some n →
  post (py_sum first [y; WaveObj last]) σ
    (λ r σ', extends σ σ' ∧
       ∃ m k, rows_at σ' last m ∧ broadcast_dim n m = Some k ∧
              rows_at σ' r k).
Proof.
  intros (w & Hw & Hwn) Hy. unfold py_sum.
  pstep post_load. intros w' σ' [-> Hw'].
  assert (w' = w) as -> by congruence.
  pstep post_alloc. intros a0 σ1 [Hext1 Ha0].
  assert (rows_at σ1 a0 n) as Ha0n.
  { unfold num_frames, np_radd0, np_rows in *. simpl in Ha0.
    now rewrite length_map, Hwn in Ha0. }
  cbn [foldlM]. apply post_bind. eapply post_mono.
  { apply (post_wave_plus a0 y n n); [done|].
    now apply (arg_rows_extends σ σ1). }
  intros a1 σ2 (Hext2 & k0 & Hk0 & Ha1).
  rewrite broadcast_dim_same in Hk0. injection Hk0 as <-.
  pstep post_wave_plus_any.
  intros a2 σ3 (Hext3 & n' & m & k & Hn' & Hm & Hk & Ha2).
  assert (n' = n) as -> by (eapply rows_at_fun; [exact Hn' | exact Ha1]).
  apply arg_rows_wave in Hm.
  apply post_ret. split; [eauto using extends_trans|].
  exists m, k. split; [now apply Hext3 | done].
Qed.

(** [overall_quality]: the sum of the three components is cut at the
    target's number of samples. *)
Lemma post_overall_quality_any (target : pyarg) (others : others_arg)
    (dft dfn lct lcn relative_loudness : option Q) (num_points : Z)
    (window_type : string) (rate : option Z) (n : nat) (σ : world) :
  arg_rows σ target = Some n →
  post (overall_quality target others dft dfn lct lcn relative_loudness
          num_points window_type rate) σ
    (λ anchor σ', ∃ t acc σ1 m k,
       target_accompaniment target others rate σ = (Ok (t, acc), σ1) ∧
       rows_at σ' acc m ∧ broadcast_dim n m = Some k ∧
       rows_at σ' anchor (n `min` k)).
Proof.
  intros Hn. unfold overall_quality. apply post_bind_run.
  intros [t acc] σ1 Hta.
  pose proof (post_target_accompaniment_target target others rate n σ Hn
                _ _ Hta) as [Hext1 Ht].
  apply post_bind. eapply post_mono.
  { apply (post_distorted_target Hcovers (WaveObj t)).
    apply arg_rows_wave. exact Ht. }
  intros dt σ2 [Hext2 Hdt].
  apply post_bind. eapply post_mono.
  { apply (post_musical_noise Hcovers (WaveObj t)).
    apply arg_rows_wave. apply Hext2. exact Ht. }
  intros mn σ3 [Hext3 Hmn].
  pstep post_forM_loudness_set. intros [] σ4 Hext4.
  apply post_bind.
  assert (post (match relative_loudness with
                | Some r => loudness_set acc (-23 + r)
                | None => raise TypeError
                end) σ4 (λ _ σ', extends σ4 σ')) as Hrel.
  { destruct relative_loudness; [apply post_loudness_set | apply post_raise]. }
  eapply post_mono; [exact Hrel|]. intros [] σ5 Hext5.
  apply post_bind. eapply post_mono.
  { apply (post_py_sum_last dt (WaveObj mn) acc n).
    - apply Hext5, Hext4, Hext3, Hdt.
    - apply arg_rows_wave. apply Hext5, Hext4, Hmn. }
  intros total σ6 (Hext6 & m & k & Hacc & Hk & Htotal).
  pstep post_load. intros tw σ' [-> Htw].
  assert (num_frames tw = n) as Htwn.
  { destruct (Hext6 t n) as (w & Hw & <-); [|congruence].
    apply Hext5, Hext4, Hext3, Hext2, Ht. }
  apply post_bind. eapply post_mono.
  { apply (post_py_slice_to total (num_frames tw) k). exact Htotal. }
  intros anchor σ7 [Hext7 Hanchor]. rewrite Htwn in Hanchor.
  pstep post_loudness_get. intros v σ' ->.
  pstep post_loudness_set. intros [] σ8 Hext8.
  apply post_ret. exists t, acc, σ1, m, k. split; [done|].
  split; [apply Hext8, Hext7, Hacc|]. split; [done | apply Hext8, Hanchor].
Qed.

End ComposedLengths.

(** C9 (amended). Let the target have [n] samples and let the inverse
    transform return at least as many samples as the transformed Wave had.
    Every anchor returned by [distorted_target], [artefacts] and
    [target_sound_quality] has exactly [n] samples. [overall_quality] cuts
    its sum at the target's number of samples: its anchor has exactly [n]
    samples whenever the accompaniment has a sample at all (and also
    whenever [n] is not 1); only a one-sample target met by an
    accompaniment without samples gives an anchor without samples.
    [interference] cuts nothing: its anchor is the target broadcast against
    the accompaniment, which has exactly [n] samples whenever [n] is not 1
    or every buffer of [others] has [n] samples, and otherwise, for a
    target of one sample, the number of samples of the accompaniment. *)
Theorem anchors_have_target_length `{Collaborators}
    (σ : world) (target : pyarg) (n : nat) :
  istft_covers → arg_rows σ target = Some n →
  (∀ df lc num_points window_type rate anchor σ',
     distorted_target target df lc num_points window_type rate σ
     = (Ok anchor, σ') → rows_at σ' anchor n) ∧
  (∀ df lc num_points window_type rate anchor σ',
     artefacts target df lc num_points window_type rate σ
     = (Ok anchor, σ') → rows_at σ' anchor n) ∧
  (∀ dft dfn lct lcn num_points window_type rate anchor σ',
     target_sound_quality target dft dfn lct lcn num_points window_type rate σ
     = (Ok anchor, σ') → rows_at σ' anchor n) ∧
  (∀ others dft dfn lct lcn relative_loudness num_points window_type rate
     anchor σ',
     overall_quality target others dft dfn lct lcn relative_loudness
       num_points window_type rate σ = (Ok anchor, σ') →
     (n ≠ 1%nat ∨ others_rows σ others n → rows_at σ' anchor n) ∧
     ∃ t acc σ1 m,
       target_accompaniment target others rate σ = (Ok (t, acc), σ1) ∧
       rows_at σ' acc m ∧
       (m ≠ 0%nat → rows_at σ' anchor n) ∧
       (n = 1%nat → m = 0%nat → rows_at σ' anchor 0)) ∧
  (∀ others relative_loudness rate anchor σ',
     interference target others relative_loudness rate σ = (Ok anchor, σ') →
     (n ≠ 1%nat ∨ others_rows σ others n → rows_at σ' anchor n) ∧
     ∃ t acc σ1 m,
       target_accompaniment target others rate σ = (Ok (t, acc), σ1) ∧
       rows_at σ' acc m ∧
       (n = 1%nat → rows_at σ' anchor m)).
Proof.
  intros Hcovers Hn. split; [|split; [|split; [|split]]].
  - intros df lc np wt rate anchor σ' Hrun.
    now apply (post_distorted_target Hcovers target df lc np wt rate n σ Hn).
  - intros df lc np wt rate anchor σ' Hrun.
    now apply (post_artefacts Hcovers target df lc np wt rate n σ Hn).
  - intros dft dfn lct lcn np wt rate anchor σ' Hrun.
    now apply (post_target_sound_quality Hcovers target dft dfn lct lcn np wt
                 rate n σ Hn).
  - intros others dft dfn lct lcn rl np wt rate anchor σ' Hrun.
    destruct (post_overall_quality_any Hcovers target others dft dfn lct lcn
                rl np wt rate n σ Hn anchor σ' Hrun)
      as (t & acc & σ1 & m & k & Hta & Hacc & Hk & Hanchor).
    destruct (broadcast_dim_target n m k Hk) as [Hne Heq].
    split.
    + intros [Hn1|Ho].
      * rewrite (Hne Hn1), Nat.min_id in Hanchor. exact Hanchor.
      * now apply (post_overall_quality Hcovers target others dft dfn lct
                     lcn rl np wt rate n σ Hn Ho).
    + exists t, acc, σ1, m. split; [done|]. split; [done|]. split.
      * intros Hm. destruct (decide (n = 1%nat)) as [Hn1|Hn1].
        -- rewrite (Heq Hn1), Hn1 in Hanchor. rewrite Hn1.
           now replace (1 `min` m)%nat with 1%nat in Hanchor by lia.
        -- rewrite (Hne Hn1), Nat.min_id in Hanchor. exact Hanchor.
      * intros Hn1 Hm. rewrite (Heq Hn1), Hn1, Hm in Hanchor. exact Hanchor.
  - intros others rl rate anchor σ' Hrun.
    destruct (post_interference_any target others rl rate n σ Hn anchor σ'
                Hrun)
      as (t & acc & σ1 & m & k & Hta & Hacc & Hk & Hanchor).
    destruct (broadcast_dim_target n m k Hk) as [Hne Heq].
    split.
    + intros [Hn1|Ho].
      * now rewrite (Hne Hn1) in Hanchor.
      * now apply (post_interference target others rl rate n σ Hn Ho).
    + exists t, acc, σ1, m. split; [done|]. split; [done|].
      intros Hn1. now rewrite (Heq Hn1) in Hanchor.
Qed.

Lemma anchors_have_target_length_witness :
  ∃ anchor σ',
    overall_quality (WaveObj 0%nat) (OthersSingle (WaveObj 1%nat))
      None (Some 0.99) (Some 3500) None (Some 0) 8 "hann" None Double.booth
    = (Ok anchor, σ') ∧
    rows_at Double.booth 0%nat 1 ∧ rows_at Double.booth 1%nat 3 ∧
    rows_at σ' anchor 1.
Proof.
  eexists _, _. split; [vm_compute; reflexivity|].
  split; [now exists Double.blip|]. split; [now exists Double.riff|].
  match goal with
  | |- rows_at ?s ?a _ =>
      assert (overall_quality (WaveObj 0%nat) (OthersSingle (WaveObj 1%nat))
                None (Some 0.99) (Some 3500) None (Some 0) 8 "hann" None
                Double.booth = (Ok a, s)) as Hrun
        by (vm_compute; reflexivity)
  end.
  destruct (proj1 (proj2 (proj2 (proj2
    (@anchors_have_target_length Double.collaborators Double.booth
       (WaveObj 0%nat) 1%nat double_istft_covers eq_refl))))
    _ _ _ _ _ _ _ _ _ _ _ Hrun)
    as [_ (t & acc & σ1 & m & Hta & Hacc & Hrows & _)].
  apply Hrows. intros ->.
  vm_compute in Hta. injection Hta as ? ? ?. subst t acc σ1.
  destruct Hacc as (w & Hw & Hm). vm_compute in Hw.
  injection Hw as ?. subst w. discriminate Hm.
Defined.

(** C9 as stated fails for [interference], which adds the buffers and never
    truncates: a target of one sample and an accompaniment of three are
    broadcast by numpy, and the anchor has three samples. *)
Lemma interference_anchor_longer_than_target :
  arg_rows Double.booth (WaveObj 0%nat) = Some 1%nat ∧
  ∃ anchor σ' w,
    interference (WaveObj 0%nat) (OthersSingle (WaveObj 1%nat)) (Some 0) None
      Double.booth = (Ok anchor, σ') ∧
    heap σ' !! anchor = Some w ∧ num_frames w = 3%nat.
Proof.
  split; [reflexivity|].
  eexists _, _, _. split; [vm_compute; reflexivity|].
  split; reflexivity.
Qed.

(** The one case in which [overall_quality] does not return the target's
    number of samples, with the stand-in services: a target of one sample
    is broadcast against an accompaniment without samples, the sum has no
    sample, and cutting it at one sample leaves it empty. *)
Lemma overall_quality_empty_accompaniment :
  let σ := mkWorld [Double.blip; mkWave [] (Some 44100%Z)] 0%N [] in
  ∃ anchor σ' w,
    overall_quality (WaveObj 0%nat) (OthersSingle (WaveObj 1%nat))
      None (Some 0.99) (Some 3500) None (Some 0) 8 "hann" None σ
    = (Ok anchor, σ') ∧
    heap σ' !! anchor = Some w ∧ num_frames w = 0%nat.
Proof.
  eexists _, _, _. split; [vm_compute; reflexivity|].
  split; reflexivity.
Qed.

(** ** What a call does to the caller's objects *)

Create HintDb safe.

Section Safety.
Context `{Collaborators}.
Variable h0 : list Wave.

Lemma safe_bind {A B} (m : M A) (k : A → M B) (Q : A → Prop) (Q' : B → Prop) :
  safe h0 m Q → (∀ a, Q a → safe h0 (k a) Q') → safe h0 (m ≫= k) Q'.
Proof.
  intros Hm Hk σ Hσ. rewrite bind_run.
  destruct (Hm σ Hσ) as [Hkeep HQ].
  destruct (m σ) as [[a|e] σ1]; simpl in *.
  - apply (Hk a (HQ a eq_refl) σ1 Hkeep).
  - split; [done | discriminate].
Qed.

Lemma safe_weaken {A} (m : M A) (Q Q' : A → Prop) :
  safe h0 m Q → (∀ a, Q a → Q' a) → safe h0 m Q'.
Proof.
  intros Hm HQ σ Hσ. destruct (Hm σ Hσ) as [Hkeep Hres].
  split; [done|]. intros a Ha. auto.
Qed.

Lemma safe_ret {A} (a : A) (Q : A → Prop) : Q a → safe h0 (mret a) Q.
Proof. intros HQ σ Hσ. split; [done|]. now intros a' [= <-]. Qed.

Lemma safe_raise {A} (e : exn) (Q : A → Prop) : safe h0 (raise e) Q.
Proof. intros σ Hσ. split; [done | discriminate]. Qed.

Lemma safe_load (l : loc) : safe h0 (load l) any.
Proof.
  intros σ Hσ. unfold load. now destruct (heap σ !! l).
Qed.

Lemma safe_log (e : event) : safe h0 (log e) any.
Proof. intros σ Hσ. done. Qed.

Lemma safe_lift {A} (r : result A) : safe h0 (lift r) any.
Proof. intros σ Hσ. done. Qed.

(** A new object gets a location that [h0] does not have. *)
Lemma safe_alloc (w : Wave) : safe h0 (alloc w) (fresh h0).
Proof.
  intros σ Hσ. split.
  - intros l w' Hl. simpl. apply lookup_snoc_old. now apply Hσ.
  - intros a [= <-]. unfold fresh.
    destruct (decide (length h0 ≤ length (heap σ))%nat) as [|Hlt]; [done|].
    destruct (lookup_lt_is_Some_2 h0 (length (heap σ))) as [w' Hw']; [lia|].
    apply Hσ, lookup_lt_Some in Hw'. lia.
Qed.

(** Writing to an object made after [h0] keeps [h0]. *)
Lemma safe_store (l : loc) (w : Wave) : fresh h0 l → safe h0 (store l w) any.
Proof.
  intros Hl σ Hσ. split; [|done].
  intros l' w' Hl'. simpl. rewrite list_lookup_insert_ne; [now apply Hσ|].
  apply lookup_lt_Some in Hl'. unfold fresh in Hl. lia.
Qed.

Lemma safe_np_random_choice (population : nat) (size : Z) :
  safe h0 (np_random_choice population size) any.
Proof.
  intros σ Hσ. unfold np_random_choice. rewrite bind_run, log_run.
  destruct ((size <? 0)%Z || (Z.of_nat population <? size)%Z); [done|].
  now destruct (choice_draw _ _ _).
Qed.

#[local] Hint Resolve safe_load safe_log safe_lift safe_alloc
  safe_np_random_choice : safe.

Ltac safe :=
  repeat first
    [ solve [auto with safe]
    | solve [eapply safe_weaken; [auto with safe | done]]
    | apply safe_raise
    | apply safe_ret; done
    | eapply safe_bind; [|intros ? ?] ].

Lemma safe_Wave_new (x : pyarg) (rate : option Z) :
  safe h0 (Wave_new x rate) (fresh h0).
Proof. destruct x; simpl; safe. Qed.

Lemma safe_as_wave (x : pyarg) (rate : option Z) :
  safe h0 (as_wave x rate) any.
Proof.
  destruct x; simpl; [|safe].
  eapply safe_weaken; [apply safe_alloc | done].
Qed.

Lemma safe_loudness_get (l : loc) : safe h0 (loudness_get l) any.
Proof. unfold loudness_get. safe. Qed.

Lemma safe_attr_loudness (x : pyarg) : safe h0 (attr_loudness x) any.
Proof. destruct x; simpl; [safe | apply safe_loudness_get]. Qed.

(** Assigning the loudness of an object made after [h0] keeps [h0]. *)
Lemma safe_loudness_set (l : loc) (value : Q) :
  fresh h0 l → safe h0 (loudness_set l value) any.
Proof.
  intros Hl. unfold loudness_set.
  eapply safe_bind; [apply safe_load|]. intros w _. now apply safe_store.
Qed.

Lemma safe_wave_plus (l : loc) (y : pyarg) :
  safe h0 (wave_plus l y) (fresh h0).
Proof.
  unfold wave_plus.
  eapply safe_bind; [apply safe_load|]. intros w _.
  eapply (safe_bind _ _ any); [destruct y; safe|]. intros b _.
  eapply safe_bind; [apply safe_log|]. intros _ _.
  eapply safe_bind; [apply safe_lift|]. intros r _.
  apply safe_alloc.
Qed.

Lemma safe_py_slice_to (l : loc) (n : nat) :
  safe h0 (py_slice_to l n) (fresh h0).
Proof. unfold py_slice_to. safe. Qed.

Lemma safe_stft_run (p : Processor) (l : loc) : safe h0 (stft_run p l) any.
Proof. unfold stft_run. safe. Qed.

Lemma safe_istft_run (p : Processor) (x : Spectrogram) :
  safe h0 (istft_run p x) (fresh h0).
Proof. unfold istft_run. safe. Qed.

Lemma safe_frame_dropout (x : Spectrogram) (factor : option Q) :
  safe h0 (frame_dropout x factor) any.
Proof. destruct factor; unfold frame_dropout; safe. Qed.

Lemma safe_bin_dropout (x : Spectrogram) (factor : option Q) :
  safe h0 (bin_dropout x factor) any.
Proof. destruct factor; unfold bin_dropout; safe. Qed.

Lemma safe_lowpass_mask (x : Spectrogram) (lowpass_cutoff : option Q)
    (num_points : Z) (rate : option Z) :
  safe h0 (lowpass_mask x lowpass_cutoff num_points rate) any.
Proof.
  unfold lowpass_mask. destruct lowpass_cutoff; [destruct rate|]; safe.
Qed.

#[local] Hint Resolve safe_Wave_new safe_as_wave safe_loudness_get
  safe_attr_loudness safe_loudness_set safe_wave_plus safe_py_slice_to
  safe_stft_run safe_istft_run safe_frame_dropout safe_bin_dropout
  safe_lowpass_mask : safe.

Lemma safe_mapM {A B} (f : A → M B) (xs : list A) (Q : B → Prop) :
  (∀ x, safe h0 (f x) Q) → safe h0 (mapM f xs) any.
Proof.
  intros Hf. induction xs as [|x xs IH]; simpl; [safe|].
  eapply safe_bind; [apply Hf|]. intros y _.
  eapply safe_bind; [apply IH|]. intros ys _. safe.
Qed.

Lemma safe_foldlM_wave_plus (rest : list pyarg) (acc : loc) :
  fresh h0 acc → safe h0 (foldlM wave_plus acc rest) (fresh h0).
Proof.
  revert acc. induction rest as [|y rest IH]; intros acc Hacc; simpl.
  - now apply safe_ret.
  - eapply safe_bind; [apply safe_wave_plus|]. intros acc' Hacc'. now apply IH.
Qed.

(** The sum of a list of buffers is an object of its own. *)
Lemma safe_py_sum (first : loc) (rest : list pyarg) :
  safe h0 (py_sum first rest) (fresh h0).
Proof.
  unfold py_sum. eapply safe_bind; [apply safe_load|]. intros w _.
  eapply safe_bind; [apply safe_alloc|]. intros acc Hacc.
  now apply safe_foldlM_wave_plus.
Qed.

Lemma safe_forM_loudness_set (ls : list loc) (value : Q) :
  Forall (fresh h0) ls →
  safe h0 (forM_ ls (λ signal, loudness_set signal value)) any.
Proof.
  induction 1 as [|l ls Hl Hls IH]; simpl; [safe|].
  eapply safe_bind; [now apply safe_loudness_set|]. intros _ _. exact IH.
Qed.

(** With a list of others the accompaniment is an object of its own. *)
Lemma safe_target_accompaniment_list (target : pyarg) (others : list pyarg)
    (rate : option Z) :
  safe h0 (target_accompaniment target (OthersList others) rate)
    (λ '(_, accompaniment), fresh h0 accompaniment).
Proof.
  unfold target_accompaniment.
  eapply (safe_bind _ _ (fresh h0)).
  - destruct others as [|[a|first] rest]; [apply safe_raise| |apply safe_py_sum].
    eapply safe_bind; [apply safe_Wave_new|]. intros first _.
    eapply safe_bind; [apply (safe_mapM _ _ (fresh h0)); auto with safe|].
    intros rest' _. apply safe_py_sum.
  - intros acc Hacc. eapply safe_bind; [apply safe_as_wave|].
    intros t _. now apply safe_ret.
Qed.

Lemma safe_distorted_target (target : pyarg)
    (distortion_factor lowpass_cutoff : option Q) (num_points : Z)
    (window_type : string) (rate : option Z) :
  safe h0 (distorted_target target distortion_factor lowpass_cutoff
             num_points window_type rate) (fresh h0).
Proof.
  unfold distorted_target.
  eapply safe_bind; [apply safe_as_wave|]. intros t _. cbn [stft_istft].
  eapply safe_bind; [apply safe_stft_run|]. intros x0 _.
  eapply safe_bind; [apply safe_frame_dropout|]. intros x1 _.
  eapply safe_bind; [apply safe_load|]. intros tw _.
  eapply safe_bind; [apply safe_lowpass_mask|]. intros x2 _.
  eapply safe_bind; [apply safe_istft_run|]. intros y _.
  eapply safe_bind; [apply safe_py_slice_to|]. intros anchor Hanchor.
  eapply safe_bind; [apply safe_loudness_get|]. intros value _.
  eapply safe_bind; [now apply safe_loudness_set|]. intros _ _.
  now apply safe_ret.
Qed.

Lemma safe_musical_noise (target : pyarg)
    (distortion_factor lowpass_cutoff : option Q) (num_points : Z)
    (window_type : string) (rate : option Z) :
  safe h0 (musical_noise target distortion_factor lowpass_cutoff
             num_points window_type rate) (fresh h0).
Proof.
  unfold musical_noise.
  eapply safe_bind; [apply safe_as_wave|]. intros t _. cbn [stft_istft].
  eapply safe_bind; [apply safe_stft_run|]. intros x0 _.
  eapply safe_bind; [apply safe_bin_dropout|]. intros x1 _.
  eapply safe_bind; [apply safe_load|]. intros tw _.
  eapply safe_bind; [apply safe_lowpass_mask|]. intros x2 _.
  eapply safe_bind; [apply safe_istft_run|]. intros y _.
  apply safe_py_slice_to.
Qed.

Lemma safe_artefacts (target : pyarg)
    (distortion_factor lowpass_cutoff : option Q) (num_points : Z)
    (window_type : string) (rate : option Z) :
  safe h0 (artefacts target distortion_factor lowpass_cutoff
             num_points window_type rate) (fresh h0).
Proof.
  unfold artefacts.
  eapply safe_bind; [apply safe_musical_noise|]. intros a Ha.
  eapply safe_bind; [apply safe_attr_loudness|]. intros value _.
  eapply safe_bind; [now apply safe_loudness_set|]. intros _ _.
  eapply safe_bind; [apply safe_wave_plus|]. intros anchor Hanchor.
  eapply safe_bind; [apply safe_attr_loudness|]. intros value' _.
  eapply safe_bind; [now apply safe_loudness_set|]. intros _ _.
  now apply safe_ret.
Qed.

Lemma safe_sum_and_truncate (t first : loc) (rest : list pyarg) :
  safe h0 (total ← py_sum first rest;
           tw ← load t;
           anchor ← py_slice_to total (num_frames tw);
           value ← loudness_get t;
           loudness_set anchor value;;
           mret anchor) (fresh h0).
Proof.
  eapply safe_bind; [apply safe_py_sum|]. intros total _.
  eapply safe_bind; [apply safe_load|]. intros tw _.
  eapply safe_bind; [apply safe_py_slice_to|]. intros anchor Hanchor.
  eapply safe_bind; [apply safe_loudness_get|]. intros value _.
  eapply safe_bind; [now apply safe_loudness_set|]. intros _ _.
  now apply safe_ret.
Qed.

Lemma safe_target_sound_quality (target : pyarg)
    (dft dfn lct lcn : option Q) (num_points : Z) (window_type : string)
    (rate : option Z) :
  safe h0 (target_sound_quality target dft dfn lct lcn num_points
             window_type rate) (fresh h0).
Proof.
  unfold target_sound_quality.
  eapply safe_bind; [apply safe_as_wave|]. intros t _.
  eapply safe_bind; [apply safe_distorted_target|]. intros dt Hdt.
  eapply safe_bind; [apply safe_musical_noise|]. intros mn Hmn.
  eapply safe_bind.
  { apply safe_forM_loudness_set. repeat constructor; done. }
  intros _ _. apply safe_sum_and_truncate.
Qed.

Lemma safe_interference_list (target : pyarg) (others : list pyarg)
    (relative_loudness : option Q) (rate : option Z) :
  safe h0 (interference target (OthersList others) relative_loudness rate)
    (fresh h0).
Proof.
  unfold interference.
  eapply safe_bind; [apply safe_target_accompaniment_list|].
  intros [t acc] Hacc.
  eapply (safe_bind _ _ any).
  { destruct relative_loudness; [|now apply safe_ret].
    eapply safe_bind; [apply safe_loudness_get|]. intros value _.
    now apply safe_loudness_set. }
  intros _ _.
  eapply safe_bind; [apply safe_wave_plus|]. intros anchor Hanchor.
  eapply safe_bind; [apply safe_loudness_get|]. intros value _.
  eapply safe_bind; [now apply safe_loudness_set|]. intros _ _.
  now apply safe_ret.
Qed.

Lemma safe_overall_quality_list (target : pyarg) (others : list pyarg)
    (dft dfn lct lcn relative_loudness : option Q) (num_points : Z)
    (window_type : string) (rate : option Z) :
  safe h0 (overall_quality target (OthersList others) dft dfn lct lcn
             relative_loudness num_points window_type rate) (fresh h0).
Proof.
  unfold overall_quality.
  eapply safe_bind; [apply safe_target_accompaniment_list|].
  intros [t acc] Hacc.
  eapply safe_bind; [apply safe_distorted_target|]. intros dt Hdt.
  eapply safe_bind; [apply safe_musical_noise|]. intros mn Hmn.
  eapply safe_bind.
  { apply safe_forM_loudness_set. repeat constructor; done. }
  intros _ _.
  eapply (safe_bind _ _ any).
  { destruct relative_loudness; [now apply safe_loudness_set | apply safe_raise]. }
  intros _ _. apply safe_sum_and_truncate.
Qed.

End Safety.

Lemma safe_keeps `{Collaborators} {A} (m : M A) (Q : A → Prop) (σ : world) :
  safe (heap σ) m Q → keeps σ (m σ).2.
Proof. intros Hm. apply (Hm σ). now intros l w. Qed.

(** ** Side effects on the caller's objects *)




(** * Further properties *)

(** ** The clip guard on every batch *)

Lemma fold_Qmax_lub (xs : list Q) (x bound : Q) :
  x <= bound → Forall (λ y, y <= bound) xs → fold_left Qmax xs x <= bound.
Proof.
  revert x. induction xs as [|y ys IH]; intros x Hx Hall; simpl; [done|].
  inversion Hall as [|? ? Hy Hys]; subst.
  apply IH; [now apply Q.max_lub | done].
Qed.

Lemma concat_np_scale (audio : ndarray) (gain : Q) :
  concat (np_scale audio gain) = map (λ s, s * gain) (concat audio).
Proof. unfold np_scale. now rewrite <- concat_map. Qed.

(** The loop returns exactly when every buffer has a sample; its result
    bounds the start value and every sample of the batch. *)
Lemma scan_peaks_inv (buffers : list ndarray) (start max_peak : Q) :
  scan_peaks buffers start = Ok max_peak →
  start <= max_peak ∧
  Forall (λ audio, concat audio ≠ []) buffers ∧
  Forall (λ s, Qabs s <= max_peak) (all_samples buffers).
Proof.
  revert start. induction buffers as [|audio rest IH]; intros start; simpl.
  - intros [= <-]. split; [lra|]. split; constructor.
  - rewrite np_max_abs_peak.
    destruct (buffer_peak audio) as [p|] eqn:Hp; simpl; [|done].
    intros Hscan. destruct (IH _ Hscan) as (Hge & Hne & Hbound).
    pose proof (update_peak_max p start) as Hupd.
    assert (start <= max_peak ∧ p <= max_peak) as [Hs Hpm].
    { rewrite Hupd in Hge. split.
      - eapply Qle_trans; [apply (Q.le_max_l start p) | exact Hge].
      - eapply Qle_trans; [apply (Q.le_max_r start p) | exact Hge]. }
    split; [done|]. split.
    + constructor; [|done]. unfold buffer_peak in Hp.
      now destruct (concat audio).
    + unfold all_samples in *. simpl. rewrite concat_app.
      apply Forall_app. split; [|done].
      apply Forall_forall. intros s Hs'.
      eapply Qle_trans; [apply (buffer_peak_bound audio p s Hp Hs') | done].
Qed.

Lemma scan_peaks_raises (buffers : list ndarray) (start : Q) :
  Exists (λ audio, concat audio = []) buffers →
  scan_peaks buffers start = Raise ValueError.
Proof.
  intros Hex. revert start.
  induction Hex as [audio rest Hempty|audio rest Hex IH]; intros start; simpl.
  - rewrite np_max_abs_peak. unfold buffer_peak. now rewrite Hempty.
  - rewrite np_max_abs_peak.
    destruct (buffer_peak audio) as [p|]; simpl; [apply IH | done].
Qed.

Lemma scan_peaks_returns (buffers : list ndarray) (start : Q) :
  Forall (λ audio, concat audio ≠ []) buffers →
  ∃ max_peak, scan_peaks buffers start = Ok max_peak.
Proof.
  intros Hall. revert start.
  induction Hall as [|audio rest Hne Hall IH]; intros start; simpl.
  - now eexists.
  - rewrite np_max_abs_peak. unfold buffer_peak.
    destruct (concat audio) as [|x xs]; [done|]. simpl. apply IH.
Qed.

(** A batch whose samples stay within 1 leaves the start value 1 of the
    loop as it is. *)
Lemma scan_peaks_quiet (buffers : list ndarray) :
  Forall (λ audio, concat audio ≠ []) buffers →
  Forall (λ s, Qabs s <= 1) (all_samples buffers) →
  scan_peaks buffers 1 = Ok 1.
Proof.
  unfold all_samples.
  induction 1 as [|audio rest Hne Hall IH]; intros Hbound; simpl; [done|].
  simpl in Hbound. rewrite concat_app in Hbound.
  apply Forall_app in Hbound as [Hhead Htail].
  rewrite np_max_abs_peak. unfold buffer_peak.
  destruct (concat audio) as [|x xs]; [done|]. simpl.
  inversion Hhead as [|? ? Hx Hxs]; subst.
  assert (fold_left Qmax (map Qabs xs) (Qabs x) <= 1) as Hle.
  { apply fold_Qmax_lub; [done|]. apply Forall_forall. intros y Hy.
    apply list_elem_of_fmap_1 in Hy as (s & -> & Hs).
    now apply (proj1 (Forall_forall _ _) Hxs). }
  apply Qgtb_false in Hle. rewrite Hle. now apply IH.
Qed.

Lemma ensure_inv (buffers : list ndarray) (printed : list string)
    (arrays : list ndarray) :
  ensure_audio_doesnt_clip buffers = Ok (printed, arrays) →
  ∃ max_peak,
    scan_peaks buffers 1 = Ok max_peak ∧ 1 <= max_peak ∧
    printed = [clip_warning] ∧
    arrays = map (λ audio, np_scale audio (0.999 / max_peak)) buffers.
Proof.
  unfold ensure_audio_doesnt_clip.
  destruct (scan_peaks buffers 1) as [m|e] eqn:Hscan; simpl; [|done].
  destruct (scan_peaks_inv buffers 1 m Hscan) as (Hge & _ & _).
  assert (Qgeb m 1 = true) as -> by now apply Qle_bool_iff.
  intros [= <- <-]. now exists m.
Qed.

(** The batch scaled by [0.999 / max_peak] is within range. *)
Lemma scaled_batch_bound (buffers : list ndarray) (max_peak : Q) :
  scan_peaks buffers 1 = Ok max_peak →
  Forall (λ s, Qabs s <= 0.999)
    (all_samples (map (λ audio, np_scale audio (0.999 / max_peak)) buffers)).
Proof.
  intros Hscan.
  destruct (scan_peaks_inv buffers 1 max_peak Hscan) as (Hge & _ & Hbound).
  rewrite all_samples_scaled. apply Forall_forall. intros s Hs.
  apply list_elem_of_fmap_1 in Hs as (s0 & -> & Hs0).
  apply scaled_sample_bound with max_peak; [|done..].
  now apply (proj1 (Forall_forall _ _) Hbound).
Qed.

(** X1. Whenever the guard returns, it has printed its warning and
    returned the batch with every sample of every buffer multiplied by one
    gain, and that gain is positive and at most 0.999: the branch that
    returns the list as it was passed is never taken. *)
Theorem clip_guard_always_attenuates (buffers : list ndarray)
    (printed : list string) (arrays : list ndarray) :
  ensure_audio_doesnt_clip buffers = Ok (printed, arrays) →
  printed = [clip_warning] ∧
  ∃ gain, 0 < gain ∧ gain <= 0.999 ∧
    arrays = map (map (map (λ s, s * gain))) buffers.
Proof.
  intros Hrun. destruct (ensure_inv _ _ _ Hrun) as (m & _ & Hge & -> & ->).
  split; [done|]. exists (0.999 / m).
  assert (0 < m) as Hm by lra.
  split; [apply Qlt_shift_div_l; [done | lra]|].
  split; [apply Qle_shift_div_r; [done | lra] | done].
Qed.

Lemma clip_guard_always_attenuates_witness :
  [clip_warning] = [clip_warning] ∧
  ∃ gain, 0 < gain ∧ gain <= 0.999 ∧
    [[[(1 # 4) * (0.999 / 1)]]; [[-(1 # 2) * (0.999 / 1)]]]
    = [[[(1 # 4) * gain]]; [[-(1 # 2) * gain]]].
Proof.
  apply (clip_guard_always_attenuates [[[1 # 4]]; [[-(1 # 2)]]]).
  reflexivity.
Defined.

(** X2. Whatever the peak of the batch, a returned batch is the batch it
    was passed with every sample multiplied by 0.999 / max(1, peak), and no
    sample of it reaches the magnitude 1 at which audio clips. (In exact
    arithmetic no sample exceeds 0.999; the program's binary64 product can
    pass 0.999 by its rounding, which is why the bound stated is 1.) *)
Theorem clip_guard_output_never_clips (buffers : list ndarray)
    (printed : list string) (arrays : list ndarray) :
  ensure_audio_doesnt_clip buffers = Ok (printed, arrays) →
  ∃ gain,
    arrays = map (map (map (λ s, s * gain))) buffers ∧
    (∀ p, batch_peak buffers = Some p → gain == 0.999 / Qmax 1 p) ∧
    (buffers = [] → gain == 0.999) ∧
    (∀ audio row s, audio ∈ arrays → row ∈ audio → s ∈ row → Qabs s < 1).
Proof.
  intros Hrun. destruct (ensure_inv _ _ _ Hrun) as (m & Hscan & Hge & _ & ->).
  exists (0.999 / m). split; [done|]. split; [|split].
  - intros p Hp. destruct (scan_peaks_max buffers p Hp 1) as (m' & Hm' & Hmp).
    rewrite Hscan in Hm'. injection Hm' as <-. now rewrite Hmp.
  - intros ->. injection Hscan as <-. field.
  - intros audio row s Haudio Hrow Hs.
    pose proof (scaled_batch_bound buffers m Hscan) as Hbound.
    apply Qle_lt_trans with 0.999; [|reflexivity].
    apply (proj1 (Forall_forall _ _) Hbound).
    unfold all_samples. apply list_elem_of_In, in_concat.
    exists row. split; [|now apply list_elem_of_In].
    apply in_concat. exists audio. split; now apply list_elem_of_In.
Qed.

Lemma clip_guard_output_never_clips_witness :
  ∃ gain,
    [[[3 * (0.999 / 3); (1 # 2) * (0.999 / 3)]]; [[-(1 # 4) * (0.999 / 3)]]]
    = [[[3 * gain; (1 # 2) * gain]]; [[-(1 # 4) * gain]]] ∧
    (∀ p, batch_peak [[[3; 1 # 2]]; [[-(1 # 4)]]] = Some p →
          gain == 0.999 / Qmax 1 p) ∧
    ([[[3; 1 # 2]]; [[-(1 # 4)]]] = [] → gain == 0.999) ∧
    (∀ audio row s,
       audio ∈ [[[3 * (0.999 / 3); (1 # 2) * (0.999 / 3)]];
                [[-(1 # 4) * (0.999 / 3)]]] →
       row ∈ audio → s ∈ row → Qabs s < 1).
Proof.
  apply (clip_guard_output_never_clips [[[3; 1 # 2]]; [[-(1 # 4)]]]
           [clip_warning]).
  reflexivity.
Defined.

(** X3. The guard raises [ValueError] exactly when some buffer of the batch
    has no sample, whatever the other buffers hold; on every other batch,
    the empty one included, it returns. *)
Theorem clip_guard_raises_on_empty_buffer (buffers : list ndarray) :
  (Exists (λ audio, concat audio = []) buffers →
   ensure_audio_doesnt_clip buffers = Raise ValueError) ∧
  (Forall (λ audio, concat audio ≠ []) buffers →
   ∃ out, ensure_audio_doesnt_clip buffers = Ok out).
Proof.
  unfold ensure_audio_doesnt_clip. split.
  - intros Hex. now rewrite scan_peaks_raises.
  - intros Hall. destruct (scan_peaks_returns buffers 1 Hall) as [m ->].
    simpl. destruct (Qgeb m 1); now eexists.
Qed.

Lemma clip_guard_raises_on_empty_buffer_witness :
  ensure_audio_doesnt_clip [[[2; 1]]; [[]; []]; [[1 # 2]]] = Raise ValueError.
Proof.
  apply (proj1 (clip_guard_raises_on_empty_buffer
                  [[[2; 1]]; [[]; []]; [[1 # 2]]])).
  apply Exists_cons_tl, Exists_cons_hd. reflexivity.
Defined.

(** X4. The guard is not idempotent: run on a batch it has returned, it
    warns again and multiplies every buffer by 0.999 once more. *)
Theorem clip_guard_twice_attenuates_twice (buffers : list ndarray)
    (printed : list string) (arrays : list ndarray) :
  ensure_audio_doesnt_clip buffers = Ok (printed, arrays) →
  ensure_audio_doesnt_clip arrays
  = Ok ([clip_warning], map (λ audio, np_scale audio (0.999 / 1)) arrays).
Proof.
  intros Hrun.
  destruct (ensure_inv _ _ _ Hrun) as (m & Hscan & Hge & _ & Harrays).
  pose proof (scaled_batch_bound buffers m Hscan) as Hbound.
  rewrite <- Harrays in Hbound.
  destruct (scan_peaks_inv buffers 1 m Hscan) as (_ & Hne & _).
  assert (scan_peaks arrays 1 = Ok 1) as Hquiet.
  { apply scan_peaks_quiet.
    - rewrite Harrays. apply Forall_forall. intros a Ha.
      apply list_elem_of_fmap_1 in Ha as (a0 & -> & Ha0).
      rewrite concat_np_scale.
      pose proof (proj1 (Forall_forall _ _) Hne a0 Ha0) as Hne0.
      simpl in Hne0. now destruct (concat a0).
    - eapply Forall_impl; [exact Hbound|]. intros s Hs. simpl in Hs. lra. }
  unfold ensure_audio_doesnt_clip. now rewrite Hquiet.
Qed.

Lemma clip_guard_twice_attenuates_twice_witness :
  ensure_audio_doesnt_clip [[[2 * (0.999 / 2)]]]
  = Ok ([clip_warning],
        map (λ audio, np_scale audio (0.999 / 1)) [[[2 * (0.999 / 2)]]]).
Proof.
  apply (clip_guard_twice_attenuates_twice [[[2]]] [clip_warning]).
  reflexivity.
Defined.

(** ** Calls that cannot return *)

Section NeverReturns.
Context `{Collaborators}.

Lemma never_returns_bind_l {A B} (m : M A) (k : A → M B) :
  never_returns m → never_returns (m ≫= k).
Proof.
  intros Hm σ. rewrite bind_run. specialize (Hm σ).
  now destruct (m σ) as [[a|e] σ1].
Qed.

Lemma never_returns_bind_r {A B} (m : M A) (k : A → M B) :
  (∀ a, never_returns (k a)) → never_returns (m ≫= k).
Proof.
  intros Hk σ. rewrite bind_run.
  destruct (m σ) as [[a|e] σ1]; [apply Hk | done].
Qed.

Lemma never_returns_raise {A} (e : exn) : never_returns (raise e : M A).
Proof. now intros σ. Qed.

Lemma musical_noise_without_factor (target : pyarg)
    (lowpass_cutoff : option Q) (num_points : Z) (window_type : string)
    (rate : option Z) :
  never_returns (musical_noise target None lowpass_cutoff num_points
                   window_type rate).
Proof.
  unfold musical_noise. apply never_returns_bind_r. intros t.
  cbn [stft_istft]. apply never_returns_bind_r. intros x_fft.
  apply never_returns_bind_l. apply never_returns_raise.
Qed.

End NeverReturns.

(** X5. [musical_noise] has no guard for [distortion_factor = None]: on a
    Wave target it computes the forward transform and then raises
    [TypeError], before any sampling. So neither it nor [artefacts],
    [overall_quality] or [target_sound_quality] ever returns an anchor when
    the factor of the noise is [None], whereas [None] disables the dropout
    of [distorted_target]. *)
Theorem noise_factor_none_never_returns `{Collaborators} :
  (∀ σ target tw lc num_points window_type rate,
     heap σ !! target = Some tw →
     musical_noise (WaveObj target) None lc num_points window_type rate σ
     = (Raise TypeError, logged σ [EvSTFT])) ∧
  (∀ target lc num_points window_type rate,
     never_returns (musical_noise target None lc num_points window_type rate)) ∧
  (∀ target lc num_points window_type rate,
     never_returns (artefacts target None lc num_points window_type rate)) ∧
  (∀ target others dft lct lcn relative_loudness num_points window_type rate,
     never_returns (overall_quality target others dft None lct lcn
                      relative_loudness num_points window_type rate)) ∧
  (∀ target dft lct lcn num_points window_type rate,
     never_returns (target_sound_quality target dft None lct lcn num_points
                      window_type rate)).
Proof.
  repeat split.
  - intros σ target tw lc np wt rate Ht.
    unfold musical_noise, as_wave. rewrite bind_run, ret_run.
    cbn [stft_istft]. now rewrite bind_run, (stft_run_ok _ _ _ _ Ht).
  - intros. apply musical_noise_without_factor.
  - intros. unfold artefacts. apply never_returns_bind_l.
    apply musical_noise_without_factor.
  - intros. unfold overall_quality. apply never_returns_bind_r.
    intros [t acc]. apply never_returns_bind_r. intros dt.
    apply never_returns_bind_l. apply musical_noise_without_factor.
  - intros. unfold target_sound_quality. apply never_returns_bind_r.
    intros t. apply never_returns_bind_r. intros dt.
    apply never_returns_bind_l. apply musical_noise_without_factor.
Qed.

Lemma noise_factor_none_never_returns_witness :
  musical_noise (WaveObj 0%nat) None None 8 "hann" None Double.studio
  = (Raise TypeError, logged Double.studio [EvSTFT]).
Proof.
  refine (proj1 (@noise_factor_none_never_returns Double.collaborators)
            Double.studio 0%nat Double.stereo None 8%Z "hann"%string None _).
  reflexivity.
Defined.

(** X6. [artefacts] reads [target.loudness] from the argument as it was
    passed. For a target given as a raw array it therefore never returns an
    anchor: when [musical_noise] has succeeded it raises [AttributeError],
    and otherwise it fails as [musical_noise] did. *)
Theorem artefacts_rejects_raw_target `{Collaborators}
    (a : ndarray) (df lc : option Q) (num_points : Z) (window_type : string)
    (rate : option Z) (σ : world) :
  (artefacts (Ndarray a) df lc num_points window_type rate σ).1
  = match (musical_noise (Ndarray a) df lc num_points window_type rate σ).1 with
    | Ok _ => Raise AttributeError
    | Raise e => Raise e
    end.
Proof.
  unfold artefacts. rewrite bind_run.
  destruct (musical_noise (Ndarray a) df lc num_points window_type rate σ)
    as [[noise|e] σ1]; reflexivity.
Qed.

(** X7. [overall_quality] computes [-23 + relative_loudness] without a guard
    for [None], so with [relative_loudness = None] it never returns an
    anchor, whereas [interference] takes [None] to disable the step. *)
Theorem overall_quality_needs_relative_loudness `{Collaborators}
    (target : pyarg) (others : others_arg) (dft dfn lct lcn : option Q)
    (num_points : Z) (window_type : string) (rate : option Z) :
  never_returns (overall_quality target others dft dfn lct lcn None
                   num_points window_type rate).
Proof.
  unfold overall_quality. apply never_returns_bind_r. intros [t acc].
  apply never_returns_bind_r. intros dt.
  apply never_returns_bind_r. intros mn.
  apply never_returns_bind_r. intros _.
  apply never_returns_bind_l. apply never_returns_raise.
Qed.

(** ** Bin dropout *)

(** Unravelling a flat index inverts flattening a cell position. *)
Lemma unravel_flat_index (frames channels i f t c : nat) :
  (t < frames)%nat → (c < channels)%nat →
  unravel_index i frames channels = (f, t, c)
  ↔ i = flat_index frames channels f t c.
Proof.
  intros Ht Hc. unfold unravel_index, flat_index. split.
  - intros [= <- <- <-].
    rewrite (Nat.mul_comm frames channels), <- Nat.Div0.div_div.
    rewrite (Nat.mul_comm (i / channels / frames) frames).
    rewrite <- (Nat.div_mod_eq (i / channels) frames).
    rewrite (Nat.mul_comm (i / channels) channels).
    apply Nat.div_mod_eq.
  - intros ->.
    assert (((f * frames + t) * channels + c) / channels = f * frames + t)%nat
      as Hdiv.
    { rewrite Nat.div_add_l by lia. rewrite Nat.div_small by done. lia. }
    rewrite (Nat.mul_comm frames channels), <- Nat.Div0.div_div, Hdiv.
    f_equal; [f_equal|].
    + rewrite Nat.div_add_l by lia. rewrite Nat.div_small by done. lia.
    + rewrite (Nat.add_comm (f * frames) t), Nat.Div0.mod_add.
      now apply Nat.mod_small.
    + rewrite (Nat.add_comm _ c), Nat.Div0.mod_add.
      now apply Nat.mod_small.
Qed.

(** What the assignment [x_fft[f', t', c'] = 0] does to every cell. *)
Lemma cell_zero_one (cs : list (list (list complex))) (r : option Z)
    (f' t' c' f t c : nat) :
  cell (mkSpectrogram
          (alter (alter (λ chans, <[c' := czero]> chans) t') f' cs) r) f t c
  = if decide (f' = f ∧ t' = t ∧ c' = c)
    then (λ _, czero) <$> cell (mkSpectrogram cs r) f t c
    else cell (mkSpectrogram cs r) f t c.
Proof.
  unfold cell. simpl. rewrite list_lookup_alter.
  destruct (decide (f' = f)) as [->|Hf].
  2:{ rewrite decide_False by tauto. done. }
  destruct (cs !! f) as [row|]; simpl.
  2:{ now destruct (decide _). }
  rewrite list_lookup_alter.
  destruct (decide (t' = t)) as [->|Ht].
  2:{ rewrite decide_False by tauto. done. }
  destruct (row !! t) as [chans|]; simpl.
  2:{ now destruct (decide _). }
  rewrite list_lookup_insert.
  destruct (decide (c' = c)) as [->|Hc].
  - rewrite (decide_True (P := f = f ∧ t = t ∧ c = c)) by done.
    destruct (decide (c = c ∧ (c < length chans)%nat)) as [[_ Hlt]|Hge].
    + apply lookup_lt_is_Some_2 in Hlt as [z ->]. done.
    + rewrite lookup_ge_None_2 by lia. done.
  - rewrite decide_False by tauto. rewrite decide_False by tauto. done.
Qed.

(** What [x_fft[freq, time, channel] = 0] does to every cell: the cells
    whose flat index is listed become zero, the others are kept. *)
Lemma cell_zero_cells (idx : list nat) (x : Spectrogram) (f t c : nat) :
  (t < spec_frames x)%nat → (c < spec_channels x)%nat →
  cell (zero_cells idx x) f t c
  = if decide (flat_index (spec_frames x) (spec_channels x) f t c ∈ idx)
    then (λ _, czero) <$> cell x f t c
    else cell x f t c.
Proof.
  intros Ht Hc. unfold zero_cells. cbv zeta.
  induction idx as [|i idx IH].
  - rewrite decide_False by apply not_elem_of_nil. now destruct x.
  - cbn [foldr].
    destruct (unravel_index i (spec_frames x) (spec_channels x))
      as [[f' t'] c'] eqn:Hun.
    rewrite cell_zero_one, IH.
    set (flat := flat_index (spec_frames x) (spec_channels x) f t c).
    destruct (decide (f' = f ∧ t' = t ∧ c' = c)) as [(-> & -> & ->)|Hne].
    + apply (unravel_flat_index _ _ _ _ _ _ Ht Hc) in Hun. fold flat in Hun.
      rewrite (decide_True (P := flat ∈ i :: idx))
        by (rewrite Hun; apply list_elem_of_here).
      destruct (decide (flat ∈ idx)); [|done].
      now destruct (cell x f t c).
    + assert (i ≠ flat) as Hi.
      { intros Heq. apply Hne.
        apply (unravel_flat_index _ _ _ f t c Ht Hc) in Heq.
        rewrite Hun in Heq. now injection Heq. }
      destruct (decide (flat ∈ idx)) as [Hin|Hnin].
      * rewrite decide_True by now apply list_elem_of_further. done.
      * rewrite decide_False; [done|].
        intros [?|?]%elem_of_cons; [congruence | done].
Qed.

(** X8. For a factor in [0,1), the bin dropout of [musical_noise] zeroes
    the cells of a set of distinct flat indices whose number is
    [int(x_fft.size * distortion_factor)], taken on the binary64 product of
    the two floats, which lies between the exact product rounded down and
    rounded up: a cell becomes zero exactly when its row-major flat index
    was drawn, every other cell is kept, and the layout of the spectrogram
    is kept. *)
Theorem bin_dropout_zeroes_drawn_cells `{Collaborators}
    (x_fft : Spectrogram) (factor : Q) (σ : world) :
  sampler_ok → 0 <= factor → factor < 1 →
  (Z.of_nat (spec_size x_fft) < 2 ^ 53)%Z →
  let exact := inject_Z (Z.of_nat (spec_size x_fft)) * factor in
  ∃ idx σ',
    bin_dropout x_fft (Some factor) σ = (Ok (zero_cells idx x_fft), σ') ∧
    NoDup idx ∧
    Forall (λ i, (i < spec_size x_fft)%nat) idx ∧
    Z.of_nat (length idx) = py_int (binary64 exact) ∧
    (Qfloor exact ≤ Z.of_nat (length idx) ≤ Qceiling exact)%Z ∧
    layout (zero_cells idx x_fft) = layout x_fft ∧
    ∀ f t c,
      (t < spec_frames x_fft)%nat → (c < spec_channels x_fft)%nat →
      cell (zero_cells idx x_fft) f t c
      = if decide (flat_index (spec_frames x_fft) (spec_channels x_fft) f t c
                   ∈ idx)
        then (λ _, czero) <$> cell x_fft f t c
        else cell x_fft f t c.
Proof.
  intros Hs H0 H1 Hn exact.
  destruct (dropout_count_fraction (spec_size x_fft) factor H0
              (Qlt_le_weak _ _ H1) Hn) as [Hcount Hr].
  fold exact in Hcount, Hr.
  pose proof (bin_dropout_accepts x_fft factor _ σ Hcount Hr) as Hrun.
  cbv zeta in Hrun.
  set (count := Qfloor (binary64 exact)) in *.
  destruct (Hs (rng σ) (spec_size x_fft) (Z.to_nat count))
    as (Hnd & Hlen & Hlt); [lia|].
  destruct (product_bounds (spec_size x_fft) factor H0 (Qlt_le_weak _ _ H1))
    as [Hexact Hle].
  fold exact in Hexact, Hle.
  eexists _, _. split; [exact Hrun|].
  split; [done|]. split; [done|]. split.
  { rewrite Hlen, Z2Nat.id by lia. unfold count. symmetry.
    apply py_int_floor. now apply binary64_nonneg. }
  split.
  { rewrite Hlen, Z2Nat.id by lia. unfold count.
    now apply (binary64_between exact (Z.of_nat (spec_size x_fft))). }
  split; [apply layout_zero_cells|].
  intros f t c. apply cell_zero_cells.
Qed.

Lemma bin_dropout_zeroes_drawn_cells_witness :
  ∃ idx σ',
    bin_dropout Double.seven_frames (Some (binary64 0.7)) Double.studio
    = (Ok (zero_cells idx Double.seven_frames), σ') ∧
    NoDup idx ∧
    Forall (λ i, (i < 14)%nat) idx ∧
    length idx = 9%nat ∧
    layout (zero_cells idx Double.seven_frames) = layout Double.seven_frames ∧
    ∀ f t c,
      (t < spec_frames Double.seven_frames)%nat →
      (c < spec_channels Double.seven_frames)%nat →
      cell (zero_cells idx Double.seven_frames) f t c
      = if decide (flat_index (spec_frames Double.seven_frames)
                     (spec_channels Double.seven_frames) f t c ∈ idx)
        then (λ _, czero) <$> cell Double.seven_frames f t c
        else cell Double.seven_frames f t c.
Proof.
  destruct (@bin_dropout_zeroes_drawn_cells Double.collaborators
              Double.seven_frames (binary64 0.7) Double.studio)
    as (idx & σ' & Hrun & Hnd & Hlt & Hlen & _ & Hlay & Hcell).
  - exact double_sampler_ok.
  - vm_compute. discriminate.
  - reflexivity.
  - reflexivity.
  - exists idx, σ'. split; [exact Hrun|]. split; [exact Hnd|].
    split; [exact Hlt|]. split; [|split; [exact Hlay | exact Hcell]].
    apply Nat2Z.inj. rewrite Hlen. vm_compute. reflexivity.
Defined.

(** ** The empty list of other sources *)

Section IndexErrors.
Context `{Collaborators}.

Lemma raises_only_bind (P : exn → Prop) {A B} (m : M A) (k : A → M B) :
  raises_only P m → (∀ a, raises_only P (k a)) → raises_only P (m ≫= k).
Proof.
  intros Hm Hk σ e σ'. rewrite bind_run.
  destruct (m σ) as [[a|e1] σ1] eqn:Hrun.
  - apply Hk.
  - intros [= <- <-]. eapply Hm, Hrun.
Qed.

Lemma raises_only_ret (P : exn → Prop) {A} (a : A) : raises_only P (mret a).
Proof. intros σ e σ'. discriminate. Qed.

Lemma raises_only_raise (P : exn → Prop) {A} (e : exn) :
  P e → raises_only P (raise e : M A).
Proof. intros He σ e' σ' [= <- <-]. exact He. Qed.

Lemma raises_only_load (P : exn → Prop) (l : loc) :
  P BadReference → raises_only P (load l).
Proof.
  intros HP σ e σ'. unfold load. destruct (heap σ !! l); [discriminate|].
  now intros [= <- <-].
Qed.

Lemma raises_only_alloc (P : exn → Prop) (w : Wave) : raises_only P (alloc w).
Proof. intros σ e σ'. discriminate. Qed.

Lemma raises_only_store (P : exn → Prop) (l : loc) (w : Wave) :
  raises_only P (store l w).
Proof. intros σ e σ'. discriminate. Qed.

Lemma raises_only_log (P : exn → Prop) (ev : event) : raises_only P (log ev).
Proof. intros σ e σ'. discriminate. Qed.

Lemma np_add_raises (a b : ndarray) (e : exn) :
  np_add a b = Raise e → e = ValueError.
Proof.
  unfold np_add.
  destruct (broadcast_dim _ _); [destruct (broadcast_dim _ _)|]; congruence.
Qed.

Lemma raises_only_Wave_new (x : pyarg) (rate : option Z) :
  raises_only not_index (Wave_new x rate).
Proof.
  destruct x; simpl; [apply raises_only_alloc|].
  apply raises_only_bind; [now apply raises_only_load|].
  intros w. apply raises_only_alloc.
Qed.

Lemma raises_only_as_wave (x : pyarg) (rate : option Z) :
  raises_only not_index (as_wave x rate).
Proof.
  destruct x; simpl; [apply raises_only_alloc | apply raises_only_ret].
Qed.

Lemma raises_only_loudness_get (l : loc) :
  raises_only not_index (loudness_get l).
Proof.
  apply raises_only_bind; [now apply raises_only_load|].
  intros w. apply raises_only_ret.
Qed.

Lemma raises_only_loudness_set (l : loc) (value : Q) :
  raises_only not_index (loudness_set l value).
Proof.
  apply raises_only_bind; [now apply raises_only_load|].
  intros w. apply raises_only_store.
Qed.

Lemma raises_only_wave_plus (l : loc) (y : pyarg) :
  raises_only not_index (wave_plus l y).
Proof.
  apply raises_only_bind; [now apply raises_only_load|]. intros w.
  apply raises_only_bind.
  { destruct y; [apply raises_only_ret|].
    apply raises_only_bind; [now apply raises_only_load|].
    intros w'. apply raises_only_ret. }
  intros b. apply raises_only_bind; [apply raises_only_log|]. intros _.
  apply raises_only_bind; [|intros r; apply raises_only_alloc].
  intros σ e σ' [= Hadd _]. apply np_add_raises in Hadd. now subst.
Qed.

Lemma raises_only_py_sum (first : loc) (rest : list pyarg) :
  raises_only not_index (py_sum first rest).
Proof.
  apply raises_only_bind; [now apply raises_only_load|]. intros w.
  apply raises_only_bind; [apply raises_only_alloc|]. intros acc.
  revert acc. induction rest as [|y rest IH]; intros acc; simpl.
  - apply raises_only_ret.
  - apply raises_only_bind; [apply raises_only_wave_plus | apply IH].
Qed.

Lemma raises_only_mapM_Wave_new (xs : list pyarg) (rate : option Z) :
  raises_only not_index (mapM (λ x, Wave_new x rate) xs).
Proof.
  induction xs as [|x xs IH]; simpl; [apply raises_only_ret|].
  apply raises_only_bind; [apply raises_only_Wave_new|]. intros y.
  apply raises_only_bind; [apply IH|]. intros ys. apply raises_only_ret.
Qed.

(** A list with a first item, and a single accompaniment, never make
    [target_accompaniment] raise [IndexError]. *)
Lemma raises_only_target_accompaniment (target : pyarg) (others : others_arg)
    (rate : option Z) :
  others ≠ OthersList [] →
  raises_only not_index (target_accompaniment target others rate).
Proof.
  intros Hne. apply raises_only_bind.
  - destruct others as [[|[a|first] rest]|y]; [done| | |].
    + apply raises_only_bind; [apply raises_only_Wave_new|]. intros first.
      apply raises_only_bind; [apply raises_only_mapM_Wave_new|].
      intros rest'. apply raises_only_py_sum.
    + apply raises_only_py_sum.
    + apply raises_only_as_wave.
  - intros acc. apply raises_only_bind; [apply raises_only_as_wave|].
    intros t. apply raises_only_ret.
Qed.

Lemma raises_only_interference (target : pyarg) (others : others_arg)
    (relative_loudness : option Q) (rate : option Z) :
  others ≠ OthersList [] →
  raises_only not_index (interference target others relative_loudness rate).
Proof.
  intros Hne. apply raises_only_bind.
  { now apply raises_only_target_accompaniment. }
  intros [t acc]. apply raises_only_bind.
  { destruct relative_loudness; [|apply raises_only_ret].
    apply raises_only_bind; [apply raises_only_loudness_get|].
    intros value. apply raises_only_loudness_set. }
  intros _. apply raises_only_bind; [apply raises_only_wave_plus|].
  intros anchor. apply raises_only_bind; [apply raises_only_loudness_get|].
  intros value. apply raises_only_bind; [apply raises_only_loudness_set|].
  intros _. apply raises_only_ret.
Qed.

End IndexErrors.

(** X9. [target_accompaniment] and [interference] raise [IndexError]
    exactly when [others] is the empty list, and then at once: nothing has
    been converted, measured or added, and the world is as it was.
    [overall_quality] fails on the empty list in the same way, before any
    transform is computed. *)
Theorem index_error_exactly_for_empty_others `{Collaborators}
    (target : pyarg) (others : others_arg) (relative_loudness : option Q)
    (dft dfn lct lcn : option Q) (num_points : Z) (window_type : string)
    (rate : option Z) (σ σ' : world) :
  (target_accompaniment target others rate σ = (Raise IndexError, σ')
   ↔ others = OthersList [] ∧ σ' = σ) ∧
  (interference target others relative_loudness rate σ
   = (Raise IndexError, σ')
   ↔ others = OthersList [] ∧ σ' = σ) ∧
  overall_quality target (OthersList []) dft dfn lct lcn relative_loudness
    num_points window_type rate σ = (Raise IndexError, σ).
Proof.
  split; [|split; [|reflexivity]].
  - split.
    + intros Hrun.
      assert (others = OthersList [] ∨ others ≠ OthersList []) as [->|Hne]
        by (destruct others as [[|x rest]|y]; [now left|now right..]).
      * split; [done|]. now injection Hrun.
      * now apply (raises_only_target_accompaniment _ _ _ Hne) in Hrun.
    + now intros [-> ->].
  - split.
    + intros Hrun.
      assert (others = OthersList [] ∨ others ≠ OthersList []) as [->|Hne]
        by (destruct others as [[|x rest]|y]; [now left|now right..]).
      * split; [done|]. now injection Hrun.
      * now apply (raises_only_interference _ _ _ _ Hne) in Hrun.
    + now intros [-> ->].
Qed.

(** ** The accompaniment of a list of sources *)

Lemma np_get_lookup (a : ndarray) (i j : nat) (row : list Q) (x : Q) :
  a !! i = Some row → row !! j = Some x → np_get a i j = x.
Proof.
  unfold ndarray in *. intros Hrow Hx. unfold np_get.
  rewrite (nth_lookup a), Hrow. simpl. now rewrite nth_lookup, Hx.
Qed.

Lemma has_shape_lookup (a : ndarray) (r c i j : nat) :
  has_shape a r c → (i < r)%nat → (j < c)%nat →
  ∃ row x, a !! i = Some row ∧ row !! j = Some x.
Proof.
  intros [Hr Hc] Hi Hj.
  destruct (lookup_lt_is_Some_2 a i) as [row Hrow]; [lia|].
  pose proof (Forall_lookup_1 _ _ _ _ Hc Hrow) as Hlen. simpl in Hlen.
  destruct (lookup_lt_is_Some_2 row j) as [x Hx]; [lia|].
  now exists row, x.
Qed.

Lemma has_shape_cols (a : ndarray) (r c : nat) :
  has_shape a r c → r ≠ 0%nat → np_cols a = c.
Proof.
  intros [Hr Hc] Hne. unfold np_cols. destruct a as [|row a]; simpl in *.
  - congruence.
  - now inversion Hc.
Qed.

Lemma has_shape_cols_eq (a b : ndarray) (r c : nat) :
  has_shape a r c → has_shape b r c → np_cols a = np_cols b.
Proof.
  intros Ha Hb. destruct (decide (r = 0%nat)) as [->|Hne].
  - destruct Ha as [Ha _], Hb as [Hb _].
    apply nil_length_inv in Ha, Hb. now subst.
  - now rewrite (has_shape_cols a r c), (has_shape_cols b r c).
Qed.

(** [0 + a] keeps the shape and adds 0 to every sample. *)
Lemma np_radd0_shape (a : ndarray) (r c : nat) :
  has_shape a r c →
  has_shape (np_radd0 a) r c ∧
  ∀ i j, (i < r)%nat → (j < c)%nat →
    np_get (np_radd0 a) i j = 0 + np_get a i j.
Proof.
  intros Ha. split.
  - destruct Ha as [Hr Hc]. split.
    + unfold np_radd0. now rewrite length_map.
    + unfold np_radd0. apply Forall_fmap. eapply Forall_impl; [exact Hc|].
      intros row Hrow. simpl. now rewrite length_map.
  - intros i j Hi Hj.
    destruct (has_shape_lookup a r c i j Ha Hi Hj) as (row & x & Hrow & Hx).
    rewrite (np_get_lookup a i j row x Hrow Hx).
    apply (np_get_lookup _ i j (map (Qplus 0) row)); unfold ndarray in *.
    + unfold np_radd0.
      change (map (map (Qplus 0)) a) with (map (Qplus 0) <$> a).
      now rewrite list_lookup_fmap, Hrow.
    + change (map (Qplus 0) row) with (Qplus 0 <$> row).
      now rewrite list_lookup_fmap, Hx.
Qed.

(** On two arrays of one shape numpy's addition is the elementwise sum. *)
Lemma np_add_same_shape (a b : ndarray) (r c : nat) :
  has_shape a r c → has_shape b r c →
  ∃ s, np_add a b = Ok s ∧ has_shape s r c ∧
    ∀ i j, (i < r)%nat → (j < c)%nat →
      np_get s i j = np_get a i j + np_get b i j.
Proof.
  intros Ha Hb.
  pose proof (has_shape_cols_eq a b r c Ha Hb) as Hcols.
  pose proof (has_shape_cols a r c Ha) as Hc.
  unfold np_add, np_rows. rewrite (proj1 Ha), (proj1 Hb), <- Hcols.
  unfold broadcast_dim. rewrite !Nat.eqb_refl.
  eexists. split; [reflexivity|]. split; [split|].
  - now rewrite length_map, length_seq.
  - apply Forall_fmap, Forall_forall. intros i Hi. simpl.
    rewrite length_map, length_seq. apply Hc.
    apply elem_of_seq in Hi. lia.
  - intros i j Hi Hj. rewrite Hc in * by lia.
    erewrite np_get_lookup; unfold ndarray in *; cycle 1.
    { change (map ?f ?l) with (f <$> l).
      rewrite list_lookup_fmap, lookup_seq_lt by done. reflexivity. }
    { change (map ?f ?l) with (f <$> l).
      rewrite list_lookup_fmap, lookup_seq_lt by done. reflexivity. }
    simpl. unfold bcast_index.
    destruct (Nat.eqb_spec r 1) as [->|_], (Nat.eqb_spec c 1) as [->|_];
      repeat match goal with
             | Hlt : (?k < 1)%nat |- _ =>
                 assert (k = 0%nat) as -> by lia; clear Hlt
             end; reflexivity.
Qed.

Section Accompaniment.
Context `{Collaborators}.

Lemma arg_samples_app (σ σ1 : world) (ext : list Wave) (y : pyarg)
    (b : ndarray) :
  heap σ1 = heap σ ++ ext →
  arg_samples σ y = Some b → arg_samples σ1 y = Some b.
Proof.
  intros Hheap. destruct y as [a|l]; simpl; [done|]. rewrite Hheap.
  destruct (heap σ !! l) as [w|] eqn:Hl; [|done].
  now rewrite (lookup_app_l_Some _ _ _ _ Hl).
Qed.

(** [acc + y] for any argument whose samples are known. *)
Lemma wave_plus_arg_run (σ : world) (acc : loc) (aw : Wave) (y : pyarg)
    (b : ndarray) :
  heap σ !! acc = Some aw → arg_samples σ y = Some b →
  wave_plus acc y σ
  = match np_add (samples aw) b with
    | Ok r =>
        (Ok (length (heap σ)),
         mkWorld (heap σ ++ [mkWave r (sample_rate aw)]) (rng σ)
                 (trace σ ++ [EvAdd]))
    | Raise e => (Raise e, logged σ [EvAdd])
    end.
Proof.
  intros Hacc Hy. unfold wave_plus. destruct y as [a|l]; simpl in Hy.
  - injection Hy as ->. mrun. now destruct (np_add (samples aw) b).
  - destruct (heap σ !! l) as [w|] eqn:Hl; [|done]. injection Hy as <-.
    mrun. now destruct (np_add (samples aw) (samples w)).
Qed.

(** The loop of [sum]: every item is added to the running total, which is
    a new object at every step. *)
Lemma foldlM_wave_plus_sum (r c : nat) (rest : list pyarg) :
  ∀ (bs : list ndarray) (σ : world) (acc : loc) (aw : Wave),
    Forall2 (λ y b, arg_samples σ y = Some b) rest bs →
    Forall (λ b, has_shape b r c) bs →
    heap σ !! acc = Some aw → has_shape (samples aw) r c →
    ∃ acc' σ' aw',
      foldlM wave_plus acc rest σ = (Ok acc', σ') ∧
      heap σ' !! acc' = Some aw' ∧
      has_shape (samples aw') r c ∧
      sample_rate aw' = sample_rate aw ∧
      ∀ i j, (i < r)%nat → (j < c)%nat →
        np_get (samples aw') i j
        = fold_left Qplus (map (λ b, np_get b i j) bs)
            (np_get (samples aw) i j).
Proof.
  induction rest as [|y rest IH]; intros bs σ acc aw Hargs Hshapes Hacc Haw.
  - apply Forall2_nil_inv_l in Hargs as ->.
    exists acc, σ, aw. split; [reflexivity|]. split; [exact Hacc|].
    split; [exact Haw|]. split; reflexivity.
  - apply Forall2_cons_inv_l in Hargs as (b & bs' & Hy & Hrest & ->).
    apply Forall_cons in Hshapes as [Hb Hshapes].
    destruct (np_add_same_shape (samples aw) b r c Haw Hb)
      as (s & Hadd & Hs & Hget).
    cbn [foldlM]. rewrite bind_run.
    rewrite (wave_plus_arg_run σ acc aw y b Hacc Hy), Hadd.
    set (σ1 := mkWorld (heap σ ++ [mkWave s (sample_rate aw)]) (rng σ)
                 (trace σ ++ [EvAdd])).
    destruct (IH bs' σ1 (length (heap σ)) (mkWave s (sample_rate aw)))
      as (acc' & σ' & aw' & Hrun & Hacc' & Haw' & Hrate & Hsum).
    + eapply Forall2_impl; [exact Hrest|]. intros y' b'.
      now apply (arg_samples_app σ σ1 [mkWave s (sample_rate aw)]).
    + exact Hshapes.
    + apply lookup_snoc_new.
    + exact Hs.
    + exists acc', σ', aw'. split; [exact Hrun|]. split; [exact Hacc'|].
      split; [exact Haw'|]. split; [exact Hrate|].
      intros i j Hi Hj. rewrite (Hsum i j Hi Hj). cbn [map fold_left samples].
      now rewrite (Hget i j Hi Hj).
Qed.

Lemma py_sum_run (r c : nat) (σ : world) (first : loc) (w : Wave)
    (rest : list pyarg) (bs : list ndarray) :
  heap σ !! first = Some w → has_shape (samples w) r c →
  Forall2 (λ y b, arg_samples σ y = Some b) rest bs →
  Forall (λ b, has_shape b r c) bs →
  ∃ acc σ' aw,
    py_sum first rest σ = (Ok acc, σ') ∧
    heap σ' !! acc = Some aw ∧
    has_shape (samples aw) r c ∧
    sample_rate aw = sample_rate w ∧
    ∀ i j, (i < r)%nat → (j < c)%nat →
      np_get (samples aw) i j
      = fold_left Qplus (map (λ b, np_get b i j) (samples w :: bs)) 0.
Proof.
  intros Hfirst Hw Hargs Hshapes.
  destruct (np_radd0_shape (samples w) r c Hw) as [Hs0 Hget0].
  set (w0 := mkWave (np_radd0 (samples w)) (sample_rate w)).
  set (σ1 := mkWorld (heap σ ++ [w0]) (rng σ) (trace σ)).
  destruct (foldlM_wave_plus_sum r c rest bs σ1 (length (heap σ)) w0)
    as (acc & σ' & aw & Hrun & Hacc & Haw & Hrate & Hsum).
  - eapply Forall2_impl; [exact Hargs|]. intros y b.
    now apply (arg_samples_app σ σ1 [w0]).
  - exact Hshapes.
  - apply lookup_snoc_new.
  - exact Hs0.
  - exists acc, σ', aw. split.
    { unfold py_sum. mrun. exact Hrun. }
    split; [exact Hacc|]. split; [exact Haw|]. split; [exact Hrate|].
    intros i j Hi Hj. rewrite (Hsum i j Hi Hj). cbn [map fold_left samples w0].
    now rewrite (Hget0 i j Hi Hj).
Qed.

Lemma Wave_new_run (σ : world) (x : pyarg) (b : ndarray) (rate : option Z) :
  arg_samples σ x = Some b →
  Wave_new x rate σ
  = (Ok (length (heap σ)),
     mkWorld (heap σ ++ [mkWave b rate]) (rng σ) (trace σ)).
Proof.
  intros Hx. destruct x as [a|l]; simpl in *.
  - now injection Hx as ->.
  - destruct (heap σ !! l) as [w|] eqn:Hl; [|done]. injection Hx as <-.
    now mrun.
Qed.

(** [[Wave(_, sample_rate) for _ in others]]: one new object per item, in
    order. *)
Lemma mapM_Wave_new_run (rate : option Z) (xs : list pyarg) :
  ∀ (bs : list ndarray) (σ : world),
    Forall2 (λ y b, arg_samples σ y = Some b) xs bs →
    mapM (λ x, Wave_new x rate) xs σ
    = (Ok (seq (length (heap σ)) (length xs)),
       mkWorld (heap σ ++ map (λ b, mkWave b rate) bs) (rng σ) (trace σ)).
Proof.
  induction xs as [|x xs IH]; intros bs σ Hargs.
  - apply Forall2_nil_inv_l in Hargs as ->. simpl.
    rewrite app_nil_r. now destruct σ.
  - apply Forall2_cons_inv_l in Hargs as (b & bs' & Hx & Hrest & ->).
    cbn [mapM]. rewrite bind_run, (Wave_new_run σ x b rate Hx).
    set (σ1 := mkWorld (heap σ ++ [mkWave b rate]) (rng σ) (trace σ)).
    rewrite bind_run, (IH bs' σ1).
    + rewrite ret_run. cbn [heap rng trace σ1 length seq map].
      rewrite length_app, Nat.add_1_r, <- (assoc_L (++)). reflexivity.
    + eapply Forall2_impl; [exact Hrest|]. intros y' b'.
      now apply (arg_samples_app σ σ1 [mkWave b rate]).
Qed.

(** The objects made by the conversion hold the samples they were made
    of. *)
Lemma converted_samples (rate : option Z) (bs : list ndarray) :
  ∀ (h : list Wave) (g : rng_state) (tr : list event),
    Forall2
      (λ y b,
         arg_samples (mkWorld (h ++ map (λ b, mkWave b rate) bs) g tr) y
         = Some b)
      (map WaveObj (seq (length h) (length bs))) bs.
Proof.
  induction bs as [|b bs IH]; intros h g tr; [constructor|].
  cbn [length seq map]. constructor.
  - simpl. rewrite lookup_app_r, Nat.sub_diag by lia. reflexivity.
  - specialize (IH (h ++ [mkWave b rate]) g tr).
    rewrite length_app, Nat.add_1_r, <- (assoc_L (++)) in IH. exact IH.
Qed.

End Accompaniment.

(** X10. The accompaniment of a non-empty list of sources of one shape
    is their elementwise sum: [target_accompaniment] returns, the
    accompaniment is a new object of that shape that holds, at every
    position, the samples of the sources added from the left starting from
    0, whether the items are Wave objects or raw arrays, and every object
    of the caller is kept. *)
Theorem accompaniment_is_sum_of_sources `{Collaborators}
    (σ : world) (target : pyarg) (others : list pyarg) (bs : list ndarray)
    (rate : option Z) (r c : nat) :
  others ≠ [] →
  Forall2 (λ y b, arg_samples σ y = Some b) others bs →
  Forall (λ b, has_shape b r c) bs →
  ∃ t acc σ' aw,
    target_accompaniment target (OthersList others) rate σ
    = (Ok (t, acc), σ') ∧
    heap σ' !! acc = Some aw ∧
    has_shape (samples aw) r c ∧
    (∀ i j, (i < r)%nat → (j < c)%nat →
       np_get (samples aw) i j
       = fold_left Qplus (map (λ b, np_get b i j) bs) 0) ∧
    fresh (heap σ) acc ∧ keeps σ σ'.
Proof.
  intros Hne Hargs Hshapes.
  pose proof (safe_target_accompaniment_list (heap σ) target others rate)
    as Hsafe.
  assert (∃ acc σ1 aw,
    match others with
    | [] => raise IndexError
    | WaveObj first :: rest => py_sum first rest
    | Ndarray a :: rest =>
        first ← Wave_new (Ndarray a) rate;
        rest' ← mapM (λ x, Wave_new x rate) rest;
        py_sum first (map WaveObj rest')
    end σ = (Ok acc, σ1) ∧
    heap σ1 !! acc = Some aw ∧ has_shape (samples aw) r c ∧
    ∀ i j, (i < r)%nat → (j < c)%nat →
      np_get (samples aw) i j
      = fold_left Qplus (map (λ b, np_get b i j) bs) 0)
    as (acc & σ1 & aw & Hrun & Hacc & Haw & Hsum).
  { destruct others as [|[a|first] rest]; [done| |].
    - apply Forall2_cons_inv_l in Hargs as (b & bs' & Hx & Hrest & ->).
      simpl in Hx. injection Hx as ->.
      apply Forall_cons in Hshapes as [Hb Hshapes].
      rewrite bind_run. cbn [Wave_new]. rewrite alloc_run.
      set (σa := mkWorld (heap σ ++ [mkWave b rate]) (rng σ) (trace σ)).
      rewrite bind_run, (mapM_Wave_new_run rate rest bs' σa).
      2:{ eapply Forall2_impl; [exact Hrest|]. intros y' b'.
          now apply (arg_samples_app σ σa [mkWave b rate]). }
      set (σb := mkWorld _ _ _).
      destruct (py_sum_run r c σb (length (heap σ)) (mkWave b rate)
                  (map WaveObj (seq (length (heap σa)) (length rest))) bs')
        as (acc & σ1 & aw & Hrun & Hacc & Haw & _ & Hsum).
      + subst σb σa. cbn [heap].
        apply lookup_app_l_Some, lookup_snoc_new.
      + exact Hb.
      + subst σb. rewrite (Forall2_length _ _ _ Hrest).
        apply converted_samples.
      + exact Hshapes.
      + now exists acc, σ1, aw.
    - apply Forall2_cons_inv_l in Hargs as (b & bs' & Hx & Hrest & ->).
      simpl in Hx. destruct (heap σ !! first) as [w|] eqn:Hfirst; [|done].
      injection Hx as <-.
      apply Forall_cons in Hshapes as [Hb Hshapes].
      destruct (py_sum_run r c σ first w rest bs' Hfirst Hb Hrest Hshapes)
        as (acc & σ1 & aw & Hrun & Hacc & Haw & _ & Hsum).
      now exists acc, σ1, aw. }
  assert (∃ t σ', as_wave target rate σ1 = (Ok t, σ') ∧
                  heap σ' !! acc = Some aw) as (t & σ' & Ht & Hacc').
  { destruct target as [a|l]; simpl.
    - eexists _, _. split; [reflexivity|]. simpl.
      now apply lookup_app_l_Some.
    - now eexists _, _. }
  assert (target_accompaniment target (OthersList others) rate σ
          = (Ok (t, acc), σ')) as Hta.
  { unfold target_accompaniment. rewrite bind_run, Hrun.
    now rewrite bind_run, Ht. }
  exists t, acc, σ', aw. split; [exact Hta|].
  split; [exact Hacc'|]. split; [exact Haw|]. split; [exact Hsum|].
  split.
  - destruct (Hsafe σ) as [_ Hfresh]; [now intros l w|].
    apply (Hfresh (t, acc)). now rewrite Hta.
  - pose proof (safe_keeps _ _ σ Hsafe) as Hk. now rewrite Hta in Hk.
Qed.

Lemma accompaniment_is_sum_of_sources_witness :
  ∃ t acc σ' aw,
    target_accompaniment (WaveObj 0%nat)
      (OthersList [WaveObj 1%nat; Ndarray (samples Double.mono);
                   WaveObj 1%nat]) None Double.studio
    = (Ok (t, acc), σ') ∧
    heap σ' !! acc = Some aw ∧
    has_shape (samples aw) 4 1 ∧
    (∀ i j, (i < 4)%nat → (j < 1)%nat →
       np_get (samples aw) i j
       = fold_left Qplus
           (map (λ b, np_get b i j)
              [samples Double.mono; samples Double.mono; samples Double.mono])
           0) ∧
    fresh (heap Double.studio) acc ∧ keeps Double.studio σ'.
Proof.
  apply (@accompaniment_is_sum_of_sources Double.collaborators
           Double.studio (WaveObj 0%nat)
           [WaveObj 1%nat; Ndarray (samples Double.mono); WaveObj 1%nat]
           [samples Double.mono; samples Double.mono; samples Double.mono]
           None 4 1).
  - discriminate.
  - repeat constructor.
  - repeat constructor.
Defined.

(** ** The loudness of the anchors *)

Section Matched.
Context `{Collaborators}.
Variable h0 : list Wave.
Variable t : loc.
Variable tw : Wave.
Hypothesis Ht : h0 !! t = Some tw.

Lemma ends_matched_bind {A} (m : M A) (k : A → M loc) (Q : A → Prop) :
  safe h0 m Q → (∀ a, Q a → ends_matched h0 tw (k a)) →
  ends_matched h0 tw (m ≫= k).
Proof.
  intros Hm Hk σ Hσ anchor σ' Hrun. rewrite bind_run in Hrun.
  destruct (Hm σ Hσ) as [Hkeep HQ].
  destruct (m σ) as [[a|e] σ1]; simpl in *; [|discriminate].
  exact (Hk a (HQ a eq_refl) σ1 Hkeep anchor σ' Hrun).
Qed.

(** The last statements of every anchor:
    [anchor.loudness = target.loudness; return anchor]. *)
Lemma ends_matched_tail (anchor : loc) :
  fresh h0 anchor →
  ends_matched h0 tw
    (value ← loudness_get t; loudness_set anchor value;; mret anchor).
Proof.
  intros Hfresh σ Hσ a σ' Hrun.
  rewrite bind_run, (loudness_get_run σ t tw (Hσ t tw Ht)) in Hrun.
  rewrite bind_run in Hrun.
  destruct (heap σ !! anchor) as [x|] eqn:Hanchor.
  - rewrite (loudness_set_run σ anchor x _ Hanchor), ret_run in Hrun.
    injection Hrun as <- <-. cbn [heap]. split; [|split; [done|]].
    + intros l w Hl. cbn [heap].
      rewrite list_lookup_insert_ne; [now apply Hσ|].
      apply lookup_lt_Some in Hl. unfold fresh in Hfresh. lia.
    + exists x. apply list_lookup_insert_eq. now apply lookup_lt_Some in Hanchor.
  - unfold loudness_set in Hrun. rewrite bind_run in Hrun.
    unfold load in Hrun. now rewrite Hanchor in Hrun.
Qed.

Lemma ends_matched_distorted_target
    (distortion_factor lowpass_cutoff : option Q) (num_points : Z)
    (window_type : string) (rate : option Z) :
  ends_matched h0 tw
    (distorted_target (WaveObj t) distortion_factor lowpass_cutoff
       num_points window_type rate).
Proof.
  unfold distorted_target. cbn [as_wave stft_istft].
  eapply (ends_matched_bind _ _ (λ a, a = t)); [now apply safe_ret|].
  intros ? ->.
  eapply ends_matched_bind; [apply safe_stft_run|]. intros x0 _.
  eapply ends_matched_bind; [apply safe_frame_dropout|]. intros x1 _.
  eapply ends_matched_bind; [apply safe_load|]. intros w _.
  eapply ends_matched_bind; [apply safe_lowpass_mask|]. intros x2 _.
  eapply ends_matched_bind; [apply safe_istft_run|]. intros y _.
  eapply ends_matched_bind; [apply safe_py_slice_to|]. intros anchor Hanchor.
  now apply ends_matched_tail.
Qed.

Lemma ends_matched_artefacts
    (distortion_factor lowpass_cutoff : option Q) (num_points : Z)
    (window_type : string) (rate : option Z) :
  ends_matched h0 tw
    (artefacts (WaveObj t) distortion_factor lowpass_cutoff
       num_points window_type rate).
Proof.
  unfold artefacts. cbn [attr_loudness].
  eapply ends_matched_bind; [apply safe_musical_noise|]. intros a Ha.
  eapply ends_matched_bind; [apply safe_loudness_get|]. intros value _.
  eapply ends_matched_bind; [now apply safe_loudness_set|]. intros _ _.
  eapply ends_matched_bind; [apply safe_wave_plus|]. intros anchor Hanchor.
  now apply ends_matched_tail.
Qed.

Lemma ends_matched_sum_and_truncate (first : loc) (rest : list pyarg) :
  ends_matched h0 tw
    (total ← py_sum first rest;
     w ← load t;
     anchor ← py_slice_to total (num_frames w);
     value ← loudness_get t;
     loudness_set anchor value;;
     mret anchor).
Proof.
  eapply ends_matched_bind; [apply safe_py_sum|]. intros total _.
  eapply ends_matched_bind; [apply safe_load|]. intros w _.
  eapply ends_matched_bind; [apply safe_py_slice_to|]. intros anchor Hanchor.
  now apply ends_matched_tail.
Qed.

Lemma ends_matched_target_sound_quality
    (dft dfn lct lcn : option Q) (num_points : Z) (window_type : string)
    (rate : option Z) :
  ends_matched h0 tw
    (target_sound_quality (WaveObj t) dft dfn lct lcn num_points
       window_type rate).
Proof.
  unfold target_sound_quality. cbn [as_wave].
  eapply (ends_matched_bind _ _ (λ a, a = t)); [now apply safe_ret|].
  intros ? ->.
  eapply ends_matched_bind; [apply safe_distorted_target|]. intros dt Hdt.
  eapply ends_matched_bind; [apply safe_musical_noise|]. intros mn Hmn.
  eapply ends_matched_bind.
  { apply safe_forM_loudness_set. repeat constructor; done. }
  intros _ _. apply ends_matched_sum_and_truncate.
Qed.

(** With a list of others, [target_accompaniment] returns the caller's
    target object and an accompaniment of its own. *)
Lemma safe_target_accompaniment_obj (others : list pyarg) (rate : option Z) :
  safe h0 (target_accompaniment (WaveObj t) (OthersList others) rate)
    (λ '(t', accompaniment), t' = t ∧ fresh h0 accompaniment).
Proof.
  unfold target_accompaniment.
  eapply (safe_bind _ _ _ (fresh h0)).
  - destruct others as [|[a|first] rest]; [apply safe_raise| |apply safe_py_sum].
    eapply safe_bind; [apply safe_Wave_new|]. intros first _.
    eapply safe_bind.
    { apply (safe_mapM _ _ _ (fresh h0)). intros x. apply safe_Wave_new. }
    intros rest' _. apply safe_py_sum.
  - intros acc Hacc. cbn [as_wave].
    eapply (safe_bind _ _ _ (λ a, a = t)); [now apply safe_ret|].
    intros ? ->. now apply safe_ret.
Qed.

Lemma ends_matched_interference (others : list pyarg)
    (relative_loudness : option Q) (rate : option Z) :
  ends_matched h0 tw
    (interference (WaveObj t) (OthersList others) relative_loudness rate).
Proof.
  unfold interference.
  eapply ends_matched_bind; [apply safe_target_accompaniment_obj|].
  intros [t' acc] [-> Hacc].
  eapply (ends_matched_bind _ _ any).
  { destruct relative_loudness; [|now apply safe_ret].
    eapply safe_bind; [apply safe_loudness_get|]. intros value _.
    now apply safe_loudness_set. }
  intros _ _.
  eapply ends_matched_bind; [apply safe_wave_plus|]. intros anchor Hanchor.
  now apply ends_matched_tail.
Qed.

Lemma ends_matched_overall_quality (others : list pyarg)
    (dft dfn lct lcn relative_loudness : option Q) (num_points : Z)
    (window_type : string) (rate : option Z) :
  ends_matched h0 tw
    (overall_quality (WaveObj t) (OthersList others) dft dfn lct lcn
       relative_loudness num_points window_type rate).
Proof.
  unfold overall_quality.
  eapply ends_matched_bind; [apply safe_target_accompaniment_obj|].
  intros [t' acc] [-> Hacc].
  eapply ends_matched_bind; [apply safe_distorted_target|]. intros dt Hdt.
  eapply ends_matched_bind; [apply safe_musical_noise|]. intros mn Hmn.
  eapply ends_matched_bind.
  { apply safe_forM_loudness_set. repeat constructor; done. }
  intros _ _.
  eapply (ends_matched_bind _ _ any).
  { destruct relative_loudness; [now apply safe_loudness_set | apply safe_raise]. }
  intros _ _. apply ends_matched_sum_and_truncate.
Qed.

End Matched.

(** X11. Every anchor is handed back with the loudness of the unmodified
    target. When the target is a Wave object and the others are a list,
    each of [distorted_target], [artefacts], [target_sound_quality],
    [interference] and [overall_quality], if it returns, returns an object
    made during the call whose loudness was last assigned the measured
    loudness of the caller's target, and the target is then still the Wave
    the caller supplied. *)
Theorem anchors_match_target_loudness `{Collaborators}
    (σ : world) (t : loc) (tw : Wave) (others : list pyarg)
    (df lc dft dfn lct lcn relative_loudness : option Q)
    (num_points : Z) (window_type : string) (rate : option Z) :
  heap σ !! t = Some tw →
  let matched := λ (anchor : loc) (σ' : world),
    heap σ' !! t = Some tw ∧ fresh (heap σ) anchor ∧
    ∃ x, heap σ' !! anchor = Some (rescaled x (measure tw)) in
  post (distorted_target (WaveObj t) df lc num_points window_type rate)
    σ matched ∧
  post (artefacts (WaveObj t) df lc num_points window_type rate) σ matched ∧
  post (target_sound_quality (WaveObj t) dft dfn lct lcn num_points
          window_type rate) σ matched ∧
  post (interference (WaveObj t) (OthersList others) relative_loudness rate)
    σ matched ∧
  post (overall_quality (WaveObj t) (OthersList others) dft dfn lct lcn
          relative_loudness num_points window_type rate) σ matched.
Proof.
  intros Ht matched.
  assert (∀ m, ends_matched (heap σ) tw m → post m σ matched) as Hpost.
  { intros m Hm anchor σ' Hrun.
    destruct (Hm σ (λ l w Hl, Hl) anchor σ' Hrun) as (Hkeep & Hfresh & Hx).
    split; [now apply Hkeep | now split]. }
  split; [apply Hpost, ends_matched_distorted_target, Ht|].
  split; [apply Hpost, ends_matched_artefacts, Ht|].
  split; [apply Hpost, ends_matched_target_sound_quality, Ht|].
  split; [apply Hpost, ends_matched_interference, Ht|].
  apply Hpost, ends_matched_overall_quality, Ht.
Qed.

Lemma anchors_match_target_loudness_witness :
  ∃ anchor σ',
    overall_quality (WaveObj 0%nat) (OthersList [WaveObj 1%nat])
      None (Some 0.99) (Some 3500) None (Some 0) 8 "hann" None Double.studio
    = (Ok anchor, σ') ∧
    heap σ' !! 0%nat = Some Double.stereo ∧
    fresh (heap Double.studio) anchor ∧
    ∃ x, heap σ' !! anchor = Some (rescaled x (measure Double.stereo)).
Proof.
  eexists _, _. split; [vm_compute; reflexivity|].
  refine (proj2 (proj2 (proj2 (proj2
    (@anchors_match_target_loudness Double.collaborators Double.studio
       0%nat Double.stereo [WaveObj 1%nat] None None None (Some 0.99)
       (Some 3500) None (Some 0) 8%Z "hann"%string None eq_refl)))) _ _ _).
  vm_compute. reflexivity.
Defined.

(** ** Interference with a relative loudness *)

(** X12. With [relative_loudness = r] and an accompaniment that is not the
    target object, [interference] first sets the loudness of the
    accompaniment to the measured loudness of the target plus [r], then
    adds the rescaled accompaniment to the unchanged target: when numpy
    can add the two buffers, the anchor is a new object that holds that sum
    with its loudness set to the target's, the accompaniment object is left
    rescaled, and the target is as it was. *)
Theorem interference_with_relative_loudness `{Collaborators}
    (σ σ1 : world) (target : pyarg) (others : others_arg) (rate : option Z)
    (t acc : loc) (tw aw : Wave) (r : Q) (sum : ndarray) :
  target_accompaniment target others rate σ = (Ok (t, acc), σ1) →
  heap σ1 !! t = Some tw → heap σ1 !! acc = Some aw → t ≠ acc →
  np_add (samples tw) (samples (rescaled aw (measure tw + r))) = Ok sum →
  ∃ σ',
    interference target others (Some r) rate σ = (Ok (length (heap σ1)), σ') ∧
    heap σ' !! length (heap σ1)
    = Some (rescaled (mkWave sum (sample_rate tw)) (measure tw)) ∧
    heap σ' !! acc = Some (rescaled aw (measure tw + r)) ∧
    heap σ' !! t = Some tw ∧
    trace σ' = trace σ1 ++ [EvAdd].
Proof.
  intros Hta Ht Hacc Hne Hadd. unfold interference.
  rewrite bind_run, Hta. cbv beta iota.
  rewrite !bind_run, (loudness_get_run σ1 t tw Ht).
  rewrite (loudness_set_run σ1 acc aw _ Hacc).
  set (aw' := rescaled aw (measure tw + r)) in *.
  set (σ2 := mkWorld (<[acc := aw']> (heap σ1)) (rng σ1) (trace σ1)).
  assert (heap σ2 !! acc = Some aw') as Hacc2.
  { simpl. apply list_lookup_insert_eq. now apply lookup_lt_Some in Hacc. }
  assert (heap σ2 !! t = Some tw) as Ht2.
  { simpl. rewrite list_lookup_insert_ne; [done | congruence]. }
  rewrite bind_run, (wave_plus_run σ2 t acc tw aw' Ht2 Hacc2), Hadd.
  set (σ3 := mkWorld _ _ _).
  assert (heap σ3 !! t = Some tw) as Ht3 by now apply lookup_snoc_old.
  rewrite bind_run, (loudness_get_run σ3 t tw Ht3).
  assert (length (heap σ2) = length (heap σ1)) as Hlen
    by (simpl; apply length_insert).
  rewrite bind_run,
    (loudness_set_run σ3 (length (heap σ2)) (mkWave sum (sample_rate tw)))
    by apply lookup_snoc_new.
  rewrite ret_run. cbn [heap rng trace σ3]. rewrite insert_snoc_new, Hlen.
  eexists. split; [reflexivity|]. cbn [heap trace].
  split; [rewrite <- Hlen; apply lookup_snoc_new|].
  split; [now apply lookup_snoc_old|].
  split; [now apply lookup_snoc_old | reflexivity].
Qed.

Lemma interference_with_relative_loudness_witness :
  ∃ σ',
    interference (WaveObj 0%nat) (OthersSingle (WaveObj 1%nat)) (Some 0)
      None Double.studio = (Ok 2%nat, σ') ∧
    heap σ' !! 2%nat
    = Some (rescaled
              (mkWave [[(1 # 2) + (1 # 8) * 4; (1 # 4) + (1 # 8) * 4];
                       [-(1 # 4) + (1 # 4) * 4; (1 # 8) + (1 # 4) * 4];
                       [(1 # 8) + -(1 # 8) * 4; 0 + -(1 # 8) * 4];
                       [(1 # 2) + (1 # 16) * 4; (1 # 2) + (1 # 16) * 4]]
                      (Some 44100%Z))
              (measure Double.stereo)) ∧
    heap σ' !! 1%nat = Some (rescaled Double.mono (measure Double.stereo + 0)) ∧
    heap σ' !! 0%nat = Some Double.stereo ∧
    trace σ' = trace Double.studio ++ [EvAdd].
Proof.
  apply (@interference_with_relative_loudness Double.collaborators
           Double.studio Double.studio (WaveObj 0%nat)
           (OthersSingle (WaveObj 1%nat)) None 0%nat 1%nat
           Double.stereo Double.mono 0).
  - reflexivity.
  - reflexivity.
  - reflexivity.
  - discriminate.
  - reflexivity.
Defined.

(** ** The mix of the composite anchors *)

Ltac heap_ins :=
  repeat first
    [ rewrite list_lookup_insert_ne by lia
    | rewrite list_lookup_insert_eq by (rewrite ?length_insert; lia) ].

Section Mix.
Context `{Collaborators}.

Lemma loudness_set_inv (σ σ1 : world) (l : loc) (value : Q) :
  loudness_set l value σ = (Ok tt, σ1) →
  ∃ w, heap σ !! l = Some w ∧
       σ1 = mkWorld (<[l := rescaled w value]> (heap σ)) (rng σ) (trace σ).
Proof.
  intros Hrun. destruct (heap σ !! l) as [w|] eqn:Hl.
  - rewrite (loudness_set_run σ l w value Hl) in Hrun.
    injection Hrun as <-. now exists w.
  - unfold loudness_set in Hrun. rewrite bind_run in Hrun.
    unfold load in Hrun. now rewrite Hl in Hrun.
Qed.

Lemma wave_plus_inv (σ σ1 : world) (l l' : loc) (y : pyarg) (b : ndarray)
    (w : Wave) :
  heap σ !! l = Some w → arg_samples σ y = Some b →
  wave_plus l y σ = (Ok l', σ1) →
  ∃ s, np_add (samples w) b = Ok s ∧ l' = length (heap σ) ∧
       σ1 = mkWorld (heap σ ++ [mkWave s (sample_rate w)]) (rng σ)
              (trace σ ++ [EvAdd]).
Proof.
  intros Hl Hy Hrun. rewrite (wave_plus_arg_run σ l w y b Hl Hy) in Hrun.
  destruct (np_add (samples w) b) as [s|e]; [|discriminate].
  injection Hrun as <- <-. now exists s.
Qed.

Lemma foldlM_wave_plus_inv (rest : list pyarg) :
  ∀ (bs : list ndarray) (σ σ1 : world) (acc total : loc) (aw : Wave),
    Forall2 (λ y b, arg_samples σ y = Some b) rest bs →
    heap σ !! acc = Some aw →
    foldlM wave_plus acc rest σ = (Ok total, σ1) →
    ∃ s ext,
      fold_left (λ r b, a ← r; np_add a b) bs (Ok (samples aw)) = Ok s ∧
      heap σ1 = heap σ ++ ext ∧
      heap σ1 !! total = Some (mkWave s (sample_rate aw)).
Proof.
  induction rest as [|y rest IH]; intros bs σ σ1 acc total aw Hargs Hacc Hrun.
  - apply Forall2_nil_inv_l in Hargs as ->. injection Hrun as <- <-.
    exists (samples aw), []. split; [reflexivity|].
    split; [now rewrite app_nil_r|]. now destruct aw.
  - apply Forall2_cons_inv_l in Hargs as (b & bs' & Hy & Hrest & ->).
    cbn [foldlM] in Hrun.
    apply bind_inv_ok in Hrun as (acc1 & σa & Hplus & Hrun).
    apply (wave_plus_inv σ σa acc acc1 y b aw Hacc Hy) in Hplus
      as (s1 & Hadd & -> & ->).
    set (w1 := mkWave s1 (sample_rate aw)) in *.
    set (σa := mkWorld (heap σ ++ [w1]) (rng σ) (trace σ ++ [EvAdd])) in *.
    destruct (IH bs' σa σ1 (length (heap σ)) total w1)
      as (s & ext & Hs & Hheap & Htotal).
    + eapply Forall2_impl; [exact Hrest|]. intros y' b'.
      now apply (arg_samples_app σ σa [w1]).
    + apply lookup_snoc_new.
    + exact Hrun.
    + exists s, (w1 :: ext). split; [|split].
      * cbn [fold_left].
        replace (a ← Ok (samples aw); np_add a b)
          with (np_add (samples aw) b) by reflexivity.
        now rewrite Hadd.
      * rewrite Hheap. subst σa. cbn [heap].
        now rewrite <- (assoc_L (++)).
      * exact Htotal.
Qed.

(** A returning [sum]: the total is an object appended to the store that
    holds the sum of the arrays. *)
Lemma py_sum_inv (σ σ1 : world) (first total : loc) (w : Wave)
    (rest : list pyarg) (bs : list ndarray) :
  heap σ !! first = Some w →
  Forall2 (λ y b, arg_samples σ y = Some b) rest bs →
  py_sum first rest σ = (Ok total, σ1) →
  ∃ s ext,
    py_sum_arrays (samples w) bs = Ok s ∧
    heap σ1 = heap σ ++ ext ∧
    heap σ1 !! total = Some (mkWave s (sample_rate w)).
Proof.
  intros Hfirst Hargs Hrun. unfold py_sum in Hrun.
  rewrite bind_run, (load_run first w σ Hfirst), bind_run, alloc_run in Hrun.
  set (w0 := mkWave (np_radd0 (samples w)) (sample_rate w)) in *.
  set (σa := mkWorld (heap σ ++ [w0]) (rng σ) (trace σ)) in *.
  destruct (foldlM_wave_plus_inv rest bs σa σ1 (length (heap σ)) total w0)
    as (s & ext & Hs & Hheap & Htotal).
  - eapply Forall2_impl; [exact Hargs|]. intros y' b'.
    now apply (arg_samples_app σ σa [w0]).
  - apply lookup_snoc_new.
  - exact Hrun.
  - exists s, (w0 :: ext). split; [exact Hs|]. split; [|exact Htotal].
    rewrite Hheap. subst σa. cbn [heap]. now rewrite <- (assoc_L (++)).
Qed.

(** The end of the composite anchors: the truncation of the total and the
    final loudness. *)
Lemma truncate_tail_run (σ : world) (t total : loc) (tw wtot : Wave) :
  heap σ !! t = Some tw → heap σ !! total = Some wtot →
  (w ← load t;
   anchor ← py_slice_to total (num_frames w);
   value ← loudness_get t;
   loudness_set anchor value;;
   mret anchor) σ
  = (Ok (length (heap σ)),
     mkWorld (heap σ ++ [rescaled (wave_take wtot (num_frames tw))
                                   (measure tw)])
             (rng σ) (trace σ)).
Proof.
  intros Ht Htot. unfold py_slice_to, loudness_get, loudness_set.
  mrun. now rewrite insert_snoc_new.
Qed.

Lemma post_bind_any {A B} (m : M A) (k : A → M B) (σ : world)
    (Q : B → world → Prop) :
  (∀ a σ1, post (k a) σ1 Q) → post (m ≫= k) σ Q.
Proof. intros Hk. apply post_bind. intros a σ1 _. apply Hk. Qed.

Lemma post_alloc_allocated (w : Wave) (σ : world) :
  post (alloc w) σ allocated.
Proof. intros l σ' [= <- <-]. exists w. apply lookup_snoc_new. Qed.

Lemma post_wave_plus_allocated (l : loc) (y : pyarg) (σ : world) :
  post (wave_plus l y) σ allocated.
Proof.
  unfold wave_plus. repeat (apply post_bind_any; intros).
  apply post_alloc_allocated.
Qed.

Lemma post_foldlM_allocated (rest : list pyarg) :
  ∀ (acc : loc) (σ : world),
    allocated acc σ → post (foldlM wave_plus acc rest) σ allocated.
Proof.
  induction rest as [|y rest IH]; intros acc σ Hacc; simpl.
  - now apply post_ret.
  - apply post_bind. eapply post_mono; [apply post_wave_plus_allocated|].
    intros acc' σ1 Hacc'. now apply IH.
Qed.

Lemma post_py_sum_allocated (first : loc) (rest : list pyarg) (σ : world) :
  post (py_sum first rest) σ allocated.
Proof.
  unfold py_sum. apply post_bind_any. intros w σ1.
  apply post_bind. eapply post_mono; [apply post_alloc_allocated|].
  intros acc σ2 Hacc. now apply post_foldlM_allocated.
Qed.

(** The accompaniment of a list is an object of the store. *)
Lemma post_target_accompaniment_allocated (target : pyarg)
    (others : list pyarg) (rate : option Z) (σ : world) :
  post (target_accompaniment target (OthersList others) rate) σ
    (λ '(_, acc) σ', allocated acc σ').
Proof.
  unfold target_accompaniment. apply post_bind.
  eapply (post_mono _ _ allocated).
  - destruct others as [|[a|first] rest];
      [apply post_raise | | apply post_py_sum_allocated].
    apply post_bind_any. intros first σ1.
    apply post_bind_any. intros rest' σ2. apply post_py_sum_allocated.
  - intros acc σ1 [w Hw]. apply post_bind.
    destruct target as [a|l]; simpl.
    + intros t σ2 [= <- <-]. apply post_ret. exists w.
      now apply lookup_app_l_Some.
    + apply post_ret, post_ret. now exists w.
Qed.

(** The two processed signals of the composite anchors: objects of their
    own, made one after the other, beside the unchanged target. *)
Lemma components_made (σ σ1 σ2 : world) (t dt mn : loc) (tw : Wave)
    (dft dfn lct lcn : option Q) (num_points : Z) (window_type : string)
    (rate : option Z) :
  heap σ !! t = Some tw →
  distorted_target (WaveObj t) dft lct num_points window_type rate σ
  = (Ok dt, σ1) →
  musical_noise (WaveObj t) dfn lcn num_points window_type rate σ1
  = (Ok mn, σ2) →
  keeps σ σ2 ∧
  (length (heap σ) ≤ dt)%nat ∧ (dt < length (heap σ1))%nat ∧
  (length (heap σ1) ≤ mn)%nat ∧ (dt < length (heap σ2))%nat.
Proof.
  intros Ht Hdt Hmn.
  destruct (ends_matched_distorted_target (heap σ) t tw Ht dft lct
              num_points window_type rate σ (λ l w Hl, Hl) dt σ1 Hdt)
    as (Hkeep1 & Hfresh & x & Hx).
  destruct (safe_musical_noise (heap σ1) (WaveObj t) dfn lcn num_points
              window_type rate σ1 (λ l w Hl, Hl)) as [Hkeep2 Hfresh2].
  rewrite Hmn in Hkeep2, Hfresh2. simpl in Hkeep2, Hfresh2.
  specialize (Hfresh2 mn eq_refl).
  split; [intros l w Hl; apply Hkeep2, Hkeep1, Hl|].
  split; [exact Hfresh|].
  split; [now apply lookup_lt_Some in Hx|].
  split; [exact Hfresh2|].
  apply Hkeep2 in Hx. now apply lookup_lt_Some in Hx.
Qed.

End Mix.

(** X13. [target_sound_quality] mixes its two components at equal
    loudness. When it returns for a target that is a Wave object, the
    distorted target and the musical noise were made from the unchanged
    target, in that order; each was set to a loudness of -23 in place; the
    anchor is their sum [0 + distorted + noise], cut to the length of the
    target, with the loudness of the target. *)
Theorem target_sound_quality_mixes_at_minus_23 `{Collaborators}
    (σ σ' : world) (t anchor : loc) (tw : Wave)
    (dft dfn lct lcn : option Q) (num_points : Z) (window_type : string)
    (rate : option Z) :
  heap σ !! t = Some tw →
  target_sound_quality (WaveObj t) dft dfn lct lcn num_points window_type
    rate σ = (Ok anchor, σ') →
  ∃ dt σ1 mn σ2 dw mw s,
    distorted_target (WaveObj t) dft lct num_points window_type rate σ
    = (Ok dt, σ1) ∧
    musical_noise (WaveObj t) dfn lcn num_points window_type rate σ1
    = (Ok mn, σ2) ∧
    heap σ2 !! dt = Some dw ∧ heap σ2 !! mn = Some mw ∧
    py_sum_arrays (samples (rescaled dw (-23)))
      [samples (rescaled mw (-23))] = Ok s ∧
    heap σ' !! anchor
    = Some (rescaled (wave_take (mkWave s (sample_rate dw)) (num_frames tw))
              (measure tw)) ∧
    heap σ' !! t = Some tw.
Proof.
  intros Ht Hrun. unfold target_sound_quality in Hrun. cbn [as_wave] in Hrun.
  rewrite bind_run, ret_run in Hrun.
  apply bind_inv_ok in Hrun as (dt & σ1 & Hdt & Hrun).
  apply bind_inv_ok in Hrun as (mn & σ2 & Hmn & Hrun).
  cbv zeta in Hrun. cbn [forM_] in Hrun.
  apply bind_inv_ok in Hrun as ([] & σ4 & Hsets & Hrun).
  apply bind_inv_ok in Hsets as ([] & σ3 & Hset1 & Hsets).
  apply bind_inv_ok in Hsets as ([] & σ3' & Hset2 & Hsets).
  injection Hsets as <-.
  destruct (components_made σ σ1 σ2 t dt mn tw dft dfn lct lcn num_points
              window_type rate Ht Hdt Hmn)
    as (Hkeep & Hdt0 & Hdt1 & Hmn1 & Hdt2).
  pose proof (lookup_lt_Some _ _ _ Ht) as Htlt.
  apply loudness_set_inv in Hset1 as (dw & Hdw & ->).
  apply loudness_set_inv in Hset2 as (mw & Hmw & ->).
  cbn [heap rng trace] in *.
  rewrite list_lookup_insert_ne in Hmw by lia.
  pose proof (lookup_lt_Some _ _ _ Hmw) as Hmnlt.
  set (σ4 := mkWorld _ _ _) in *.
  assert (heap σ4 !! t = Some tw) as Ht4.
  { subst σ4. cbn [heap]. heap_ins. now apply Hkeep. }
  assert (heap σ4 !! dt = Some (rescaled dw (-23))) as Hdt4.
  { subst σ4. cbn [heap]. now heap_ins. }
  assert (heap σ4 !! mn = Some (rescaled mw (-23))) as Hmn4.
  { subst σ4. cbn [heap]. now heap_ins. }
  clearbody σ4.
  apply bind_inv_ok in Hrun as (total & σ5 & Hsum & Hrun).
  destruct (py_sum_inv σ4 σ5 dt total (rescaled dw (-23)) [WaveObj mn]
              [samples (rescaled mw (-23))] Hdt4)
    as (s & ext & Hs & Hheap5 & Htotal); [|exact Hsum|].
  { constructor; [|constructor]. simpl. now rewrite Hmn4. }
  assert (heap σ5 !! t = Some tw) as Ht5.
  { rewrite Hheap5. now apply lookup_app_l_Some. }
  rewrite (truncate_tail_run σ5 t total tw _ Ht5 Htotal) in Hrun.
  injection Hrun as <- <-.
  exists dt, σ1, mn, σ2, dw, mw, s.
  split; [exact Hdt|]. split; [exact Hmn|]. split; [exact Hdw|].
  split; [exact Hmw|]. split; [exact Hs|]. cbn [heap].
  split; [apply lookup_snoc_new | now apply lookup_snoc_old].
Qed.

Lemma target_sound_quality_mixes_at_minus_23_witness :
  ∃ anchor σ',
    target_sound_quality (WaveObj 0%nat) (Some 0.2) (Some 0.99) (Some 3500)
      (Some 3500) 8 "hann" None Double.studio = (Ok anchor, σ') ∧
    ∃ dt σ1 mn σ2 dw mw s,
      distorted_target (WaveObj 0%nat) (Some 0.2) (Some 3500) 8 "hann" None
        Double.studio = (Ok dt, σ1) ∧
      musical_noise (WaveObj 0%nat) (Some 0.99) (Some 3500) 8 "hann" None σ1
      = (Ok mn, σ2) ∧
      heap σ2 !! dt = Some dw ∧ heap σ2 !! mn = Some mw ∧
      py_sum_arrays (samples (rescaled dw (-23)))
        [samples (rescaled mw (-23))] = Ok s ∧
      heap σ' !! anchor
      = Some (rescaled
                (wave_take (mkWave s (sample_rate dw))
                   (num_frames Double.stereo))
                (measure Double.stereo)) ∧
      heap σ' !! 0%nat = Some Double.stereo.
Proof.
  eexists _, _. split; [vm_compute; reflexivity|].
  apply (@target_sound_quality_mixes_at_minus_23 Double.collaborators
           Double.studio _ 0%nat _ Double.stereo (Some 0.2) (Some 0.99)
           (Some 3500) (Some 3500) 8%Z "hann"%string None).
  - reflexivity.
  - vm_compute. reflexivity.
Defined.

(** X14. [overall_quality] mixes three components. When it returns for a
    target that is a Wave object and a list of others, a relative loudness
    was given; the accompaniment, the distorted target and the musical
    noise were made in that order; all three were set to a loudness of -23
    in place and the accompaniment then once more to [-23 + r]; the anchor
    is the sum [0 + distorted + noise + accompaniment], cut to the length
    of the target, with the loudness of the target. *)
Theorem overall_quality_mixes_three_components `{Collaborators}
    (σ σ' : world) (t anchor : loc) (tw : Wave) (others : list pyarg)
    (dft dfn lct lcn relative_loudness : option Q) (num_points : Z)
    (window_type : string) (rate : option Z) :
  heap σ !! t = Some tw →
  overall_quality (WaveObj t) (OthersList others) dft dfn lct lcn
    relative_loudness num_points window_type rate σ = (Ok anchor, σ') →
  ∃ r acc σ0 dt σ1 mn σ2 aw dw mw s,
    relative_loudness = Some r ∧
    target_accompaniment (WaveObj t) (OthersList others) rate σ
    = (Ok (t, acc), σ0) ∧
    distorted_target (WaveObj t) dft lct num_points window_type rate σ0
    = (Ok dt, σ1) ∧
    musical_noise (WaveObj t) dfn lcn num_points window_type rate σ1
    = (Ok mn, σ2) ∧
    heap σ2 !! acc = Some aw ∧ heap σ2 !! dt = Some dw ∧
    heap σ2 !! mn = Some mw ∧
    py_sum_arrays (samples (rescaled dw (-23)))
      [samples (rescaled mw (-23));
       samples (rescaled (rescaled aw (-23)) (-23 + r))] = Ok s ∧
    heap σ' !! anchor
    = Some (rescaled (wave_take (mkWave s (sample_rate dw)) (num_frames tw))
              (measure tw)) ∧
    heap σ' !! t = Some tw.
Proof.
  intros Ht Hrun. unfold overall_quality in Hrun.
  apply bind_inv_ok in Hrun as ([t' acc] & σ0 & Hta & Hrun).
  destruct (safe_target_accompaniment_obj (heap σ) t others rate σ
              (λ l w Hl, Hl)) as [Hkeep0 Hres0].
  rewrite Hta in Hkeep0, Hres0. simpl in Hkeep0, Hres0.
  destruct (Hres0 _ eq_refl) as [-> Hacc0].
  destruct (post_target_accompaniment_allocated (WaveObj t) others rate σ
              _ _ Hta) as [aw Haw0].
  pose proof (Hkeep0 t tw Ht) as Ht0.
  apply bind_inv_ok in Hrun as (dt & σ1 & Hdt & Hrun).
  apply bind_inv_ok in Hrun as (mn & σ2 & Hmn & Hrun).
  cbv zeta in Hrun. cbn [forM_] in Hrun.
  apply bind_inv_ok in Hrun as ([] & σ4 & Hsets & Hrun).
  apply bind_inv_ok in Hsets as ([] & σ3 & Hset1 & Hsets).
  apply bind_inv_ok in Hsets as ([] & σ3' & Hset2 & Hsets).
  apply bind_inv_ok in Hsets as ([] & σ3'' & Hset3 & Hsets).
  injection Hsets as <-.
  apply bind_inv_ok in Hrun as ([] & σ5 & Hrel & Hrun).
  destruct relative_loudness as [r|]; [|discriminate Hrel].
  destruct (components_made σ0 σ1 σ2 t dt mn tw dft dfn lct lcn num_points
              window_type rate Ht0 Hdt Hmn)
    as (Hkeep & Hdt0 & Hdt1 & Hmn1 & Hdt2).
  pose proof (lookup_lt_Some _ _ _ Ht) as Htlt.
  pose proof (lookup_lt_Some _ _ _ Haw0) as Hacclt.
  unfold fresh in Hacc0.
  pose proof (Hkeep acc aw Haw0) as Haw2.
  apply loudness_set_inv in Hset1 as (dw & Hdw & ->).
  apply loudness_set_inv in Hset2 as (mw & Hmw & ->).
  cbn [heap rng trace] in *.
  rewrite list_lookup_insert_ne in Hmw by lia.
  pose proof (lookup_lt_Some _ _ _ Hmw) as Hmnlt.
  apply loudness_set_inv in Hset3 as (aw' & Haw' & ->).
  cbn [heap rng trace] in *.
  rewrite !list_lookup_insert_ne in Haw' by lia.
  assert (aw' = aw) as -> by congruence.
  apply loudness_set_inv in Hrel as (aw'' & Haw'' & ->).
  cbn [heap rng trace] in *.
  rewrite list_lookup_insert_eq in Haw'' by (rewrite !length_insert; lia).
  injection Haw'' as <-.
  set (σ5 := mkWorld _ _ _) in *.
  assert (heap σ5 !! t = Some tw) as Ht5.
  { subst σ5. cbn [heap]. heap_ins. now apply Hkeep. }
  assert (heap σ5 !! dt = Some (rescaled dw (-23))) as Hdt5.
  { subst σ5. cbn [heap]. now heap_ins. }
  assert (heap σ5 !! mn = Some (rescaled mw (-23))) as Hmn5.
  { subst σ5. cbn [heap]. now heap_ins. }
  assert (heap σ5 !! acc
          = Some (rescaled (rescaled aw (-23)) (-23 + r))) as Hacc5.
  { subst σ5. cbn [heap]. now heap_ins. }
  clearbody σ5.
  apply bind_inv_ok in Hrun as (total & σ6 & Hsum & Hrun).
  destruct (py_sum_inv σ5 σ6 dt total (rescaled dw (-23))
              [WaveObj mn; WaveObj acc]
              [samples (rescaled mw (-23));
               samples (rescaled (rescaled aw (-23)) (-23 + r))] Hdt5)
    as (s & ext & Hs & Hheap6 & Htotal); [|exact Hsum|].
  { constructor; [|constructor; [|constructor]]; simpl.
    - now rewrite Hmn5.
    - now rewrite Hacc5. }
  assert (heap σ6 !! t = Some tw) as Ht6.
  { rewrite Hheap6. now apply lookup_app_l_Some. }
  rewrite (truncate_tail_run σ6 t total tw _ Ht6 Htotal) in Hrun.
  injection Hrun as <- <-.
  exists r, acc, σ0, dt, σ1, mn, σ2, aw, dw, mw, s.
  split; [reflexivity|]. split; [exact Hta|]. split; [exact Hdt|].
  split; [exact Hmn|]. split; [exact Haw2|]. split; [exact Hdw|].
  split; [exact Hmw|]. split; [exact Hs|]. cbn [heap].
  split; [apply lookup_snoc_new | now apply lookup_snoc_old].
Qed.

Lemma overall_quality_mixes_three_components_witness :
  ∃ anchor σ',
    overall_quality (WaveObj 0%nat) (OthersList [WaveObj 1%nat])
      None (Some 0.99) (Some 3500) None (Some 0) 8 "hann" None Double.studio
    = (Ok anchor, σ') ∧
    ∃ r acc σ0 dt σ1 mn σ2 aw dw mw s,
      Some 0 = Some r ∧
      target_accompaniment (WaveObj 0%nat) (OthersList [WaveObj 1%nat]) None
        Double.studio = (Ok (0%nat, acc), σ0) ∧
      distorted_target (WaveObj 0%nat) None (Some 3500) 8 "hann" None σ0
      = (Ok dt, σ1) ∧
      musical_noise (WaveObj 0%nat) (Some 0.99) None 8 "hann" None σ1
      = (Ok mn, σ2) ∧
      heap σ2 !! acc = Some aw ∧ heap σ2 !! dt = Some dw ∧
      heap σ2 !! mn = Some mw ∧
      py_sum_arrays (samples (rescaled dw (-23)))
        [samples (rescaled mw (-23));
         samples (rescaled (rescaled aw (-23)) (-23 + r))] = Ok s ∧
      heap σ' !! anchor
      = Some (rescaled
                (wave_take (mkWave s (sample_rate dw))
                   (num_frames Double.stereo))
                (measure Double.stereo)) ∧
      heap σ' !! 0%nat = Some Double.stereo.
Proof.
  eexists _, _. split; [vm_compute; reflexivity|].
  apply (@overall_quality_mixes_three_components Double.collaborators
           Double.studio _ 0%nat _ Double.stereo [WaveObj 1%nat]
           None (Some 0.99) (Some 3500) None (Some 0) 8%Z "hann"%string None).
  - reflexivity.
  - vm_compute. reflexivity.
Defined.

(** ** The command-line program *)

Lemma S_bind_run {A B} (m : S A) (k : A → S B) (s : session) :
  (m ≫= k) s
  = match m s with
    | (Ok a, s') => k a s'
    | (Raise e, s') => (Raise e, s')
    end.
Proof. reflexivity. Qed.

Lemma S_bind_inv_ok {A B} (m : S A) (k : A → S B) (s s'' : session) (b : B) :
  (m ≫= k) s = (Ok b, s'') →
  ∃ a s', m s = (Ok a, s') ∧ k a s' = (Ok b, s'').
Proof.
  rewrite S_bind_run. destruct (m s) as [[a|e] s']; [|discriminate].
  intros Hk. now exists a, s'.
Qed.

Lemma spost_bind {A B} (m : S A) (k : A → S B) (s : session)
    (Q : B → session → Prop) :
  spost m s (λ a s1, spost (k a) s1 Q) → spost (m ≫= k) s Q.
Proof.
  intros Hm b s' Hrun.
  apply S_bind_inv_ok in Hrun as (a & s1 & Hma & Hk).
  exact (Hm a s1 Hma b s' Hk).
Qed.

Lemma spost_ret {A} (a : A) (s : session) (Q : A → session → Prop) :
  Q a s → spost (mret a) s Q.
Proof. intros HQ a' s' [= <- <-]. exact HQ. Qed.

Lemma spost_mono {A} (m : S A) (s : session) (Q Q' : A → session → Prop) :
  spost m s Q → (∀ a s', Q a s' → Q' a s') → spost m s Q'.
Proof. intros Hm HQ a s' Hrun. apply HQ, Hm, Hrun. Qed.

Lemma same_io_refl (s : session) : same_io s s.
Proof. now split. Qed.

Lemma same_io_trans (s1 s2 s3 : session) :
  same_io s1 s2 → same_io s2 s3 → same_io s1 s3.
Proof. intros [Hc1 Hd1] [Hc2 Hd2]. split; congruence. Qed.

Lemma spost_in_world {A} (m : M A) (s : session) :
  spost (in_world m) s (λ _ s', same_io s s').
Proof.
  intros a s'. unfold in_world. destruct (m (machine s)) as [r σ].
  now intros [= _ <-].
Qed.

Lemma quiet_bind {A B} (m : S A) (k : A → S B) :
  quiet m → (∀ a, quiet (k a)) → quiet (m ≫= k).
Proof.
  intros Hm Hk s. rewrite S_bind_run. specialize (Hm s).
  destruct (m s) as [[a|e] s1]; simpl in *; [|done].
  now rewrite (Hk a s1).
Qed.

Lemma quiet_ret {A} (a : A) : quiet (mret a : S A).
Proof. now intros s. Qed.

Lemma quiet_raise {A} (e : exn) : quiet (S_raise e : S A).
Proof. now intros s. Qed.

Lemma quiet_print (line : string) : quiet (print line).
Proof. now intros s. Qed.

Lemma quiet_in_world {A} (m : M A) : quiet (in_world m).
Proof. intros s. unfold in_world. now destruct (m (machine s)). Qed.

Lemma quiet_mapS {A B} (f : A → S B) (xs : list A) :
  (∀ x, quiet (f x)) → quiet (mapS f xs).
Proof.
  intros Hf. induction xs as [|x xs IH]; simpl; [apply quiet_ret|].
  apply quiet_bind; [apply Hf|]. intros y.
  apply quiet_bind; [apply IH|]. intros ys. apply quiet_ret.
Qed.

Lemma quiet_forS_print (lines : list string) : quiet (forS_ lines print).
Proof.
  induction lines as [|line lines IH]; simpl; [apply quiet_ret|].
  apply quiet_bind; [apply quiet_print | intros _; apply IH].
Qed.

Lemma fails_before_writing_bind {A B} (m : S A) (k : A → S B) :
  quiet m → (∀ a, fails_before_writing (k a)) →
  fails_before_writing (m ≫= k).
Proof.
  intros Hm Hk s e s'. rewrite S_bind_run. specialize (Hm s).
  destruct (m s) as [[a|e1] s1]; simpl in *.
  - intros Hrun. rewrite (Hk a s1 e s' Hrun). exact Hm.
  - now intros [= _ <-].
Qed.

(** The writing loop: every pair is written, in order, and the loop
    returns. *)
Lemma forS_write_run (name : string → string) (files : list (string * Wave))
    (s : session) :
  forS_ files (λ '(key, anchor), write_file (name key) anchor) s
  = (Ok tt,
     mkSession (machine s) (console s)
       (disk s ++ map (λ '(key, anchor), (name key, anchor)) files)).
Proof.
  revert s. induction files as [|[key anchor] files IH]; intros s.
  - simpl. rewrite app_nil_r. now destruct s.
  - cbn [forS_]. rewrite S_bind_run. cbn [write_file].
    rewrite IH. cbn [machine console disk map].
    now rewrite <- (assoc_L (++)).
Qed.

Lemma zip_named (name : string → string) (keys : list string)
    (waves : list Wave) :
  map (λ '(key, anchor), (name key, anchor)) (zip keys waves)
  = zip (map name keys) waves.
Proof.
  revert waves. induction keys as [|key keys IH]; intros [|w waves];
    simpl; [done..|]. now rewrite IH.
Qed.

Lemma mapM_load_length (ls : list loc) (σ σ' : world) (waves : list Wave) :
  mapM load ls σ = (Ok waves, σ') → length waves = length ls.
Proof.
  revert waves σ σ'. induction ls as [|l ls IH]; intros waves σ σ'; simpl.
  - now intros [= <- _].
  - intros Hrun. apply bind_inv_ok in Hrun as (w & σ1 & _ & Hrun).
    apply bind_inv_ok in Hrun as (ws & σ2 & Hws & Hrun).
    injection Hrun as <- _. simpl. f_equal. exact (IH _ _ _ Hws).
Qed.

(** The guard returns one buffer for each buffer of the batch. *)
Lemma guarded_length (waves : list Wave) (printed : list string)
    (arrays : list ndarray) :
  ensure_audio_doesnt_clip (map samples waves) = Ok (printed, arrays) →
  printed = [clip_warning] ∧
  length (zip_with (λ w a, mkWave a (sample_rate w)) waves arrays)
  = length waves.
Proof.
  intros Hrun. destruct (ensure_inv _ _ _ Hrun) as (m & Hscan & Hge & -> & ->).
  split; [done|]. rewrite length_zip_with, !length_map. lia.
Qed.

Section ProgramSteps.
Context `{Collaborators} `{Host}.

Lemma quiet_read_wave (path : option string) : quiet (read_wave path).
Proof.
  unfold read_wave. destruct (Wave_read path);
    [apply quiet_in_world | apply quiet_raise].
Qed.

Lemma quiet_guard_anchors (anchors : list loc) : quiet (guard_anchors anchors).
Proof.
  apply quiet_bind; [apply quiet_in_world|]. intros waves.
  destruct (ensure_audio_doesnt_clip _) as [[printed arrays]|e];
    [|apply quiet_raise].
  apply quiet_bind; [apply quiet_forS_print | intros _; apply quiet_ret].
Qed.

Lemma quiet_single_source_anchor (wanted : bool) (key : string)
    (call : M loc) (anchors : list (string * loc)) :
  quiet (single_source_anchor wanted key call anchors).
Proof.
  destruct wanted; simpl; [|apply quiet_ret].
  apply quiet_bind; [apply quiet_in_world | intros a; apply quiet_ret].
Qed.

Lemma quiet_multi_source_anchor (wanted : bool) (others : option (list loc))
    (key message : string) (call : others_arg → M loc)
    (anchors : list (string * loc)) :
  quiet (multi_source_anchor wanted others key message call anchors).
Proof.
  unfold multi_source_anchor.
  destruct wanted; [|apply quiet_ret]. destruct (truthy others).
  - apply quiet_bind; [apply quiet_in_world | intros a; apply quiet_ret].
  - apply quiet_bind; [apply quiet_print | intros _; apply quiet_ret].
Qed.

Lemma spost_read_wave (path : option string) (s : session) :
  spost (read_wave path) s (λ _ s', same_io s s').
Proof.
  unfold read_wave. destruct (Wave_read path); [apply spost_in_world|].
  intros a s'. discriminate.
Qed.

Lemma spost_read_others (paths : list string) (s : session) :
  spost (mapS (λ path, read_wave (Some path)) paths) s
    (λ others s', same_io s s' ∧ length others = length paths).
Proof.
  revert s. induction paths as [|path paths IH]; intros s; simpl.
  - apply spost_ret. split; [apply same_io_refl | done].
  - apply spost_bind. eapply spost_mono; [apply spost_read_wave|].
    intros l s1 Hio1. apply spost_bind.
    eapply spost_mono; [apply IH|]. intros ls s2 [Hio2 Hlen].
    apply spost_ret. split; [now apply same_io_trans with s1|].
    simpl. now rewrite Hlen.
Qed.

Lemma spost_single_source_anchor (wanted : bool) (key : string)
    (call : M loc) (anchors : list (string * loc)) (s : session) :
  spost (single_source_anchor wanted key call anchors) s
    (λ anchors' s',
       same_io s s' ∧
       map fst anchors' = map fst anchors ++ (if wanted then [key] else [])).
Proof.
  destruct wanted; simpl.
  - apply spost_bind. eapply spost_mono; [apply spost_in_world|].
    intros a s1 Hio. apply spost_ret. split; [done|].
    now rewrite map_app.
  - apply spost_ret. split; [apply same_io_refl | now rewrite app_nil_r].
Qed.

Lemma spost_multi_source_anchor (wanted : bool) (others : option (list loc))
    (key message : string) (call : others_arg → M loc)
    (anchors : list (string * loc)) (s : session) :
  spost (multi_source_anchor wanted others key message call anchors) s
    (λ anchors' s',
       disk s' = disk s ∧
       console s'
       = console s
         ++ (if wanted && negb (truthy others) then [message] else []) ∧
       map fst anchors'
       = map fst anchors
         ++ (if wanted && truthy others then [key] else [])).
Proof.
  unfold multi_source_anchor. destruct wanted; simpl.
  - destruct (truthy others); simpl.
    + apply spost_bind. eapply spost_mono; [apply spost_in_world|].
      intros a s1 [Hc Hd]. apply spost_ret.
      split; [done|]. split; [now rewrite app_nil_r|]. now rewrite map_app.
    + intros a s' [= <- <-]. simpl. now rewrite app_nil_r.
  - apply spost_ret. now rewrite !app_nil_r.
Qed.

Lemma spost_guard_anchors (anchors : list loc) (s : session) :
  spost (guard_anchors anchors) s
    (λ scaled s',
       disk s' = disk s ∧ console s' = console s ++ [clip_warning] ∧
       length scaled = length anchors).
Proof.
  intros scaled s' Hrun. unfold guard_anchors in Hrun.
  apply S_bind_inv_ok in Hrun as (waves & s1 & Hload & Hrun).
  assert (same_io s s1 ∧ length waves = length anchors) as [[Hc Hd] Hlen].
  { split; [exact (spost_in_world _ _ _ _ Hload)|].
    unfold in_world in Hload.
    destruct (mapM load anchors (machine s)) as [r σ] eqn:Hm.
    injection Hload as -> _. exact (mapM_load_length _ _ _ _ Hm). }
  destruct (ensure_audio_doesnt_clip (map samples waves))
    as [[printed arrays]|e] eqn:Hguard; [|discriminate].
  destruct (guarded_length waves printed arrays Hguard) as (-> & Hlen').
  injection Hrun as <- <-. simpl.
  split; [done|]. split; [now rewrite Hc | congruence].
Qed.

End ProgramSteps.

(** X15. A run of the program that raises has written no file: the
    target and the other sources are read, every selected anchor is made
    and the whole batch is passed through the clip guard before the first
    file is written, so a failure of any of these steps leaves no partial
    output. *)
Theorem failed_run_writes_nothing `{Collaborators} `{Host}
    (args : Namespace) (s s' : session) (e : exn) :
  ssanchors args s = (Raise e, s') → disk s' = disk s.
Proof.
  revert s e s'. change (fails_before_writing (ssanchors args)).
  unfold ssanchors.
  apply fails_before_writing_bind; [apply quiet_read_wave|]. intros target.
  apply fails_before_writing_bind.
  { destruct (args_others args) as [paths|]; [|apply quiet_ret].
    apply quiet_bind; [|intros others; apply quiet_ret].
    apply quiet_mapS. intros path. apply quiet_read_wave. }
  intros others. cbv zeta.
  do 3 (apply fails_before_writing_bind;
        [apply quiet_single_source_anchor|]; intros ?).
  do 2 (apply fails_before_writing_bind;
        [apply quiet_multi_source_anchor|]; intros ?).
  apply fails_before_writing_bind; [apply quiet_guard_anchors|].
  intros scaled.
  destruct (args_target args) as [path|].
  - intros s e s'. rewrite S_bind_run. cbn.
    destruct (os_path_splitext path) as [filename file_extension].
    now rewrite forS_write_run.
  - now intros s e s' [= _ <-].
Qed.

Lemma failed_run_writes_nothing_witness :
  disk (@ssanchors Double.collaborators Desk.host
          (mkNamespace (Some "missing.wav"%string) None true false false
             false false false) Desk.idle).2
  = disk Desk.idle.
Proof.
  apply (@failed_run_writes_nothing Double.collaborators Desk.host
           (mkNamespace (Some "missing.wav"%string) None true false false
              false false false) Desk.idle _ ValueError).
  reflexivity.
Defined.

(** X16. What a run of the program that returns has done. The target
    path was given; exactly one file per made anchor was written, in the
    order distorted_target, artefacts, target_sound_quality, interference,
    overall_quality, under the name [<root>_<key>_anchor<extension>] of the
    split target path; the two anchors that need other sources are made
    only when some were given, and otherwise each request for them prints
    its notice instead; and the clip warning is the last line printed,
    also when no anchor was selected. *)
Theorem completed_run_outputs `{Collaborators} `{Host}
    (args : Namespace) (s s' : session) :
  ssanchors args s = (Ok tt, s') →
  ∃ path waves,
    args_target args = Some path ∧
    length waves = length (selected args) ∧
    disk s'
    = disk s
      ++ zip (map (anchor_file (os_path_splitext path).1
                     (os_path_splitext path).2) (selected args)) waves ∧
    console s' = console s ++ notices args ++ [clip_warning].
Proof.
  intros Hrun. unfold ssanchors in Hrun.
  apply S_bind_inv_ok in Hrun as (target & s1 & Hread & Hrun).
  apply spost_read_wave in Hread as Hio1.
  apply S_bind_inv_ok in Hrun as (others & s2 & Hothers & Hrun).
  assert (same_io s1 s2 ∧ truthy others = has_others args) as [Hio2 Htruthy].
  { unfold has_others. destruct (args_others args) as [paths|].
    - apply S_bind_inv_ok in Hothers as (ls & s2' & Hls & Hret).
      injection Hret as <- <-.
      apply spost_read_others in Hls as [Hio Hlen]. split; [done|].
      destruct ls, paths; simpl in *; congruence.
    - injection Hothers as <- <-. split; [apply same_io_refl | done]. }
  cbv zeta in Hrun.
  apply S_bind_inv_ok in Hrun as (a1 & s3 & Hstep1 & Hrun).
  apply spost_single_source_anchor in Hstep1 as [Hio3 Hk1].
  apply S_bind_inv_ok in Hrun as (a2 & s4 & Hstep2 & Hrun).
  apply spost_single_source_anchor in Hstep2 as [Hio4 Hk2].
  apply S_bind_inv_ok in Hrun as (a3 & s5 & Hstep3 & Hrun).
  apply spost_single_source_anchor in Hstep3 as [Hio5 Hk3].
  apply S_bind_inv_ok in Hrun as (a4 & s6 & Hstep4 & Hrun).
  apply spost_multi_source_anchor in Hstep4 as (Hd6 & Hc6 & Hk4).
  apply S_bind_inv_ok in Hrun as (a5 & s7 & Hstep5 & Hrun).
  apply spost_multi_source_anchor in Hstep5 as (Hd7 & Hc7 & Hk5).
  apply S_bind_inv_ok in Hrun as (scaled & s8 & Hguard & Hrun).
  apply spost_guard_anchors in Hguard as (Hd8 & Hc8 & Hlen).
  destruct (args_target args) as [path|]; [|discriminate Hrun].
  rewrite S_bind_run in Hrun. cbn in Hrun.
  destruct (os_path_splitext path) as [filename file_extension] eqn:Hsplit.
  rewrite forS_write_run in Hrun. injection Hrun as <-.
  assert (map fst a5 = selected args) as Hkeys.
  { rewrite Hk5, Hk4, Hk3, Hk2, Hk1, Htruthy. unfold selected. simpl.
    now rewrite <- !(assoc_L (++)). }
  exists path, scaled. split; [done|].
  split; [now rewrite <- Hkeys, Hlen, !length_map|]. cbn [disk console fst snd].
  destruct Hio1 as [Hc1 Hd1], Hio2 as [Hc2 Hd2], Hio3 as [Hc3 Hd3],
    Hio4 as [Hc4 Hd4], Hio5 as [Hc5 Hd5].
  split.
  { now rewrite zip_named, Hkeys, Hsplit, Hd8, Hd7, Hd6, Hd5, Hd4, Hd3, Hd2,
      Hd1. }
  rewrite Hc8, Hc7, Hc6, Hc5, Hc4, Hc3, Hc2, Hc1, Htruthy.
  unfold notices. now rewrite <- !(assoc_L (++)).
Qed.

Lemma completed_run_outputs_witness :
  let args := mkNamespace (Some "vox.wav"%string) None true false true false
                false false in
  let run := @ssanchors Double.collaborators Desk.host args Desk.idle in
  ∃ path waves,
    args_target args = Some path ∧
    length waves = length (selected args) ∧
    disk run.2
    = disk Desk.idle
      ++ zip (map (anchor_file (os_path_splitext path).1
                     (os_path_splitext path).2) (selected args)) waves ∧
    console run.2 = console Desk.idle ++ notices args ++ [clip_warning].
Proof.
  intros args run.
  apply (@completed_run_outputs Double.collaborators Desk.host args
           Desk.idle run.2).
  vm_compute. reflexivity.
Defined.

Section Reads.
Context `{Collaborators} `{Host}.

Lemma read_wave_returns (path : option string) (s : session) :
  is_ok (Wave_read path) = true →
  ∃ l s', read_wave path s = (Ok l, s') ∧ same_io s s'.
Proof.
  intros Hok. unfold read_wave. destruct (Wave_read path) as [w|e]; [|done].
  eexists _, _. split; [reflexivity | now split].
Qed.

Lemma read_others_return (paths : list string) (s : session) :
  Forall (λ path, is_ok (Wave_read (Some path)) = true) paths →
  ∃ ls s', mapS (λ path, read_wave (Some path)) paths s = (Ok ls, s') ∧
           same_io s s'.
Proof.
  intros Hpaths. revert s.
  induction Hpaths as [|path paths Hpath _ IH]; intros s.
  - exists [], s. split; [reflexivity | apply same_io_refl].
  - destruct (read_wave_returns (Some path) s Hpath) as (l & s1 & Hl & Hio1).
    destruct (IH s1) as (ls & s2 & Hls & Hio2).
    exists (l :: ls), s2. split; [|now apply same_io_trans with s1].
    cbn [mapS]. rewrite S_bind_run, Hl, S_bind_run, Hls. reflexivity.
Qed.

End Reads.

(** X17. A run that selects no anchor still reads its inputs and still
    warns: when the target and every other source can be read, the program
    returns, the only line it prints is the clip warning, although no audio
    was attenuated, and it writes no file. *)
Theorem run_without_selection_warns `{Collaborators} `{Host}
    (target : string) (others : option (list string)) (s : session) :
  is_ok (Wave_read (Some target)) = true →
  Forall (λ path, is_ok (Wave_read (Some path)) = true) (default [] others) →
  ∃ s',
    ssanchors (mkNamespace (Some target) others false false false false
                 false false) s = (Ok tt, s') ∧
    console s' = console s ++ [clip_warning] ∧
    disk s' = disk s.
Proof.
  intros Htarget Hothers.
  destruct (read_wave_returns (Some target) s Htarget)
    as (t & s1 & Ht & Hc1 & Hd1).
  assert (∃ ls s2,
    match others with
    | Some paths =>
        others ← mapS (λ path, read_wave (Some path)) paths;
        mret (Some others)
    | None => mret None
    end s1 = (Ok ls, s2) ∧ same_io s1 s2) as (ls & s2 & Hls & Hc2 & Hd2).
  { destruct others as [paths|].
    - destruct (read_others_return paths s1 Hothers) as (ls & s2 & Hls & Hio).
      exists (Some ls), s2. split; [|done].
      now rewrite S_bind_run, Hls.
    - exists None, s1. split; [reflexivity | apply same_io_refl]. }
  exists (mkSession (machine s2) (console s2 ++ [clip_warning]) (disk s2)).
  split; [|split; simpl; congruence].
  unfold ssanchors. cbn [args_target args_others args_distorted_target
    args_artefacts args_interference args_overall_quality
    args_target_sound_quality args_all orb].
  rewrite S_bind_run, Ht, S_bind_run, Hls. cbv zeta.
  cbn [single_source_anchor multi_source_anchor].
  rewrite !S_bind_run. cbn.
  destruct (os_path_splitext target) as [filename file_extension].
  reflexivity.
Qed.

Lemma run_without_selection_warns_witness :
  ∃ s',
    @ssanchors Double.collaborators Desk.host
      (mkNamespace (Some "vox.wav"%string) (Some ["drums.wav"%string])
         false false false false false false) Desk.idle = (Ok tt, s') ∧
    console s' = console Desk.idle ++ [clip_warning] ∧
    disk s' = disk Desk.idle.
Proof.
  apply (@run_without_selection_warns Double.collaborators Desk.host
           "vox.wav"%string (Some ["drums.wav"%string]) Desk.idle).
  - reflexivity.
  - repeat constructor.
Defined.

(** ** Cutoffs outside the spectrum *)

(** X18. The lowpass mask at cutoffs outside the spectrum, as the slice
    [x_fft[cutoff:] = 0] treats them, for a Wave with a positive sample
    rate. A cutoff at or above the number of
    bins leaves the spectrogram as it is; a negative bin index counts from
    the top, so that only the last [-cutoff] bins are zeroed; and one below
    minus the number of bins zeroes every cell. *)
Theorem lowpass_mask_outside_spectrum
    (x_fft : Spectrogram) (freq : Q) (num_points sr : Z) (σ : world) :
  (0 < sr)%Z →
  let bin := nearest_bin freq num_points sr in
  let bins := Z.of_nat (spec_bins x_fft) in
  ∃ masked,
    lowpass_mask x_fft (Some freq) num_points (Some sr) σ = (Ok masked, σ) ∧
    ((bins ≤ bin)%Z → masked = x_fft) ∧
    ((- bins ≤ bin < 0)%Z →
     ∀ f t c,
       cell masked f t c
       = if decide (bins + bin ≤ Z.of_nat f)%Z
         then (λ _, czero) <$> cell x_fft f t c
         else cell x_fft f t c) ∧
    ((bin < - bins)%Z →
     ∀ f t c, cell masked f t c = (λ _, czero) <$> cell x_fft f t c).
Proof.
  intros _ bin bins. exists (zero_bins_from bin x_fft).
  split; [reflexivity|]. split; [|split].
  - intros Hge. unfold zero_bins_from. cbv zeta.
    assert (slice_start bin (spec_bins x_fft) = spec_bins x_fft) as ->.
    { unfold slice_start. rewrite (proj2 (Z.ltb_ge bin 0)) by lia.
      subst bins. lia. }
    unfold spec_bins. rewrite take_ge, drop_ge by lia. simpl.
    rewrite app_nil_r. now destruct x_fft.
  - intros Hneg f t c. rewrite cell_zero_bins_from.
    assert (slice_start bin (spec_bins x_fft) = Z.to_nat (bins + bin)) as ->.
    { unfold slice_start. rewrite (proj2 (Z.ltb_lt bin 0)) by lia.
      subst bins. f_equal. lia. }
    destruct (decide (bins + bin ≤ Z.of_nat f)%Z).
    + now rewrite decide_True by lia.
    + now rewrite decide_False by lia.
  - intros Hlow f t c. rewrite cell_zero_bins_from.
    assert (slice_start bin (spec_bins x_fft) = 0%nat) as ->.
    { unfold slice_start. rewrite (proj2 (Z.ltb_lt bin 0)) by lia.
      subst bins. lia. }
    now rewrite decide_True by lia.
Qed.

Lemma lowpass_mask_outside_spectrum_witness :
  nearest_bin (-3500) 8 44100 = (-1)%Z ∧
  ∃ masked,
    lowpass_mask Double.seven_frames (Some (-3500)) 8 (Some 44100%Z)
      Double.studio = (Ok masked, Double.studio) ∧
    ((2 ≤ -1)%Z → masked = Double.seven_frames) ∧
    ((- 2 ≤ -1 < 0)%Z →
     ∀ f t c,
       cell masked f t c
       = if decide (2 + -1 ≤ Z.of_nat f)%Z
         then (λ _, czero) <$> cell Double.seven_frames f t c
         else cell Double.seven_frames f t c) ∧
    ((-1 < - 2)%Z →
     ∀ f t c,
       cell masked f t c = (λ _, czero) <$> cell Double.seven_frames f t c).
Proof.
  split; [reflexivity|].
  apply (lowpass_mask_outside_spectrum Double.seven_frames (-3500) 8 44100
           Double.studio).
  reflexivity.
Defined.

(** ** The mix of the artefacts anchor *)

(** X19. [artefacts] adds the target to the noise, not the noise to the
    target. When it returns for a target that is a Wave object, the musical
    noise was made from the unchanged target and set to the loudness of the
    target in place; the anchor is the sum [noise + target], a new object
    with the sample rate of the noise and the loudness of the target; and
    the target is as it was. *)
Theorem artefacts_mixes_noise_with_target `{Collaborators}
    (σ σ' : world) (t anchor : loc) (tw : Wave)
    (distortion_factor lowpass_cutoff : option Q) (num_points : Z)
    (window_type : string) (rate : option Z) :
  heap σ !! t = Some tw →
  artefacts (WaveObj t) distortion_factor lowpass_cutoff num_points
    window_type rate σ = (Ok anchor, σ') →
  ∃ mn σ1 mw s,
    musical_noise (WaveObj t) distortion_factor lowpass_cutoff num_points
      window_type rate σ = (Ok mn, σ1) ∧
    heap σ1 !! mn = Some mw ∧
    np_add (samples (rescaled mw (measure tw))) (samples tw) = Ok s ∧
    heap σ' !! anchor
    = Some (rescaled (mkWave s (sample_rate mw)) (measure tw)) ∧
    heap σ' !! mn = Some (rescaled mw (measure tw)) ∧
    heap σ' !! t = Some tw.
Proof.
  intros Ht Hrun. unfold artefacts in Hrun. cbn [attr_loudness] in Hrun.
  apply bind_inv_ok in Hrun as (mn & σ1 & Hmn & Hrun).
  destruct (safe_musical_noise (heap σ) (WaveObj t) distortion_factor
              lowpass_cutoff num_points window_type rate σ (λ l w Hl, Hl))
    as [Hkeep Hfresh].
  rewrite Hmn in Hkeep, Hfresh. simpl in Hkeep, Hfresh.
  specialize (Hfresh mn eq_refl). unfold fresh in Hfresh.
  pose proof (Hkeep t tw Ht) as Ht1.
  pose proof (lookup_lt_Some _ _ _ Ht) as Htlt.
  rewrite bind_run, (loudness_get_run σ1 t tw Ht1) in Hrun.
  apply bind_inv_ok in Hrun as ([] & σ2 & Hset & Hrun).
  apply loudness_set_inv in Hset as (mw & Hmw & ->).
  pose proof (lookup_lt_Some _ _ _ Hmw) as Hmnlt.
  set (σ2 := mkWorld _ _ _) in *.
  assert (heap σ2 !! t = Some tw) as Ht2.
  { subst σ2. cbn [heap]. now heap_ins. }
  assert (heap σ2 !! mn = Some (rescaled mw (measure tw))) as Hmn2.
  { subst σ2. cbn [heap]. now heap_ins. }
  clearbody σ2.
  apply bind_inv_ok in Hrun as (sum & σ3 & Hplus & Hrun).
  apply (wave_plus_inv σ2 σ3 mn sum (WaveObj t) (samples tw)
           (rescaled mw (measure tw)) Hmn2) in Hplus as (s & Hadd & -> & ->);
    [|simpl; now rewrite Ht2].
  set (σ3 := mkWorld _ _ _) in *.
  assert (heap σ3 !! t = Some tw) as Ht3 by now apply lookup_snoc_old.
  rewrite bind_run, (loudness_get_run σ3 t tw Ht3) in Hrun.
  rewrite bind_run,
    (loudness_set_run σ3 (length (heap σ2)) (mkWave s (sample_rate mw)))
    in Hrun by apply lookup_snoc_new.
  rewrite ret_run in Hrun. injection Hrun as <- <-.
  subst σ3. cbn [heap rng trace]. rewrite insert_snoc_new.
  exists mn, σ1, mw, s. split; [exact Hmn|]. split; [exact Hmw|].
  split; [exact Hadd|]. split; [apply lookup_snoc_new|].
  split; now apply lookup_snoc_old.
Qed.

Lemma artefacts_mixes_noise_with_target_witness :
  ∃ anchor σ',
    artefacts (WaveObj 0%nat) (Some 0.99) None 8 "hann" None Double.studio
    = (Ok anchor, σ') ∧
    ∃ mn σ1 mw s,
      musical_noise (WaveObj 0%nat) (Some 0.99) None 8 "hann" None
        Double.studio = (Ok mn, σ1) ∧
      heap σ1 !! mn = Some mw ∧
      np_add (samples (rescaled mw (measure Double.stereo)))
        (samples Double.stereo) = Ok s ∧
      heap σ' !! anchor
      = Some (rescaled (mkWave s (sample_rate mw)) (measure Double.stereo)) ∧
      heap σ' !! mn = Some (rescaled mw (measure Double.stereo)) ∧
      heap σ' !! 0%nat = Some Double.stereo.
Proof.
  eexists _, _. split; [vm_compute; reflexivity|].
  apply (@artefacts_mixes_noise_with_target Double.collaborators
           Double.studio _ 0%nat _ Double.stereo (Some 0.99) None 8%Z
           "hann"%string None).
  - reflexivity.
  - vm_compute. reflexivity.
Defined.
